(** * Battery health agent: parsing and scoring, verified against its specification

    A shallow embedding of [agent/battery_agent.py].

    Modelling conventions.
    - A Python [str] is a list of characters; the characters are the code
      points below 256 (Rocq's [ascii]), with Python's whitespace and case
      mappings restricted to that range.
    - A Python [int] is a [Z]; a [float] is an IEEE-754 binary64 value
      ([spec_float] with precision 53 and maximal exponent 1024).
    - Exceptions are explicit: a function that can raise returns a [result].
    - CPython limits the conversion of a decimal [str] to an [int] to
      [sys.int_info.default_max_str_digits] = 4300 digits, and the agent
      leaves that limit as it is: [int] raises [ValueError] beyond it, and so
      does [html.unescape], which converts decimal character references with
      [int].  Other limits of the interpreter (memory, recursion) are outside
      the model.
    - The entity table of [html.unescape] is data of the library, not of the
      agent: what a character reference is replaced by is a parameter, and
      decoded texts are taken within the alphabet of the model. *)

From Stdlib Require Import Ascii String ZArith NArith QArith Qpower Bool List Lia.
From Stdlib Require Import SpecFloat DecimalString DecimalPos.
Import ListNotations.

Close Scope Q_scope.

Set Default Proof Using "Type".

(** ** Python values *)

Module Py.

Definition str := list ascii.

(** A string literal of the source. *)
Definition lit (s : string) : str := list_ascii_of_string s.

Definition ord (c : ascii) : N := N_of_ascii c.

(** [c.isspace()], which is also what [\s] matches in a str pattern:
    TAB..CR, FS..US, SPACE, NEL and NBSP below 256. *)
Definition is_space (c : ascii) : bool :=
  let n := ord c in
  ((9 <=? n) && (n <=? 13) || (28 <=? n) && (n <=? 32)
   || (n =? 133) || (n =? 160))%N.

Definition is_digit (c : ascii) : bool :=
  let n := ord c in ((48 <=? n) && (n <=? 57))%N.

Definition is_upper (c : ascii) : bool :=
  let n := ord c in
  ((65 <=? n) && (n <=? 90)
   || (192 <=? n) && (n <=? 222) && negb (n =? 215))%N.

(** Lower-case mapping of one character. *)
Definition to_lower (c : ascii) : ascii :=
  if is_upper c then ascii_of_N (ord c + 32) else c.

Definition is_lower_with_upper (c : ascii) : bool :=
  let n := ord c in
  ((97 <=? n) && (n <=? 122)
   || (224 <=? n) && (n <=? 254) && negb (n =? 247))%N.

(** Upper-case mapping of one character, where the upper case is below 256. *)
Definition to_upper (c : ascii) : ascii :=
  if is_lower_with_upper c then ascii_of_N (ord c - 32) else c.

(** [s.lower()] *)
Definition lower (s : str) : str := map to_lower s.

(** [s == t] *)
Fixpoint str_eqb (s t : str) : bool :=
  match s, t with
  | [], [] => true
  | a :: s', b :: t' => Ascii.eqb a b && str_eqb s' t'
  | _, _ => false
  end.

Definition is_empty (s : str) : bool :=
  match s with [] => true | _ => false end.

Fixpoint lstrip (s : str) : str :=
  match s with
  | c :: s' => if is_space c then lstrip s' else s
  | [] => []
  end.

Definition rstrip (s : str) : str := rev (lstrip (rev s)).

(** [s.strip()] *)
Definition strip (s : str) : str := rstrip (lstrip s).

(** Exceptions the agent can meet. *)
Inductive exn :=
| ValueError | IndexError | OverflowError | ZeroDivisionError | OSError.

Inductive result (A : Type) :=
| Ok (a : A)
| Raise (e : exn).
Arguments Ok {A} a.
Arguments Raise {A} e.

Definition bind {A B} (m : result A) (k : A -> result B) : result B :=
  match m with
  | Ok a => k a
  | Raise e => Raise e
  end.

Definition digit_value (c : ascii) : Z := (Z.of_N (ord c) - 48)%Z.

(** [int(s)] accumulates the digits from the left. *)
Definition int_digits (s : str) : Z :=
  fold_left (fun acc c => (10 * acc + digit_value c)%Z) s 0%Z.

(** [sys.int_info.default_max_str_digits]: beyond this number of digits
    CPython refuses to convert a decimal string to an int.  The agent does
    not change the limit. *)
Definition max_str_digits : Z := 4300.

(** [int(s)] on a str.  A non-empty string of ASCII digits denotes its
    decimal value, and [int] raises [ValueError] when it holds more than
    [max_str_digits] digits (leading zeros count).  Python accepts a few
    more shapes (sign, surrounding whitespace, underscores); the agent never
    passes them, and this model raises [ValueError] on every string that is
    not all digits. *)
Definition int (s : str) : result Z :=
  if negb (is_empty s) && forallb is_digit s then
    if (max_str_digits <? Z.of_nat (length s))%Z then Raise ValueError
    else Ok (int_digits s)
  else Raise ValueError.

(** [[f(x) for x in xs]]: the elements in order, stopping at the first
    exception. *)
Fixpoint comprehension {A B} (f : A -> result B) (xs : list A)
  : result (list B) :=
  match xs with
  | [] => Ok []
  | x :: xs' =>
      bind (f x) (fun y => bind (comprehension f xs') (fun ys => Ok (y :: ys)))
  end.

(** [xs[i]] *)
Definition getitem {A} (xs : list A) (i : nat) : result A :=
  match nth_error xs i with
  | Some x => Ok x
  | None => Raise IndexError
  end.

(** Truth value of an optional str: [None] and the empty string are false. *)
Definition truthy_str (v : option str) : bool :=
  match v with
  | Some s => negb (is_empty s)
  | None => false
  end.

End Py.

Notation "x <- m ;; k" := (Py.bind m (fun x => k))
  (at level 61, m at next level, right associativity).

(** ** The fragment of Python's [re] the agent uses *)

Module Re.
Import Py.

Record flags := { ignorecase : bool; dotall : bool }.

Definition no_flags := {| ignorecase := false; dotall := false |}.
(** [re.IGNORECASE | re.DOTALL] *)
Definition IS := {| ignorecase := true; dotall := true |}.

(** Character classes. *)
Inductive cclass :=
| Dot                        (* .       *)
| Space                      (* \s      *)
| OneOf (cs : list ascii)    (* [abc]   *)
| NoneOf (cs : list ascii)   (* [^abc]  *)
| NotRange (lo hi : ascii).  (* [^a-z]  *)

(** A pattern is a sequence of atoms; the only repetitions the agent writes
    are over one character class; [Open] and [Close] delimit group 1. *)
Inductive atom :=
| Lit (c : ascii)
| One (k : cclass)
| Star (greedy : bool) (k : cclass)
| Open
| Close.

Definition pattern := list atom.

(** A literal character of the pattern against a character of the text. *)
Definition chr_eq (fl : flags) (c t : ascii) : bool :=
  if ignorecase fl then Ascii.eqb (to_lower c) (to_lower t)
  else Ascii.eqb c t.

Definition in_range (lo hi t : ascii) : bool :=
  ((ord lo <=? ord t) && (ord t <=? ord hi))%N.

Definition in_class (fl : flags) (k : cclass) (t : ascii) : bool :=
  match k with
  | Dot => if dotall fl then true else negb (Ascii.eqb t "010"%char)
  | Space => is_space t
  | OneOf cs => existsb (fun c => chr_eq fl c t) cs
  | NoneOf cs => negb (existsb (fun c => chr_eq fl c t) cs)
  | NotRange lo hi =>
      negb (in_range lo hi t
            || ignorecase fl
               && (in_range lo hi (to_lower t) || in_range lo hi (to_upper t)))
  end.

(** Marks of a match: the text that remained when group 1 opened, when it
    closed, and when the whole pattern had matched. *)
Record marks := { m_open : str; m_close : str; m_end : str }.

Definition set_open (s : str) (r : marks) : marks :=
  {| m_open := s; m_close := m_close r; m_end := m_end r |}.

Definition set_close (s : str) (r : marks) : marks :=
  {| m_open := m_open r; m_close := s; m_end := m_end r |}.

(** Backtracking match of a pattern at the head of [s], alternatives tried
    in the order of the engine: a greedy repetition takes the longest run
    first, a lazy one the shortest. *)
Fixpoint exec (fl : flags) (re : pattern) : str -> option marks :=
  match re with
  | [] => fun s => Some {| m_open := []; m_close := []; m_end := s |}
  | Lit c :: re' =>
      let k := exec fl re' in
      fun s => match s with
               | t :: s' => if chr_eq fl c t then k s' else None
               | [] => None
               end
  | One cl :: re' =>
      let k := exec fl re' in
      fun s => match s with
               | t :: s' => if in_class fl cl t then k s' else None
               | [] => None
               end
  | Star true cl :: re' =>
      let k := exec fl re' in
      fix greedy (s : str) : option marks :=
        match s with
        | t :: s' =>
            if in_class fl cl t then
              match greedy s' with
              | Some r => Some r
              | None => k s
              end
            else k s
        | [] => k s
        end
  | Star false cl :: re' =>
      let k := exec fl re' in
      fix lazy (s : str) : option marks :=
        match k s with
        | Some r => Some r
        | None =>
            match s with
            | t :: s' => if in_class fl cl t then lazy s' else None
            | [] => None
            end
        end
  | Open :: re' =>
      let k := exec fl re' in
      fun s => option_map (set_open s) (k s)
  | Close :: re' =>
      let k := exec fl re' in
      fun s => option_map (set_close s) (k s)
  end.

(** [m.group(1)] *)
Definition group1 (r : marks) : str :=
  firstn (length (m_open r) - length (m_close r)) (m_open r).

(** [pattern.search(s)]: the first position where the pattern matches; the
    result carries the text skipped before the match. *)
Fixpoint search (fl : flags) (re : pattern) (s : str) : option (str * marks) :=
  match exec fl re s with
  | Some r => Some ([], r)
  | None =>
      match s with
      | [] => None
      | c :: s' =>
          match search fl re s' with
          | Some (pre, r) => Some (c :: pre, r)
          | None => None
          end
      end
  end.

(** Successive non-overlapping matches, left to right, each search starting
    where the previous match ended.  Every pattern of the agent consumes at
    least one character per match, so the length of the text bounds the
    number of matches (see [findall_fuel_enough]). *)
Fixpoint findall_fuel (n : nat) (fl : flags) (re : pattern) (s : str) : list str :=
  match n with
  | O => []
  | S n' =>
      match search fl re s with
      | None => []
      | Some (_, r) => group1 r :: findall_fuel n' fl re (m_end r)
      end
  end.

(** [pattern.findall(s)] for a pattern with one group. *)
Definition findall (fl : flags) (re : pattern) (s : str) : list str :=
  findall_fuel (length s) fl re s.

Fixpoint sub_fuel (n : nat) (fl : flags) (re : pattern) (repl s : str) : str :=
  match n with
  | O => s
  | S n' =>
      match search fl re s with
      | None => s
      | Some (pre, r) => pre ++ repl ++ sub_fuel n' fl re repl (m_end r)
      end
  end.

(** [re.sub(pattern, repl, s)] for a replacement without group references. *)
Definition sub (fl : flags) (re : pattern) (repl s : str) : str :=
  sub_fuel (length s) fl re repl s.

(** [re.escape(s)]: every character of [s] as a literal. *)
Definition escape (s : str) : pattern := map Lit s.

(** Shortest text a pattern can match. *)
Fixpoint min_width (re : pattern) : nat :=
  match re with
  | [] => 0
  | (Lit _ | One _) :: re' => S (min_width re')
  | _ :: re' => min_width re'
  end.

End Re.

(** ** Python floats: IEEE-754 binary64 *)

Module F64.
Import Py.

Definition prec : Z := 53.
Definition emax : Z := 1024.

Definition float := spec_float.

(** Quotient of two positive integers rounded to the nearest float, ties to
    even; an infinity stands for a quotient beyond the largest float. *)
Definition round_quotient (s : bool) (n d : Z) : float :=
  let '(q, e, l) := SFdiv_core_binary prec emax n 0 d 0 in
  binary_round_aux prec emax s q e l.

(** [float(n)] for an int: the nearest float, [OverflowError] beyond the
    largest one. *)
Definition of_int (n : Z) : result float :=
  match binary_normalize prec emax n 0 false with
  | S754_infinity _ => Raise OverflowError
  | f => Ok f
  end.

(** [a / b] on two ints: the correctly rounded quotient;
    [ZeroDivisionError] for a zero divisor, [OverflowError] when the
    quotient is too large for a float. *)
Definition true_div (a b : Z) : result float :=
  match a, b with
  | _, Z0 => Raise ZeroDivisionError
  | Z0, _ => Ok (S754_zero (b <? 0)%Z)
  | _, _ =>
      match round_quotient (xorb (a <? 0)%Z (b <? 0)%Z) (Z.abs a) (Z.abs b) with
      | S754_infinity _ => Raise OverflowError
      | f => Ok f
      end
  end.

(** [x * n] for a float and an int: the int is converted first. *)
Definition mul_int (x : float) (n : Z) : result float :=
  y <- of_int n ;; Ok (SFmul prec emax x y).

(** [n - x] for an int and a float. *)
Definition int_sub (n : Z) (x : float) : result float :=
  y <- of_int n ;; Ok (SFsub prec emax y x).

(** [x >= n] for a float and an int: the two values are compared exactly;
    a NaN compares false. *)
Definition ge_int (x : float) (n : Z) : bool :=
  match x with
  | S754_nan => false
  | S754_infinity s => negb s
  | S754_zero _ => (n <=? 0)%Z
  | S754_finite s m e =>
      let v := cond_Zopp s (Zpos m) in
      if (0 <=? e)%Z then (n <=? v * 2 ^ e)%Z
      else (n * 2 ^ (- e) <=? v)%Z
  end.

(** The value of [x] is at least [n]: for a finite float the value is the
    rational [m * 2 ** e] with its sign. *)
Definition reaches (x : float) (n : Z) : Prop :=
  match x with
  | S754_nan => False
  | S754_infinity s => s = false
  | S754_zero _ => (n <= 0)%Z
  | S754_finite s m e =>
      (inject_Z n <= inject_Z (cond_Zopp s (Zpos m)) * (2 # 1) ^ e)%Q
  end.

(** [n / d] rounded to the nearest integer, ties to the even one
    ([0 <= n], [0 < d]). *)
Definition div_half_even (n d : Z) : Z :=
  let q := (n / d)%Z in
  let r := (n mod d)%Z in
  match (2 * r ?= d)%Z with
  | Lt => q
  | Gt => (q + 1)%Z
  | Eq => if Z.even q then q else (q + 1)%Z
  end.

(** [round(x, ndigits)] for [0 <= ndigits]: the exact value of [x] is
    rounded, ties to even, to a multiple of [10 ** -ndigits], and the float
    nearest to that decimal is returned.  Infinities and NaN round to
    themselves, and so does every float when [ndigits] exceeds 323. *)
Definition round (x : float) (ndigits : N) : float :=
  match x with
  | S754_finite s m e =>
      if (323 <? ndigits)%N then x
      else
        let p := (10 ^ Z.of_N ndigits)%Z in
        let k := if (0 <=? e)%Z then (Zpos m * 2 ^ e * p)%Z
                 else div_half_even (Zpos m * p) (2 ^ (- e)) in
        match k with
        | Z0 => S754_zero s
        | _ => round_quotient s k p
        end
  | _ => x
  end.

(** [100.0] *)
Definition hundred : float := S754_finite false 7036874417766400 (-46).

(** The float nearest to [n / 100], for stating expected values such as
    [69.9]. *)
Definition centi (n : Z) : float :=
  match n with
  | Z0 => S754_zero false
  | _ => round_quotient (n <? 0)%Z (Z.abs n) 100
  end.

End F64.

(** ** The data model of the agent *)

Module BatteryInfo.
Record t := {
  name : option Py.str;
  manufacturer : option Py.str;
  chemistry : option Py.str;
  design_capacity_mwh : option Z;
  full_charge_capacity_mwh : option Z;
  cycle_count : option Z
}.
End BatteryInfo.

Module CapacityHistoryEntry.
Record t := {
  date : Py.str;
  full_charge_capacity_mwh : option Z;
  design_capacity_mwh : option Z
}.
End CapacityHistoryEntry.

(** The dict returned by [_parse_system_info]. *)
Module SystemInfo.
Record t := {
  product : option Py.str;
  bios : option Py.str;
  os_build : option Py.str;
  report_time : option Py.str
}.
End SystemInfo.

(** The dict returned by [compute_health]. *)
Module Health.
Record t := {
  health_percentage : option F64.float;
  degradation_percentage : option F64.float;
  cycle_penalty : Z;
  estimated_remaining_life : string
}.
End Health.

(** The dict returned by [build_payload]. *)
Module Payload.
Record t := {
  system : SystemInfo.t;
  battery : BatteryInfo.t;
  health : Health.t;
  history : list CapacityHistoryEntry.t;
  generated_at : string
}.
End Payload.

(** ** The agent *)

Import Py Re.

(** The literal characters of a pattern. *)
Definition lits (s : string) : pattern := map Lit (list_ascii_of_string s).

(** [_parse_int] *)
Definition _parse_int (value : option str) : result (option Z) :=
  match value with
  | None => Ok None
  | Some v =>
      if is_empty v then Ok None
      else
        let digits := sub no_flags [One (NotRange "0" "9")] [] v in
        if negb (is_empty digits) then n <- int digits ;; Ok (Some n)
        else Ok None
  end.

(** The branch of [compute_health] that sets [health_pct]. *)
Definition health_pct_of (design full : option Z) : result (option F64.float) :=
  match design, full with
  | Some d, Some f =>
      if (d =? 0)%Z || (f =? 0)%Z then Ok None
      else
        q <- F64.true_div f d ;;
        p <- F64.mul_int q 100 ;;
        Ok (Some (F64.round p 2))
  | _, _ => Ok None
  end.

(** The branch that sets [degradation_pct]. *)
Definition degradation_pct_of (health_pct : option F64.float)
  : result (option F64.float) :=
  match health_pct with
  | Some h => d <- F64.int_sub 100 h ;; Ok (Some (F64.round d 2))
  | None => Ok None
  end.

(** The branch that sets [cycle_penalty]. *)
Definition cycle_penalty_of (cycle_count : option Z) : Z :=
  match cycle_count with
  | Some c =>
      if negb (c =? 0)%Z && (500 <? c)%Z then Z.min 15 ((c - 500) / 50)
      else 0%Z
  | None => 0%Z
  end.

(** The branch that sets [estimated_remaining_life]. *)
Definition remaining_life_of (health_pct : option F64.float) : string :=
  match health_pct with
  | None => "unknown"
  | Some h =>
      if F64.ge_int h 85 then "18-24 months"
      else if F64.ge_int h 70 then "12-18 months"
      else if F64.ge_int h 60 then "6-12 months"
      else "0-6 months"
  end.

(** [compute_health] *)
Definition compute_health (battery : BatteryInfo.t) : result Health.t :=
  health_pct <- health_pct_of (BatteryInfo.design_capacity_mwh battery)
                              (BatteryInfo.full_charge_capacity_mwh battery) ;;
  degradation_pct <- degradation_pct_of health_pct ;;
  let cycle_penalty := cycle_penalty_of (BatteryInfo.cycle_count battery) in
  let estimated_remaining_life := remaining_life_of health_pct in
  Ok {| Health.health_percentage := health_pct;
        Health.degradation_percentage := degradation_pct;
        Health.cycle_penalty := cycle_penalty;
        Health.estimated_remaining_life := estimated_remaining_life |}.

(** [build_payload]; [utcnow] is [datetime.utcnow().isoformat()], the reading
    of the clock when the payload is built. *)
Definition build_payload (utcnow : string) (system_info : SystemInfo.t)
    (battery : BatteryInfo.t) (history : list CapacityHistoryEntry.t)
  : result Payload.t :=
  health <- compute_health battery ;;
  Ok {| Payload.system := system_info;
        Payload.battery := battery;
        Payload.health := health;
        Payload.history := history;
        Payload.generated_at := (utcnow ++ "Z")%string |}.

(** The substitution of character references over an empty entity table;
    it serves for documents that hold no ampersand. *)
Definition no_charrefs (s : str) : str := s.

(** ** Sample documents *)

(** A report that gives only the cycle count, and the same report after a
    row for the BIOS. *)
Definition cycles_only : str := lit "<tr><td>Cycle Count</td><td>312</td></tr>".

Definition bios_and_cycles : str :=
  lit "<tr><td>BIOS</td><td>1.0</td></tr><tr><td>Cycle Count</td><td>312</td></tr>".

Definition no_system_info : SystemInfo.t :=
  {| SystemInfo.product := None;
     SystemInfo.bios := None;
     SystemInfo.os_build := None;
     SystemInfo.report_time := None |}.

Definition cycles_312 : BatteryInfo.t :=
  {| BatteryInfo.name := None;
     BatteryInfo.manufacturer := None;
     BatteryInfo.chemistry := None;
     BatteryInfo.design_capacity_mwh := None;
     BatteryInfo.full_charge_capacity_mwh := None;
     BatteryInfo.cycle_count := Some 312%Z |}.

(** A report whose chemistry cell holds only white space. *)
Definition blank_chemistry : str := lit "<tr><td>Chemistry</td><td>  </td></tr>".

(** A report with its capacities, and a file system that holds it. *)
Definition capacities : str :=
  lit "<td>Design Capacity</td><td>2,000 mWh</td><td>Full Charge Capacity</td><td>1,700 mWh</td>".

Definition one_report (path : string) : option str :=
  if String.eqb path "battery-report.html" then Some capacities else None.

(** A report with the row of the battery name alone, and the same report
    after the row of the product name. *)
Definition name_only : str := lit "<td>Name</td><td>BAT0</td>".

Definition product_then_name : str :=
  lit "<td>System Product Name</td><td>PC</td><td>Name</td><td>BAT0</td>".

(** A cell content with irregular white space, whose normal form is
    "BAT 0", and a report that holds it after a cell whose text ends with
    the label "name". *)
Definition spaced_name : str :=
  lit "  BAT" ++ "009"%char :: "010"%char :: lit " 0 ".

Definition spaced_name_report : str :=
  lit "<TD>Battery name </TD> <td class='x'>" ++ spaced_name
  ++ lit "</td><td>Name</td><td>1</td>".

(** 4301 digits: one more than [int] converts. *)
Definition nines : str := repeat "9"%char 4301.

(** 4301 digits that denote the number one. *)
Definition zeros_then_one : str := repeat "0"%char 4300 ++ lit "1".


(** A report whose battery name is a decimal character reference of 4301
    digits. *)
Definition long_reference_name : str :=
  lit "<td>Name</td><td>&#" ++ nines ++ lit ";</td>".

(** The same cell before the rows of the product name. *)
Definition long_reference_then_product : str :=
  long_reference_name ++ lit "<td>System Product Name</td><td>PC</td>".

(** A report with a capacity history of one header row and one data row, the
    entry of that data row, and the same history with attributes on the
    tags of its rows. *)
Definition one_entry_table : str :=
  lit "<table><tr><td>PERIOD</td><td>FULL</td><td>DESIGN</td></tr><tr><td>2024-01-01</td><td>41,000 mWh</td><td>50,000 mWh</td></tr></table>".

Definition one_entry_history : str :=
  lit "<h2>Battery capacity history</h2>" ++ one_entry_table.

Definition entry_2024 : CapacityHistoryEntry.t :=
  {| CapacityHistoryEntry.date := lit "2024-01-01";
     CapacityHistoryEntry.full_charge_capacity_mwh := Some 41000%Z;
     CapacityHistoryEntry.design_capacity_mwh := Some 50000%Z |}.

Definition attributed_table : str :=
  lit "<table><tr class='even'><td>2024-01-01</td><td>41,000 mWh</td><td>50,000 mWh</td></tr></table>".

Definition attributed_history : str :=
  lit "<h2>Battery capacity history</h2>" ++ attributed_table.

(** A capacity history whose data row has a full-charge capacity of 4301
    digits. *)
Definition long_capacity_history : str :=
  lit "<h2>Battery capacity history</h2><table><tr><td>2024-01-01</td><td>"
  ++ nines ++ lit "</td><td>50,000 mWh</td></tr></table>".

(** Two rows of plain cells: a header row and a data row. *)
Definition header_and_data : list (list str) :=
  [ [lit "PERIOD"; lit "FULL"; lit "DESIGN"];
    [lit "2024-01-01"; lit "41,000 mWh"; lit "50,000 mWh"] ].

(** ** [html.unescape] *)

(** The digits at the head of [s]. *)
Fixpoint digit_run (s : str) : str :=
  match s with
  | c :: s' => if is_digit c then c :: digit_run s' else []
  | [] => []
  end.

(** [s] holds a decimal character reference, [&#] and the digits that
    follow, of more than [max_str_digits] digits. *)
Fixpoint long_charref (s : str) : bool :=
  match s with
  | [] => false
  | c :: s' =>
      (Ascii.eqb c "&"
       && match s' with
          | d :: s'' =>
              Ascii.eqb d "#"
              && (max_str_digits <? Z.of_nat (length (digit_run s'')))%Z
          | [] => false
          end)
      || long_charref s'
  end.

Section Agent.

(** [html.unescape(s)] returns [s] itself when it holds no ampersand.
    Otherwise it substitutes every character reference of [s], from left to
    right.  A decimal reference [&#ddd] is converted with [int], which raises
    [ValueError] when the reference has more than [max_str_digits] digits; a
    hexadecimal reference is converted in base 16, which has no limit, and a
    named reference is looked up in the HTML5 entity table.  The text that
    the substitution returns is a parameter. *)
Variable replace_charrefs : str -> str.

Definition unescape (s : str) : result str :=
  if negb (existsb (Ascii.eqb "&") s) then Ok s
  else if long_charref s then Raise ValueError
  else Ok (replace_charrefs s).

(** [_clean_html] *)
Definition _clean_html (text : str) : result str :=
  unescaped <- unescape text ;;
  Ok (strip (sub no_flags [One Space; Star true Space] (lit " ") unescaped)).

(** [rf"{re.escape(label)}\s*</td>\s*<td[^>]*>(.*?)</td>"] *)
Definition label_pattern (label : str) : pattern :=
  escape label ++ [Star true Space] ++ lits "</td>" ++ [Star true Space]
  ++ lits "<td" ++ [Star true (NoneOf [">"%char])] ++ lits ">"
  ++ [Open; Star false Dot; Close] ++ lits "</td>".

(** [_find_label_value] *)
Definition _find_label_value (html label : str) : result (option str) :=
  match search IS (label_pattern label) html with
  | None => Ok None
  | Some (_, m) => value <- _clean_html (group1 m) ;; Ok (Some value)
  end.

(** [rf"{re.escape(title)}\s*</h2>\s*(<table.*?</table>)"] *)
Definition section_pattern (title : str) : pattern :=
  escape title ++ [Star true Space] ++ lits "</h2>" ++ [Star true Space]
  ++ [Open] ++ lits "<table" ++ [Star false Dot] ++ lits "</table>" ++ [Close].

(** [_extract_section] *)
Definition _extract_section (html title : str) : option str :=
  match search IS (section_pattern title) html with
  | None => None
  | Some (_, m) => Some (group1 m)
  end.

(** [r"<tr>(.*?)</tr>"] *)
Definition row_pattern : pattern :=
  lits "<tr>" ++ [Open; Star false Dot; Close] ++ lits "</tr>".

(** [r"<t[dh][^>]*>(.*?)</t[dh]>"] *)
Definition cell_pattern : pattern :=
  lits "<t" ++ [One (OneOf ["d"; "h"]%char); Star true (NoneOf [">"%char])]
  ++ lits ">" ++ [Open; Star false Dot; Close]
  ++ lits "</t" ++ [One (OneOf ["d"; "h"]%char)] ++ lits ">".

(** One turn of the loop of [_parse_capacity_history] over [row], from the
    entries collected so far. *)
Definition history_row (entries : list CapacityHistoryEntry.t) (row : str)
  : result (list CapacityHistoryEntry.t) :=
  cells <- comprehension _clean_html (findall IS cell_pattern row) ;;
  skip <- (if (length cells <? 3)%nat then Ok true
           else c0 <- getitem cells 0 ;;
                Ok (str_eqb (lower c0) (lit "period"))) ;;
  if skip then Ok entries   (* continue *)
  else
    date <- getitem cells 0 ;;
    c1 <- getitem cells 1 ;;
    full_charge <- _parse_int (Some c1) ;;
    c2 <- getitem cells 2 ;;
    design <- _parse_int (Some c2) ;;
    Ok (entries ++ [ {| CapacityHistoryEntry.date := date;
                        CapacityHistoryEntry.full_charge_capacity_mwh := full_charge;
                        CapacityHistoryEntry.design_capacity_mwh := design |} ]).

(** The [for] loop: the rows in order, stopping at the first exception. *)
Fixpoint for_rows (rows : list str) (entries : list CapacityHistoryEntry.t)
  : result (list CapacityHistoryEntry.t) :=
  match rows with
  | [] => Ok entries
  | row :: rows' => entries' <- history_row entries row ;; for_rows rows' entries'
  end.

(** [_parse_capacity_history] *)
Definition _parse_capacity_history (html : str)
  : result (list CapacityHistoryEntry.t) :=
  let table_html := _extract_section html (lit "Battery capacity history") in
  if negb (truthy_str table_html) then Ok []
  else
    match table_html with
    | None => Ok []
    | Some table => for_rows (findall IS row_pattern table) []
    end.

(** [_parse_system_info] *)
Definition _parse_system_info (html : str) : result SystemInfo.t :=
  system_name <- _find_label_value html (lit "System Product Name") ;;
  bios <- _find_label_value html (lit "BIOS") ;;
  os_build <- _find_label_value html (lit "OS build") ;;
  report_time <- _find_label_value html (lit "Report Time") ;;
  Ok {| SystemInfo.product := system_name;
        SystemInfo.bios := bios;
        SystemInfo.os_build := os_build;
        SystemInfo.report_time := report_time |}.

(** The body of [parse_battery_report] once the document is read. *)
Definition parse_html (html : str)
  : result (SystemInfo.t * BatteryInfo.t * list CapacityHistoryEntry.t) :=
  name <- _find_label_value html (lit "Name") ;;
  manufacturer <- _find_label_value html (lit "Manufacturer") ;;
  chemistry <- _find_label_value html (lit "Chemistry") ;;
  design_text <- _find_label_value html (lit "Design Capacity") ;;
  design_capacity <- _parse_int design_text ;;
  full_charge_text <- _find_label_value html (lit "Full Charge Capacity") ;;
  full_charge_capacity <- _parse_int full_charge_text ;;
  cycle_text <- _find_label_value html (lit "Cycle Count") ;;
  cycle_count <- _parse_int cycle_text ;;
  system_info <- _parse_system_info html ;;
  let battery_info :=
    {| BatteryInfo.name := name;
       BatteryInfo.manufacturer := manufacturer;
       BatteryInfo.chemistry := chemistry;
       BatteryInfo.design_capacity_mwh := design_capacity;
       BatteryInfo.full_charge_capacity_mwh := full_charge_capacity;
       BatteryInfo.cycle_count := cycle_count |} in
  history <- _parse_capacity_history html ;;
  Ok (system_info, battery_info, history).

(** The files the agent can read: the decoded text of a path, if any. *)
Definition filesystem := string -> option str.

(** [parse_battery_report]: [read_text] raises [OSError] when the document
    cannot be read. *)
Definition parse_battery_report (fs : filesystem) (report_path : string)
  : result (SystemInfo.t * BatteryInfo.t * list CapacityHistoryEntry.t) :=
  html <- match fs report_path with
          | Some text => Ok text
          | None => Raise OSError
          end ;;
  parse_html html.

(** The two calls of [main] that turn the document into the payload. *)
Definition main_payload (utcnow : string) (fs : filesystem) (report_path : string)
  : result Payload.t :=
  parsed <- parse_battery_report fs report_path ;;
  let '(system_info, battery_info, history) := parsed in
  build_payload utcnow system_info battery_info history.

(** ** What the specification says, in its own words *)

(** A capacity that is absent or zero. *)
Definition absent_or_zero (v : option Z) : Prop := v = None \/ v = Some 0%Z.

(** Cycle penalty: 0 if the count is absent or at most 500, otherwise
    [min(15, floor((count - 500) / 50))]. *)
Definition cycle_penalty_spec (cycle_count : option Z) : Z :=
  match cycle_count with
  | None => 0%Z
  | Some c => if (c <=? 500)%Z then 0%Z else Z.min 15 ((c - 500) / 50)
  end.

(** Remaining-life band of a health percentage: the band of the highest
    threshold that the value of the health reaches. *)
Definition band_of (h : F64.float) (life : string) : Prop :=
  (F64.reaches h 85 /\ life = "18-24 months"%string)
  \/ (~ F64.reaches h 85 /\ F64.reaches h 70 /\ life = "12-18 months"%string)
  \/ (~ F64.reaches h 70 /\ F64.reaches h 60 /\ life = "6-12 months"%string)
  \/ (~ F64.reaches h 60 /\ life = "0-6 months"%string).

(** A battery that reports only its capacities, or only its cycle count. *)
Definition battery_of (design full cycles : option Z) : BatteryInfo.t :=
  {| BatteryInfo.name := None;
     BatteryInfo.manufacturer := None;
     BatteryInfo.chemistry := None;
     BatteryInfo.design_capacity_mwh := design;
     BatteryInfo.full_charge_capacity_mwh := full;
     BatteryInfo.cycle_count := cycles |}.


(** The ten decimal digits and the value of each. *)
Definition decimal_digit (c : ascii) : bool :=
  existsb (Ascii.eqb c) (lit "0123456789").

Definition digit_of (c : ascii) : Z :=
  match c with
  | "0" => 0 | "1" => 1 | "2" => 2 | "3" => 3 | "4" => 4
  | "5" => 5 | "6" => 6 | "7" => 7 | "8" => 8 | "9" => 9
  | _ => 0
  end%char%Z.

(** The integer a string of digits denotes in decimal: each digit weighs
    ten to the number of digits after it. *)
Fixpoint decimal_value (ds : str) : Z :=
  match ds with
  | [] => 0%Z
  | c :: ds' => (digit_of c * 10 ^ Z.of_nat (length ds') + decimal_value ds')%Z
  end.

(** Numeric coercion: absent for an absent or empty input; otherwise the
    non-digits are deleted and the remaining digits, if any, are read in
    decimal. *)
Definition coerce_spec (value : option str) : option Z :=
  match value with
  | None => None
  | Some [] => None
  | Some s =>
      match filter decimal_digit s with
      | [] => None
      | ds => Some (decimal_value ds)
      end
  end.

(** The text holds more than 4300 digits. *)
Definition too_many_digits (value : option str) : bool :=
  match value with
  | Some s => (4300 <? Z.of_nat (length (filter decimal_digit s)))%Z
  | None => false
  end.

(** The decimal rendering of an integer. *)
Definition decimal_rendering (n : Z) : str :=
  list_ascii_of_string (NilZero.string_of_int (Z.to_int n)).

(** The decimal numeral of the library that a string of digits spells. *)
Definition digit_uint (c : ascii) (d : Decimal.uint) : Decimal.uint :=
  match c with
  | "0" => Decimal.D0 d | "1" => Decimal.D1 d | "2" => Decimal.D2 d
  | "3" => Decimal.D3 d | "4" => Decimal.D4 d | "5" => Decimal.D5 d
  | "6" => Decimal.D6 d | "7" => Decimal.D7 d | "8" => Decimal.D8 d
  | "9" => Decimal.D9 d
  | _ => d
  end%char.

Definition uint_of_digits (s : str) : Decimal.uint :=
  fold_right digit_uint Decimal.Nil s.

(** Two strings that differ at most in the case of their letters. *)
Definition ci_eq (a b : str) : Prop := lower a = lower b.

(** The text of [s] after the literal characters [w], if [s] starts with
    them. *)
Fixpoint strip_lits (fl : flags) (w s : str) : option str :=
  match w with
  | [] => Some s
  | c :: w' =>
      match s with
      | t :: s' => if chr_eq fl c t then strip_lits fl w' s' else None
      | [] => None
      end
  end.

Fixpoint drop_while (p : ascii -> bool) (s : str) : str :=
  match s with
  | c :: s' => if p c then drop_while p s' else s
  | [] => []
  end.

Definition all_space (w : str) : Prop := Forall (fun c => is_space c = true) w.

(** [s] starts with the label, the end of its cell and a value cell:
    the label in any case, white space, a closing [</td>], white space, an
    opening [<td] with attributes [attrs] up to its [>], then [content],
    a closing [</td>], and [post]. *)
Definition label_cell (label s content post : str) : Prop :=
  exists lab ws1 c1 ws2 o attrs c2,
    s = lab ++ ws1 ++ c1 ++ ws2 ++ o ++ attrs ++ ">"%char :: content ++ c2 ++ post
    /\ ci_eq lab label
    /\ all_space ws1 /\ ci_eq c1 (lit "</td>")
    /\ all_space ws2 /\ ci_eq o (lit "<td")
    /\ Forall (fun c => c <> ">"%char) attrs
    /\ ci_eq c2 (lit "</td>").

(** The value cell the extractor reads: the first place of the document
    where the label and a value cell stand, with the content that ends at
    the first closing tag. *)
Definition extracted_cell (html label content : str) : Prop :=
  exists pre s post,
    html = pre ++ s /\ label_cell label s content post
    /\ (forall pre' s' c' p',
           html = pre' ++ s' -> label_cell label s' c' p' ->
           length pre <= length pre')
    /\ (forall c' p', label_cell label s c' p' -> length content <= length c').

(** The text after the label, the closing tag of its cell and the opening
    tag of the next cell, when [s] starts with them. *)
Definition value_cell_start (label s : str) : option str :=
  match strip_lits IS label s with
  | None => None
  | Some s1 =>
      match strip_lits IS (lit "</td>") (drop_while is_space s1) with
      | None => None
      | Some s3 =>
          match strip_lits IS (lit "<td") (drop_while is_space s3) with
          | None => None
          | Some s5 =>
              strip_lits IS (lit ">")
                (drop_while (in_class IS (NoneOf [">"%char])) s5)
          end
      end
  end.


(** No place of the document holds the label with a value cell. *)
Definition no_label_cell (html label : str) : Prop :=
  forall pre s content post,
    html = pre ++ s -> ~ label_cell label s content post.

(** A decimal character reference of more than 4300 digits: [&#] followed
    by more than 4300 digits. *)
Definition long_reference (s : str) : Prop :=
  exists a ds b,
    s = a ++ "&"%char :: "#"%char :: ds ++ b
    /\ Forall (fun c => decimal_digit c = true) ds
    /\ (4300 < Z.of_nat (length ds))%Z.

(** The text a content decodes to: the content itself when it holds no
    ampersand, otherwise the content with its character references
    replaced; a content with an over-long reference decodes to nothing. *)
Definition decoded (content d : str) : Prop :=
  ~ long_reference content
  /\ d = if existsb (Ascii.eqb "&") content then replace_charrefs content
         else content.

(** The words of a text, its maximal runs of characters that are not white
    space, in order; [w] is the word read so far. *)
Fixpoint split_ws (w s : str) : list str :=
  match s with
  | [] => if is_empty w then [] else [w]
  | c :: s' =>
      if is_space c
      then (if is_empty w then split_ws [] s' else w :: split_ws [] s')
      else split_ws (w ++ [c]) s'
  end.

Definition words (s : str) : list str := split_ws [] s.

(** The words joined by single spaces. *)
Fixpoint join_space (ws : list str) : str :=
  match ws with
  | [] => []
  | [w] => w
  | w :: ws' => w ++ " "%char :: join_space ws'
  end.

(** The normal form of a text: every run of white space collapsed to one
    space, no white space at either end. *)
Definition normal_form (d : str) : str := join_space (words d).

(** The normalized text of a content: the normal form of what it decodes
    to. *)
Definition normal_text (content v : str) : Prop :=
  exists d, decoded content d /\ v = normal_form d.

(** A row is discarded when it has fewer than 3 cells or when its first
    cell is "period" in any case. *)
Definition discarded (cells : list str) : Prop :=
  length cells < 3 \/ ci_eq (hd [] cells) (lit "period").

Definition discardedb (cells : list str) : bool :=
  (length cells <? 3) || str_eqb (lower (hd [] cells)) (lit "period").

(** The entry of a surviving row: cell 1 is the date label, cells 2 and 3
    are coerced to the full-charge and the design capacity. *)
Definition entry_of (cells : list str) : CapacityHistoryEntry.t :=
  {| CapacityHistoryEntry.date := nth 0 cells [];
     CapacityHistoryEntry.full_charge_capacity_mwh :=
       coerce_spec (Some (nth 1 cells []));
     CapacityHistoryEntry.design_capacity_mwh :=
       coerce_spec (Some (nth 2 cells [])) |}.

(** A capacity cell of the row holds more than 4300 digits. *)
Definition long_capacity (cells : list str) : Prop :=
  too_many_digits (Some (nth 1 cells [])) = true
  \/ too_many_digits (Some (nth 2 cells [])) = true.

(** The labelled fields of the report. *)
Inductive field :=
| FProduct | FBios | FOsBuild | FReportTime
| FName | FManufacturer | FChemistry
| FDesignCapacity | FFullChargeCapacity | FCycleCount.

Definition label_of (f : field) : str :=
  match f with
  | FProduct => lit "System Product Name"
  | FBios => lit "BIOS"
  | FOsBuild => lit "OS build"
  | FReportTime => lit "Report Time"
  | FName => lit "Name"
  | FManufacturer => lit "Manufacturer"
  | FChemistry => lit "Chemistry"
  | FDesignCapacity => lit "Design Capacity"
  | FFullChargeCapacity => lit "Full Charge Capacity"
  | FCycleCount => lit "Cycle Count"
  end.

Definition is_numeric (f : field) : bool :=
  match f with
  | FDesignCapacity | FFullChargeCapacity | FCycleCount => true
  | _ => false
  end.

(** The value of a field: a text or a number, each possibly absent. *)
Inductive value :=
| Text (v : option str)
| Number (v : option Z).

Definition absent (f : field) : value :=
  if is_numeric f then Number None else Text None.

(** The value of a field from the outcome of its own lookup. *)
Definition looked_up (f : field) (found : option str) : value :=
  if is_numeric f then Number (coerce_spec found) else Text found.

Definition parsed : Type :=
  SystemInfo.t * BatteryInfo.t * list CapacityHistoryEntry.t.

Definition field_value (r : parsed) (f : field) : value :=
  let '(system_info, battery, _) := r in
  match f with
  | FProduct => Text (SystemInfo.product system_info)
  | FBios => Text (SystemInfo.bios system_info)
  | FOsBuild => Text (SystemInfo.os_build system_info)
  | FReportTime => Text (SystemInfo.report_time system_info)
  | FName => Text (BatteryInfo.name battery)
  | FManufacturer => Text (BatteryInfo.manufacturer battery)
  | FChemistry => Text (BatteryInfo.chemistry battery)
  | FDesignCapacity => Number (BatteryInfo.design_capacity_mwh battery)
  | FFullChargeCapacity => Number (BatteryInfo.full_charge_capacity_mwh battery)
  | FCycleCount => Number (BatteryInfo.cycle_count battery)
  end.

Definition history_of (r : parsed) : list CapacityHistoryEntry.t := snd r.

(** A payload without its time stamp. *)
Definition payload_content (p : Payload.t)
  : SystemInfo.t * BatteryInfo.t * Health.t * list CapacityHistoryEntry.t :=
  (Payload.system p, Payload.battery p, Payload.health p, Payload.history p).

(** Replacing every run of white space by one space, reading from the left;
    [in_run] tells whether the character before [s] was white space. *)
Fixpoint collapse (in_run : bool) (s : str) : str :=
  match s with
  | [] => []
  | c :: s' =>
      if is_space c then
        if in_run then collapse true s' else " "%char :: collapse true s'
      else c :: collapse false s'
  end.

(** The white space of [s] is made of spaces, none of which follows white
    space; [after_space] tells whether the character before [s] was white
    space. *)
Fixpoint spaced (after_space : bool) (s : str) : bool :=
  match s with
  | [] => true
  | c :: s' =>
      if is_space c
      then Ascii.eqb c " " && negb after_space && spaced true s'
      else spaced false s'
  end.

(** A normalized text: every white-space character of it is a space that
    stands between two characters that are not white space. *)
Definition normalized (v : str) : Prop :=
  forall a c b,
    v = a ++ c :: b -> is_space c = true ->
    c = " "%char
    /\ (exists a' x, a = a' ++ [x] /\ is_space x = false)
    /\ (exists y b', b = y :: b' /\ is_space y = false).

(** [s] starts with the title, the end of its heading and a table: the title
    in any case, white space, a closing [</h2>], white space, and [table],
    which runs from an opening [<table] to a closing [</table>]; [post]
    follows. *)
Definition section_at (title s table post : str) : Prop :=
  exists t ws1 c1 ws2 o body c2,
    s = t ++ ws1 ++ c1 ++ ws2 ++ table ++ post
    /\ table = o ++ body ++ c2
    /\ ci_eq t title
    /\ all_space ws1 /\ ci_eq c1 (lit "</h2>")
    /\ all_space ws2 /\ ci_eq o (lit "<table")
    /\ ci_eq c2 (lit "</table>").

(** The text after the title, the end of its heading and the white space
    that follows, when [s] starts with them. *)
Definition table_start (title s : str) : option str :=
  match strip_lits IS title s with
  | None => None
  | Some s1 =>
      match strip_lits IS (lit "</h2>") (drop_while is_space s1) with
      | None => None
      | Some s3 => Some (drop_while is_space s3)
      end
  end.

(** [w] occurs in [t], in any case. *)
Definition occurs_ci (w t : str) : Prop :=
  exists pre w' post, t = pre ++ w' ++ post /\ ci_eq w' w.


(** The title of the section of the capacity history. *)
Definition history_title : str := lit "Battery capacity history".

(** The table the section extractor reads: the first place of the document
    where the title, the end of its heading and a table stand, with the
    table that ends at the first closing tag. *)
Definition extracted_section (html title table : str) : Prop :=
  exists pre s post,
    html = pre ++ s /\ section_at title s table post
    /\ (forall pre' s' t' p',
           html = pre' ++ s' -> section_at title s' t' p' ->
           length pre <= length pre')
    /\ (forall t' p', section_at title s t' p' -> length table <= length t').

(** No place of the document holds the title with a table. *)
Definition no_section (html title : str) : Prop :=
  forall pre s table post,
    html = pre ++ s -> ~ section_at title s table post.

(** [s] starts with a row: the tag [<tr>] in any case and without
    attributes, [body], a closing [</tr>], and [rest]. *)
Definition row_at (s body rest : str) : Prop :=
  exists o c,
    s = o ++ body ++ c ++ rest
    /\ ci_eq o (lit "<tr>") /\ ci_eq c (lit "</tr>").

(** [s] starts with a cell: an opening [<td] or [<th] in any case with
    attributes [attrs] up to its [>], [content], a closing [</td>] or
    [</th>], and [rest]. *)
Definition cell_at (s content rest : str) : Prop :=
  exists o attrs c,
    s = o ++ attrs ++ ">"%char :: content ++ c ++ rest
    /\ (ci_eq o (lit "<td") \/ ci_eq o (lit "<th"))
    /\ Forall (fun a => a <> ">"%char) attrs
    /\ (ci_eq c (lit "</td>") \/ ci_eq c (lit "</th>")).

(** The items of a text, read from left to right: the first place where an
    item stands, with the shortest body, then the items of what follows
    it. *)
Inductive split_items (item_at : str -> str -> str -> Prop)
  : str -> list str -> Prop :=
| split_done (s : str) :
    (forall pre s' body rest, s = pre ++ s' -> ~ item_at s' body rest) ->
    split_items item_at s []
| split_next (s pre s' body rest : str) (items : list str) :
    s = pre ++ s' -> item_at s' body rest ->
    (forall pre2 s2 b2 r2,
        s = pre2 ++ s2 -> item_at s2 b2 r2 -> length pre <= length pre2) ->
    (forall b2 r2, item_at s' b2 r2 -> length body <= length b2) ->
    split_items item_at rest items ->
    split_items item_at s (body :: items).

(** The rows of a table and the cell contents of a row. *)
Definition rows_of (table : str) (rows : list str) : Prop :=
  split_items row_at table rows.

Definition cells_of (row : str) (contents : list str) : Prop :=
  split_items cell_at row contents.

(** A row on which the parser raises: a cell holds an over-long reference,
    or the cells normalize to a row that is kept and has a capacity of
    more than 4300 digits. *)
Definition row_fails (contents : list str) : Prop :=
  Exists long_reference contents
  \/ exists cells,
       Forall2 normal_text contents cells
       /\ ~ discarded cells /\ long_capacity cells.

(** What the lookup of the label of a field returns, when it returns:
    absent without a cell for the label, otherwise the normalized text of
    the first such cell. *)
Definition lookup_reads (html : str) (f : field) (o : option str) : Prop :=
  (no_label_cell html (label_of f) /\ o = None)
  \/ exists content text,
       extracted_cell html (label_of f) content
       /\ normal_text content text /\ o = Some text.

(** What the parser reads for a field: absent without a cell for its
    label, otherwise the normalized text of the first such cell, coerced
    for a numeric field. *)
Definition field_reads (html : str) (f : field) (v : value) : Prop :=
  (no_label_cell html (label_of f) /\ v = absent f)
  \/ exists content text,
       extracted_cell html (label_of f) content
       /\ normal_text content text
       /\ (is_numeric f = true -> too_many_digits (Some text) = false)
       /\ v = looked_up f (Some text).

(** A field on which the parser raises: the cell of its label holds an
    over-long reference, or the field is numeric and its text has more than
    4300 digits. *)
Definition field_fails (html : str) (f : field) : Prop :=
  exists content,
    extracted_cell html (label_of f) content
    /\ (long_reference content
        \/ (is_numeric f = true
            /\ exists text,
                normal_text content text
                /\ too_many_digits (Some text) = true)).

(** The text after the opening tag of a cell, when [s] starts with one, and
    the text after the closing tag of a cell, when [s] starts with one. *)
Definition cell_start (s : str) : option str :=
  match strip_lits IS (lit "<t") s with
  | Some (t :: s2) =>
      if in_class IS (OneOf ["d"; "h"]%char) t
      then strip_lits IS (lit ">")
             (drop_while (in_class IS (NoneOf [">"%char])) s2)
      else None
  | _ => None
  end.

(** The tail of [cell_pattern] after the content of the cell. *)
Definition cell_closer : pattern :=
  Close :: lits "</t" ++ [One (OneOf ["d"; "h"]%char)] ++ lits ">".

Definition cell_end (s : str) : option str :=
  match strip_lits IS (lit "</t") s with
  | Some (t :: s2) =>
      if in_class IS (OneOf ["d"; "h"]%char) t
      then strip_lits IS (lit ">") s2
      else None
  | _ => None
  end.

(** The text of a history table as [powercfg] writes it, from the cells of
    its rows: each cell between [<td>] and [</td>], each row between [<tr>]
    and [</tr>], the rows between [<table>] and [</table>]. *)
Definition render_cell (c : str) : str := lit "<td>" ++ c ++ lit "</td>".

Definition row_body (cells : list str) : str := flat_map render_cell cells.

Definition render_row (cells : list str) : str :=
  lit "<tr>" ++ row_body cells ++ lit "</tr>".

Definition render_table (rows : list (list str)) : str :=
  lit "<table>" ++ flat_map render_row rows ++ lit "</table>".


(** A plain cell: a text without [<] and with at most 4300 digits that
    [_clean_html] leaves as it is. *)
Definition plain_cell (c : str) : Prop :=
  existsb (Ascii.eqb "<") c = false
  /\ _clean_html c = Ok c
  /\ too_many_digits (Some c) = false.

(** [p] differs from the literal characters [w], in every case, at a place
    that both have; [all_clash w p] when every non-empty end of [p] does. *)
Fixpoint clash (w p : str) : bool :=
  match w, p with
  | c :: w', t :: p' => if chr_eq IS c t then clash w' p' else true
  | _, _ => false
  end.

Fixpoint all_clash (w p : str) : bool :=
  match p with
  | [] => true
  | _ :: p' => clash w p && all_clash w p'
  end.


(** The sign bit of a float: set for a negative float, [-0.0] and [-inf];
    a NaN has none here. *)
Definition sign_bit (x : F64.float) : option bool :=
  match x with
  | S754_zero s | S754_infinity s | S754_finite s _ _ => Some s
  | S754_nan => None
  end.


(** ** The matcher *)

Lemma exec_star_greedy (fl : flags) (k : cclass) (re : pattern) (s : str) :
  exec fl (Star true k :: re) s
  = match s with
    | t :: s' =>
        if in_class fl k t then
          match exec fl (Star true k :: re) s' with
          | Some r => Some r
          | None => exec fl re s
          end
        else exec fl re s
    | [] => exec fl re s
    end.
Proof. destruct s; reflexivity. Qed.

Lemma exec_star_lazy (fl : flags) (k : cclass) (re : pattern) (s : str) :
  exec fl (Star false k :: re) s
  = match exec fl re s with
    | Some r => Some r
    | None =>
        match s with
        | t :: s' => if in_class fl k t then exec fl (Star false k :: re) s' else None
        | [] => None
        end
    end.
Proof. destruct s; reflexivity. Qed.

(** A match leaves at most the text it was given, less the characters the
    pattern must consume. *)
Lemma exec_end_length (fl : flags) (re : pattern) :
  forall s m, exec fl re s = Some m ->
              length (m_end m) + min_width re <= length s.
Proof.
  induction re as [|a re IH]; intros s m H.
  - simpl in H. inversion H; subst. simpl. lia.
  - destruct a as [c|k|[|] k| |].
    + destruct s as [|t s']; simpl in H; [discriminate|].
      destruct (chr_eq fl c t); [|discriminate].
      apply IH in H. simpl. lia.
    + destruct s as [|t s']; simpl in H; [discriminate|].
      destruct (in_class fl k t); [|discriminate].
      apply IH in H. simpl. lia.
    + revert m H. induction s as [|t s' IHs]; intros m H;
        rewrite exec_star_greedy in H.
      * apply IH in H. simpl in *. lia.
      * destruct (in_class fl k t).
        -- destruct (exec fl (Star true k :: re) s') as [r|] eqn:E.
           ++ inversion H; subst. specialize (IHs _ eq_refl). simpl in *. lia.
           ++ apply IH in H. simpl in *. lia.
        -- apply IH in H. simpl in *. lia.
    + revert m H. induction s as [|t s' IHs]; intros m H;
        rewrite exec_star_lazy in H.
      * destruct (exec fl re []) as [r|] eqn:E; [|discriminate].
        inversion H; subst. apply IH in E. simpl in *. lia.
      * destruct (exec fl re (t :: s')) as [r|] eqn:E.
        -- inversion H; subst. apply IH in E. simpl in *. lia.
        -- destruct (in_class fl k t); [|discriminate].
           apply IHs in H. simpl in *. lia.
    + simpl in H. destruct (exec fl re s) as [r|] eqn:E; [|discriminate].
      inversion H; subst. apply IH in E. simpl. lia.
    + simpl in H. destruct (exec fl re s) as [r|] eqn:E; [|discriminate].
      inversion H; subst. apply IH in E. simpl. lia.
Qed.

(** [search] returns the first position where the pattern matches. *)
Lemma search_some (fl : flags) (re : pattern) :
  forall s pre m,
    search fl re s = Some (pre, m) ->
    exists s', s = pre ++ s' /\ exec fl re s' = Some m
               /\ (forall p1 p2, pre = p1 ++ p2 -> p2 <> [] ->
                                 exec fl re (p2 ++ s') = None).
Proof.
  induction s as [|c s IH]; intros pre m H; simpl in H.
  - destruct (exec fl re []) as [r|] eqn:E; [|discriminate].
    inversion H; subst. exists []. repeat split; trivial.
    intros p1 p2 Hp Hne. destruct p1, p2; try discriminate. congruence.
  - destruct (exec fl re (c :: s)) as [r|] eqn:E.
    + inversion H; subst. exists (c :: s). repeat split; trivial.
      intros p1 p2 Hp Hne. destruct p1, p2; try discriminate. congruence.
    + destruct (search fl re s) as [[pre' r]|] eqn:Es; [|discriminate].
      inversion H; subst.
      destruct (IH _ _ eq_refl) as (s' & -> & Hm & Hfirst).
      exists s'. repeat split; trivial.
      intros p1 p2 Hp Hne. destruct p1 as [|a p1]; simpl in Hp.
      * subst p2. exact E.
      * inversion Hp; subst. eapply Hfirst; eauto.
Qed.

Lemma search_none (fl : flags) (re : pattern) :
  forall s, search fl re s = None ->
            forall pre s', s = pre ++ s' -> exec fl re s' = None.
Proof.
  induction s as [|c s IH]; intros H pre s' Hs; simpl in H.
  - destruct pre, s'; try discriminate.
    destruct (exec fl re []); [discriminate|reflexivity].
  - destruct (exec fl re (c :: s)) as [r|] eqn:E; [discriminate|].
    destruct (search fl re s) as [[pre' r]|] eqn:Es; [discriminate|].
    destruct pre as [|a pre]; simpl in Hs.
    + subst s'. exact E.
    + inversion Hs; subst. eapply IH; eauto.
Qed.

Lemma search_found (fl : flags) (re : pattern) :
  forall pre s' m, exec fl re s' = Some m ->
                   exists pre' m', search fl re (pre ++ s') = Some (pre', m').
Proof.
  intros pre s' m H.
  destruct (search fl re (pre ++ s')) as [[pre' m']|] eqn:E; [eauto|].
  rewrite (search_none _ _ _ E pre s' eq_refl) in H. discriminate.
Qed.

Lemma search_end_length (fl : flags) (re : pattern) (s pre : str) (m : marks) :
  search fl re s = Some (pre, m) ->
  length pre + length (m_end m) + min_width re <= length s.
Proof.
  intros H. apply search_some in H. destruct H as (s' & -> & H & _).
  apply exec_end_length in H. rewrite length_app. lia.
Qed.

(** The length of the text is fuel enough for [findall] and [sub]. *)
Lemma findall_fuel_enough (fl : flags) (re : pattern) :
  0 < min_width re ->
  forall n s, length s <= n -> findall_fuel n fl re s = findall fl re s.
Proof.
  intros Hw. unfold findall.
  assert (H : forall n k s, length s <= n -> length s <= k ->
                            findall_fuel n fl re s = findall_fuel k fl re s).
  { induction n as [|n IH]; intros k s Hn Hk.
    - destruct s; [|simpl in Hn; lia].
      destruct k; cbn [findall_fuel]; trivial.
      destruct (search fl re []) as [[pre m]|] eqn:E; trivial.
      apply search_end_length in E. simpl in E. lia.
    - destruct k as [|k].
      + destruct s; [|simpl in Hk; lia]. cbn [findall_fuel].
        destruct (search fl re []) as [[pre m]|] eqn:E; trivial.
        apply search_end_length in E. simpl in E. lia.
      + cbn [findall_fuel]. destruct (search fl re s) as [[pre m]|] eqn:E; trivial.
        apply search_end_length in E. f_equal. apply IH; lia. }
  intros n s Hn. apply H; trivial.
Qed.

Lemma sub_fuel_enough (fl : flags) (re : pattern) (repl : str) :
  0 < min_width re ->
  forall n s, length s <= n -> sub_fuel n fl re repl s = sub fl re repl s.
Proof.
  intros Hw. unfold sub.
  assert (H : forall n k s, length s <= n -> length s <= k ->
                            sub_fuel n fl re repl s = sub_fuel k fl re repl s).
  { induction n as [|n IH]; intros k s Hn Hk.
    - destruct s; [|simpl in Hn; lia].
      destruct k; cbn [sub_fuel]; trivial.
      destruct (search fl re []) as [[pre m]|] eqn:E; trivial.
      apply search_end_length in E. simpl in E. lia.
    - destruct k as [|k].
      + destruct s; [|simpl in Hk; lia]. cbn [sub_fuel].
        destruct (search fl re []) as [[pre m]|] eqn:E; trivial.
        apply search_end_length in E. simpl in E. lia.
      + cbn [sub_fuel]. destruct (search fl re s) as [[pre m]|] eqn:E; trivial.
        apply search_end_length in E. do 2 f_equal. apply IH; lia. }
  intros n s Hn. apply H; trivial.
Qed.

(** Unfolding [sub] at the first match. *)
Lemma sub_step (fl : flags) (re : pattern) (repl s : str) :
  0 < min_width re ->
  sub fl re repl s
  = match search fl re s with
    | None => s
    | Some (pre, m) => pre ++ repl ++ sub fl re repl (m_end m)
    end.
Proof.
  intros Hw. unfold sub at 1. destruct s as [|c s].
  - cbn [sub_fuel length]. destruct (search fl re []) as [[pre m]|] eqn:E; trivial.
    apply search_end_length in E. simpl in E. lia.
  - change (length (c :: s)) with (S (length s)). cbn [sub_fuel].
    destruct (search fl re (c :: s)) as [[pre m]|] eqn:E; trivial.
    apply search_end_length in E. simpl in E.
    rewrite sub_fuel_enough; trivial. lia.
Qed.

Lemma findall_step (fl : flags) (re : pattern) (s : str) :
  0 < min_width re ->
  findall fl re s
  = match search fl re s with
    | None => []
    | Some (_, m) => group1 m :: findall fl re (m_end m)
    end.
Proof.
  intros Hw. unfold findall at 1. destruct s as [|c s].
  - cbn [findall_fuel length]. destruct (search fl re []) as [[pre m]|] eqn:E; trivial.
    apply search_end_length in E. simpl in E. lia.
  - change (length (c :: s)) with (S (length s)). cbn [findall_fuel].
    destruct (search fl re (c :: s)) as [[pre m]|] eqn:E; trivial.
    apply search_end_length in E. simpl in E.
    rewrite findall_fuel_enough; trivial. lia.
Qed.

(** ** The range of true division *)

Lemma digits2_pos_size (p : positive) : digits2_pos p = Pos.size p.
Proof. induction p; simpl; congruence. Qed.

Lemma Zdigits2_log2 (x : Z) : (0 < x)%Z -> Zdigits2 x = (Z.log2 x + 1)%Z.
Proof.
  destruct x as [|p|p]; try lia. intros _. simpl Zdigits2.
  rewrite digits2_pos_size. destruct p; simpl; lia.
Qed.

Lemma Zdigits2_nonneg (x : Z) : (0 <= Zdigits2 x)%Z.
Proof. destruct x; simpl; lia. Qed.

Lemma Zdigits2_upper (x : Z) : (0 <= x)%Z -> (x < 2 ^ Zdigits2 x)%Z.
Proof.
  intros H. destruct (Z.eq_dec x 0) as [->|Hx]; [simpl; lia|].
  rewrite Zdigits2_log2 by lia. apply Z.log2_spec. lia.
Qed.

Lemma Zdigits2_bound (x k : Z) :
  (0 <= x < 2 ^ k)%Z -> (0 <= k)%Z -> (Zdigits2 x <= k)%Z.
Proof.
  intros [H0 Hk] Hk0. destruct (Z.eq_dec x 0) as [->|Hx]; [simpl; lia|].
  rewrite Zdigits2_log2 by lia.
  assert (Z.log2 x < k)%Z by (apply Z.log2_lt_pow2; lia). lia.
Qed.

Lemma Zdigits2_succ (x : Z) :
  (0 <= x)%Z -> (Zdigits2 (x + 1) <= Zdigits2 x + 1)%Z.
Proof.
  intros H. assert (Hd := Zdigits2_nonneg x). assert (Hu := Zdigits2_upper x H).
  apply Zdigits2_bound; [|lia]. rewrite Z.pow_add_r by lia.
  change (2 ^ 1)%Z with 2%Z. lia.
Qed.

Lemma Zdigits2_shift (x k : Z) :
  (0 <= x)%Z -> (0 <= k)%Z ->
  (Zdigits2 (x / 2 ^ k) <= Z.max (Zdigits2 x - k) 0)%Z.
Proof.
  intros Hx Hk. assert (Hd := Zdigits2_nonneg x). assert (Hu := Zdigits2_upper x Hx).
  assert (Hp : (0 < 2 ^ k)%Z) by (apply Z.pow_pos_nonneg; lia).
  assert (Hq : (0 <= x / 2 ^ k)%Z) by (apply Z.div_pos; lia).
  destruct (Z.le_gt_cases k (Zdigits2 x)) as [Hle|Hgt].
  - apply Zdigits2_bound; [|lia]. split; trivial.
    rewrite Z.max_l by lia. apply Z.div_lt_upper_bound; trivial.
    rewrite <- Z.pow_add_r by lia. replace (k + (Zdigits2 x - k))%Z with (Zdigits2 x) by lia.
    exact Hu.
  - rewrite Z.div_small; [simpl; lia|]. split; trivial.
    apply Z.lt_le_trans with (2 ^ Zdigits2 x)%Z; trivial.
    apply Z.pow_le_mono_r; lia.
Qed.

Lemma shr_1_m (r : shr_record) :
  (0 <= shr_m r)%Z -> shr_m (shr_1 r) = (shr_m r / 2)%Z.
Proof.
  destruct r as [m rb sb]. simpl shr_m at 1 3. intros H.
  destruct m as [|[p|p|]|p]; try lia; simpl shr_1; simpl shr_m; trivial.
  - apply Z.div_unique with 1%Z; lia.
  - apply Z.div_unique with 0%Z; lia.
Qed.

Lemma iter_shr_m (p : positive) :
  forall r, (0 <= shr_m r)%Z ->
            shr_m (iter_pos shr_1 p r) = (shr_m r / 2 ^ Zpos p)%Z.
Proof.
  assert (Hpow : forall q : positive, (0 < 2 ^ Zpos q)%Z)
    by (intros q; apply Z.pow_pos_nonneg; lia).
  induction p as [p IH|p IH|]; intros r Hr; simpl iter_pos.
  - assert (H1 : (0 <= shr_m (shr_1 r))%Z)
      by (rewrite shr_1_m by trivial; apply Z.div_pos; lia).
    assert (H2 : (0 <= shr_m (iter_pos shr_1 p (shr_1 r)))%Z)
      by (rewrite IH by trivial; apply Z.div_pos; [trivial|apply Hpow]).
    rewrite (IH _ H2), (IH _ H1), shr_1_m by trivial.
    rewrite !Z.div_div by (try lia; try apply Hpow; specialize (Hpow p); lia).
    f_equal. rewrite Pos2Z.inj_xI, Z.pow_add_r, Z.pow_mul_r by lia.
    change (2 ^ 2)%Z with 4%Z. rewrite Z.pow_1_r.
    replace (4 ^ Zpos p)%Z with (2 ^ Zpos p * 2 ^ Zpos p)%Z; [ring|].
    rewrite <- Z.pow_add_r by lia. replace (Zpos p + Zpos p)%Z with (2 * Zpos p)%Z by lia.
    rewrite Z.pow_mul_r by lia. reflexivity.
  - assert (H2 : (0 <= shr_m (iter_pos shr_1 p r))%Z)
      by (rewrite IH by trivial; apply Z.div_pos; [trivial|apply Hpow]).
    rewrite (IH _ H2), (IH _ Hr).
    rewrite Z.div_div by (try apply Hpow; specialize (Hpow p); lia).
    f_equal. rewrite <- Z.pow_add_r by lia. f_equal. lia.
  - rewrite shr_1_m by trivial. reflexivity.
Qed.

(** [shr_fexp] divides the mantissa by a power of two and moves the exponent
    up to the exponent of the format. *)
Lemma shr_fexp_spec (m e : Z) (l : location) :
  (0 <= m)%Z ->
  let k := Z.max 0 (fexp F64.prec F64.emax (Zdigits2 m + e) - e) in
  exists mrs,
    shr_fexp F64.prec F64.emax m e l = (mrs, (e + k)%Z)
    /\ shr_m mrs = (m / 2 ^ k)%Z.
Proof.
  intros Hm k. unfold shr_fexp, shr. fold (Zdigits2 m). subst k.
  assert (Hrec : shr_m (shr_record_of_loc m l) = m)
    by (destruct l as [|[| |]]; reflexivity).
  destruct (fexp F64.prec F64.emax (Zdigits2 m + e) - e)%Z as [|p|p] eqn:E.
  - eexists. split; [f_equal; lia|]. rewrite Hrec. simpl. rewrite Z.div_1_r. reflexivity.
  - eexists. split; [f_equal; lia|].
    rewrite iter_shr_m by (rewrite Hrec; trivial). rewrite Hrec.
    rewrite Z.max_r by lia. reflexivity.
  - eexists. split; [f_equal; lia|]. rewrite Hrec.
    rewrite Z.max_l by lia. simpl. rewrite Z.div_1_r. reflexivity.
Qed.

Lemma round_nearest_even_range (m : Z) (l : location) :
  (m <= round_nearest_even m l <= m + 1)%Z.
Proof.
  unfold round_nearest_even. destruct l as [|[| |]]; try lia.
  destruct (Z.even m); lia.
Qed.

(** Rounding a mantissa below [2 ** 1022] in magnitude gives no infinity. *)
Lemma binary_round_aux_finite (s : bool) (q e : Z) (l : location) :
  (0 <= q)%Z -> (e <= 0)%Z -> (Zdigits2 q + e <= 1022)%Z ->
  forall s', binary_round_aux F64.prec F64.emax s q e l <> S754_infinity s'.
Proof.
  intros Hq He Hmag s'. unfold binary_round_aux.
  destruct (shr_fexp_spec q e l Hq) as (mrs1 & -> & Hm1).
  set (k0 := Z.max 0 (fexp F64.prec F64.emax (Zdigits2 q + e) - e)) in *.
  set (m2 := round_nearest_even (shr_m mrs1) (loc_of_shr_record mrs1)).
  assert (Hk0 : (0 <= k0)%Z) by (subst k0; lia).
  assert (Hm1pos : (0 <= shr_m mrs1)%Z).
  { rewrite Hm1. apply Z.div_pos; trivial. apply Z.pow_pos_nonneg; lia. }
  assert (Hm2 : (shr_m mrs1 <= m2 <= shr_m mrs1 + 1)%Z)
    by apply round_nearest_even_range.
  destruct (shr_fexp_spec m2 (e + k0) loc_Exact ltac:(lia)) as (mrs2 & -> & Hm3).
  destruct (shr_m mrs2) as [|p|p]; try discriminate.
  set (k1 := Z.max 0 (fexp F64.prec F64.emax (Zdigits2 m2 + (e + k0)) - (e + k0))).
  assert (Hd1 : (Zdigits2 (shr_m mrs1) <= Z.max (Zdigits2 q - k0) 0)%Z)
    by (rewrite Hm1; apply Zdigits2_shift; trivial).
  assert (Hd2 : (Zdigits2 m2 <= Zdigits2 (shr_m mrs1) + 1)%Z).
  { destruct (Z.eq_dec m2 (shr_m mrs1)) as [->|Hne]; [lia|].
    replace m2 with (shr_m mrs1 + 1)%Z by lia. apply Zdigits2_succ; trivial. }
  assert (F : forall x, fexp F64.prec F64.emax x = Z.max (x - 53) (-1074))
    by (intros x; unfold fexp, emin, F64.prec, F64.emax; lia).
  assert (F1 := F (Zdigits2 q + e)%Z).
  assert (F2 := F (Zdigits2 m2 + (e + k0))%Z).
  assert (Hle : (e + k0 + k1 <=? F64.emax - F64.prec)%Z = true).
  { apply Z.leb_le. change (F64.emax - F64.prec)%Z with 971%Z.
    subst k0 k1. lia. }
  rewrite Hle. discriminate.
Qed.

(** The quotient that [SFdiv_core_binary] hands to the rounding. *)
Lemma div_core_magnitude (n d : Z) :
  (0 < n)%Z -> (0 < d)%Z -> (n < 2 ^ 1022 * d)%Z ->
  let '(q, e, _) := SFdiv_core_binary F64.prec F64.emax n 0 d 0 in
  (0 <= q)%Z /\ (e <= 0)%Z /\ (Zdigits2 q + e <= 1022)%Z.
Proof.
  intros Hn Hd Hlt. unfold SFdiv_core_binary.
  fold (Zdigits2 n). fold (Zdigits2 d).
  set (e := Z.min (fexp F64.prec F64.emax (Zdigits2 n + 0 - (Zdigits2 d + 0))) (0 - 0)).
  assert (He : (e <= 0)%Z) by (subst e; lia).
  set (m' := match (0 - 0 - e)%Z with
             | Zpos _ => Z.shiftl n (0 - 0 - e)
             | Z0 => n
             | Zneg _ => 0%Z
             end).
  assert (Hm' : m' = (n * 2 ^ (- e))%Z).
  { subst m'. destruct (0 - 0 - e)%Z as [|p|p] eqn:E; try lia.
    - replace (- e)%Z with 0%Z by lia. simpl. lia.
    - rewrite Z.shiftl_mul_pow2 by lia. f_equal. f_equal. lia. }
  destruct (Z.div_eucl m' d) as [q r] eqn:Ediv.
  assert (Hq : q = (m' / d)%Z) by (unfold Z.div; rewrite Ediv; reflexivity).
  assert (Hp : (0 < 2 ^ (- e))%Z) by (apply Z.pow_pos_nonneg; lia).
  assert (Hq0 : (0 <= q)%Z) by (rewrite Hq; apply Z.div_pos; nia).
  split; trivial. split; trivial.
  assert (Hqlt : (q < 2 ^ (1022 - e))%Z).
  { rewrite Hq. apply Z.div_lt_upper_bound; trivial.
    replace (1022 - e)%Z with (1022 + - e)%Z by lia.
    rewrite Z.pow_add_r by lia. rewrite Hm'. nia. }
  assert (Zdigits2 q <= 1022 - e)%Z by (apply Zdigits2_bound; lia).
  lia.
Qed.

Lemma round_quotient_finite (s : bool) (n d : Z) :
  (0 < n)%Z -> (0 < d)%Z -> (n < 2 ^ 1022 * d)%Z ->
  forall s', F64.round_quotient s n d <> S754_infinity s'.
Proof.
  intros Hn Hd Hlt s'. unfold F64.round_quotient.
  assert (H := div_core_magnitude n d Hn Hd Hlt).
  destruct (SFdiv_core_binary F64.prec F64.emax n 0 d 0) as [[q e] l].
  destruct H as (Hq & He & Hmag). apply binary_round_aux_finite; trivial.
Qed.

(** True division returns a float when the quotient is below [2 ** 1022] in
    magnitude. *)
Lemma true_div_in_range (a b : Z) :
  b <> 0%Z -> (Z.abs a < 2 ^ 1022 * Z.abs b)%Z ->
  exists q, F64.true_div a b = Ok q.
Proof.
  intros Hb Hlt. unfold F64.true_div.
  destruct b as [|pb|pb]; [congruence| |];
    destruct a as [|pa|pa]; try (eexists; reflexivity);
    match goal with
    | |- context [F64.round_quotient ?s ?n ?d] =>
        assert (Hfin := round_quotient_finite s n d ltac:(simpl; lia)
                          ltac:(simpl; lia) Hlt);
        destruct (F64.round_quotient s n d); eauto;
        exfalso; eapply Hfin; reflexivity
    end.
Qed.

(** ** The health scorer *)

Lemma of_int_100 : F64.of_int 100 = Ok F64.hundred.
Proof. vm_compute. reflexivity. Qed.

Lemma mul_int_100 (q : F64.float) :
  F64.mul_int q 100 = Ok (SFmul F64.prec F64.emax q F64.hundred).
Proof. unfold F64.mul_int. rewrite of_int_100. reflexivity. Qed.

Lemma int_sub_100 (h : F64.float) :
  F64.int_sub 100 h = Ok (SFsub F64.prec F64.emax F64.hundred h).
Proof. unfold F64.int_sub. rewrite of_int_100. reflexivity. Qed.

(** True division by a non-zero int returns a float or overflows. *)
Lemma true_div_cases (a b : Z) :
  b <> 0%Z ->
  (exists q, F64.true_div a b = Ok q) \/ F64.true_div a b = Raise OverflowError.
Proof.
  intros Hb. unfold F64.true_div.
  destruct b as [|pb|pb]; [congruence| |];
    destruct a as [|pa|pa]; try (left; eexists; reflexivity);
    match goal with
    | |- context [F64.round_quotient ?s ?n ?d] =>
        destruct (F64.round_quotient s n d); eauto
    end.
Qed.

Lemma degradation_pct_of_some (h : F64.float) :
  degradation_pct_of (Some h)
  = Ok (Some (F64.round (SFsub F64.prec F64.emax F64.hundred h) 2)).
Proof. unfold degradation_pct_of. rewrite int_sub_100. reflexivity. Qed.

Lemma health_pct_of_absent (d f : option Z) :
  absent_or_zero d \/ absent_or_zero f -> health_pct_of d f = Ok None.
Proof.
  unfold absent_or_zero, health_pct_of.
  destruct d as [d|]; [|reflexivity]. destruct f as [f|]; [|reflexivity].
  intros [[H|H]|[H|H]]; inversion H; subst; simpl; trivial.
  rewrite orb_true_r. reflexivity.
Qed.

Lemma health_pct_of_div (d f : Z) :
  d <> 0%Z -> f <> 0%Z ->
  health_pct_of (Some d) (Some f)
  = (q <- F64.true_div f d ;;
     Ok (Some (F64.round (SFmul F64.prec F64.emax q F64.hundred) 2))).
Proof.
  intros Hd Hf. unfold health_pct_of.
  apply Z.eqb_neq in Hd, Hf. rewrite Hd, Hf. cbn [orb].
  destruct (F64.true_div f d); cbn [bind]; [rewrite mul_int_100|]; reflexivity.
Qed.

(** The scorer raises only when the health quotient overflows; otherwise
    its assessment is assembled from the four branches. *)
Lemma compute_health_cases (b : BatteryInfo.t) :
  let hp := health_pct_of (BatteryInfo.design_capacity_mwh b)
                          (BatteryInfo.full_charge_capacity_mwh b) in
  (exists h d,
      hp = Ok h /\ degradation_pct_of h = Ok d
      /\ compute_health b
         = Ok {| Health.health_percentage := h;
                 Health.degradation_percentage := d;
                 Health.cycle_penalty := cycle_penalty_of (BatteryInfo.cycle_count b);
                 Health.estimated_remaining_life := remaining_life_of h |})
  \/ (hp = Raise OverflowError /\ compute_health b = Raise OverflowError).
Proof.
  intros hp. unfold compute_health. fold hp.
  assert (Hhp : (exists h, hp = Ok h) \/ hp = Raise OverflowError).
  { subst hp. unfold health_pct_of.
    destruct (BatteryInfo.design_capacity_mwh b) as [d|]; [|left; eexists; reflexivity].
    destruct (BatteryInfo.full_charge_capacity_mwh b) as [f|]; [|left; eexists; reflexivity].
    destruct (d =? 0)%Z eqn:Hd; [left; eexists; reflexivity|].
    destruct (f =? 0)%Z eqn:Hf; [left; eexists; reflexivity|]. cbn [orb].
    apply Z.eqb_neq in Hd.
    destruct (true_div_cases f d Hd) as [[q ->]| ->]; cbn [bind].
    - rewrite mul_int_100. left. eexists. reflexivity.
    - right. reflexivity. }
  destruct Hhp as [[h ->]| ->]; cbn [bind].
  - left. destruct h as [h|].
    + exists (Some h). eexists. rewrite degradation_pct_of_some. cbn [bind]. auto.
    + exists None, None. auto.
  - right. auto.
Qed.

Lemma cycle_penalty_of_spec (c : option Z) :
  cycle_penalty_of c = cycle_penalty_spec c.
Proof.
  unfold cycle_penalty_of, cycle_penalty_spec. destruct c as [c|]; trivial.
  destruct (Z.leb_spec c 500), (Z.ltb_spec 500 c), (Z.eqb_spec c 0);
    simpl; trivial; lia.
Qed.

Lemma cycle_penalty_spec_bounds (c : option Z) :
  (0 <= cycle_penalty_spec c <= 15)%Z.
Proof.
  unfold cycle_penalty_spec. destruct c as [c|]; [|lia].
  destruct (Z.leb_spec c 500); [lia|].
  assert (0 <= (c - 500) / 50)%Z by (apply Z.div_pos; lia). lia.
Qed.

(** C3: the cycle penalty is 0 for an absent count or a count of at most
    500 and [min(15, floor((count - 500) / 50))] above, so it lies between
    0 and 15; every assessment carries that penalty, and the scorer yields
    an assessment unless the health quotient overflows.  Counts 500 and 549
    give 0, 600 gives 2 and 10000 gives 15. *)
Theorem cycle_penalty_correct :
  (forall cycle_count : option Z,
      cycle_penalty_of cycle_count = cycle_penalty_spec cycle_count
      /\ (0 <= cycle_penalty_of cycle_count <= 15)%Z)
  /\ (forall b : BatteryInfo.t,
        match compute_health b with
        | Ok a =>
            Health.cycle_penalty a = cycle_penalty_of (BatteryInfo.cycle_count b)
        | Raise e =>
            e = OverflowError
            /\ health_pct_of (BatteryInfo.design_capacity_mwh b)
                             (BatteryInfo.full_charge_capacity_mwh b)
               = Raise OverflowError
        end)
  /\ (forall c p,
        In (c, p) [(500, 0); (549, 0); (600, 2); (10000, 15)]%Z ->
        compute_health (battery_of None None (Some c))
        = Ok {| Health.health_percentage := None;
                Health.degradation_percentage := None;
                Health.cycle_penalty := p;
                Health.estimated_remaining_life := "unknown" |}).
Proof.
  split; [|split].
  - intros c. rewrite cycle_penalty_of_spec. split; [reflexivity|].
    apply cycle_penalty_spec_bounds.
  - intros b.
    destruct (compute_health_cases b) as [(h & d & _ & _ & ->)|[Hhp ->]]; auto.
  - intros c p H. simpl in H.
    repeat (destruct H as [H|H]; [inversion H; subst; reflexivity|]).
    contradiction.
Qed.

(** The comparison of a float with an int is the comparison of their
    values. *)
Lemma ge_int_reaches (x : F64.float) (n : Z) :
  F64.ge_int x n = true <-> F64.reaches x n.
Proof.
  destruct x as [s|s| |s m e]; simpl.
  - apply Z.leb_le.
  - destruct s; simpl; split; congruence.
  - split; [discriminate|contradiction].
  - set (v := cond_Zopp s (Zpos m)).
    destruct (Z.leb_spec 0 e) as [He|He].
    + rewrite Z.leb_le, Zle_Qle, inject_Z_mult, Zpower_Qpower by trivial.
      reflexivity.
    + assert (Hp : (0 < 2 ^ (- e))%Z) by (apply Z.pow_pos_nonneg; lia).
      assert (HpQ : (0 < inject_Z (2 ^ (- e)))%Q)
        by (rewrite Zlt_Qlt in Hp; exact Hp).
      assert (E : ((2 # 1) ^ e == / inject_Z (2 ^ (- e)))%Q).
      { replace e with (- - e)%Z at 1 by lia.
        rewrite Qpower_opp, Zpower_Qpower by lia. reflexivity. }
      rewrite Z.leb_le, Zle_Qle, inject_Z_mult, E. split; intros H.
      * apply Qle_shift_div_l; trivial.
      * apply (Qmult_le_compat_r _ _ (inject_Z (2 ^ (- e)))) in H;
          [|apply Qlt_le_weak; trivial].
        rewrite <- Qmult_assoc, (Qmult_comm (/ _)), Qmult_inv_r, Qmult_1_r in H;
          trivial.
        intros H0. rewrite H0 in HpQ. discriminate HpQ.
Qed.

Lemma remaining_life_band (h : F64.float) :
  band_of h (remaining_life_of (Some h)).
Proof.
  unfold band_of, remaining_life_of.
  assert (H85 := ge_int_reaches h 85). assert (H70 := ge_int_reaches h 70).
  assert (H60 := ge_int_reaches h 60).
  destruct (F64.ge_int h 85); [left; split; [apply H85|]; reflexivity|].
  right. destruct (F64.ge_int h 70).
  { left. split; [intros H; apply H85 in H; discriminate|].
    split; [apply H70|]; reflexivity. }
  right. destruct (F64.ge_int h 60).
  { left. split; [intros H; apply H70 in H; discriminate|].
    split; [apply H60|]; reflexivity. }
  right. split; [intros H; apply H60 in H; discriminate|reflexivity].
Qed.

Lemma remaining_life_known (h : F64.float) :
  remaining_life_of (Some h) <> "unknown"%string.
Proof.
  unfold remaining_life_of.
  destruct (F64.ge_int h 85); [discriminate|].
  destruct (F64.ge_int h 70); [discriminate|].
  destruct (F64.ge_int h 60); discriminate.
Qed.

(** C2: the remaining life is "unknown" exactly when the health percentage
    is absent, and otherwise the band of the first threshold among 85, 70
    and 60 that the health reaches, "0-6 months" when it reaches none; every
    assessment carries the band of its own health percentage, and the scorer
    yields an assessment unless the health quotient overflows.  Design 2000
    with full charge 1700 gives 85.0 and "18-24 months"; design 1000 with
    full charge 699 gives 69.9 and "6-12 months". *)
Theorem remaining_life_correct :
  (forall health_pct : option F64.float,
      match health_pct with
      | None => remaining_life_of health_pct = "unknown"%string
      | Some h =>
          band_of h (remaining_life_of health_pct)
          /\ remaining_life_of health_pct <> "unknown"%string
      end)
  /\ (forall b : BatteryInfo.t,
        match compute_health b with
        | Ok a =>
            Health.estimated_remaining_life a
            = remaining_life_of (Health.health_percentage a)
        | Raise e =>
            e = OverflowError
            /\ health_pct_of (BatteryInfo.design_capacity_mwh b)
                             (BatteryInfo.full_charge_capacity_mwh b)
               = Raise OverflowError
        end)
  /\ compute_health (battery_of (Some 2000%Z) (Some 1700%Z) None)
     = Ok {| Health.health_percentage := Some (F64.centi 8500);
             Health.degradation_percentage := Some (F64.centi 1500);
             Health.cycle_penalty := 0;
             Health.estimated_remaining_life := "18-24 months" |}
  /\ F64.of_int 85 = Ok (F64.centi 8500)
  /\ compute_health (battery_of (Some 1000%Z) (Some 699%Z) None)
     = Ok {| Health.health_percentage := Some (F64.centi 6990);
             Health.degradation_percentage := Some (F64.centi 3010);
             Health.cycle_penalty := 0;
             Health.estimated_remaining_life := "6-12 months" |}
  /\ ~ F64.reaches (F64.centi 6990) 70.
Proof.
  split; [|split; [|split; [|split; [|split]]]].
  - intros [h|]; [|reflexivity].
    split; [apply remaining_life_band|apply remaining_life_known].
  - intros b.
    destruct (compute_health_cases b) as [(h & d & _ & _ & ->)|[Hhp ->]]; auto.
  - vm_compute. reflexivity.
  - vm_compute. reflexivity.
  - vm_compute. reflexivity.
  - intros H. apply ge_int_reaches in H. vm_compute in H. discriminate H.
Qed.

(** C1, as amended: health and degradation are both absent when the design
    or the full-charge capacity is absent or zero; otherwise, when the
    quotient of the two fits a float, health is
    [round(full / design * 100, 2)] and degradation is
    [round(100 - health, 2)], and when the quotient does not fit, the
    scorer raises [OverflowError].  The quotient fits whenever the full
    charge is below [2 ** 1022] times the design capacity in magnitude.  In
    every assessment degradation is present exactly when health is. *)
Theorem health_percentage_correct (b : BatteryInfo.t) :
  let design := BatteryInfo.design_capacity_mwh b in
  let full := BatteryInfo.full_charge_capacity_mwh b in
  (absent_or_zero design \/ absent_or_zero full ->
   exists a, compute_health b = Ok a
             /\ Health.health_percentage a = None
             /\ Health.degradation_percentage a = None)
  /\ (forall d f, design = Some d -> full = Some f -> d <> 0%Z -> f <> 0%Z ->
      match F64.true_div f d with
      | Ok q =>
          let h := F64.round (SFmul F64.prec F64.emax q F64.hundred) 2 in
          exists a, compute_health b = Ok a
                    /\ Health.health_percentage a = Some h
                    /\ Health.degradation_percentage a
                       = Some (F64.round (SFsub F64.prec F64.emax F64.hundred h) 2)
      | Raise e => e = OverflowError /\ compute_health b = Raise OverflowError
      end)
  /\ (forall d f, design = Some d -> full = Some f -> d <> 0%Z ->
                  (Z.abs f < 2 ^ 1022 * Z.abs d)%Z ->
                  exists q, F64.true_div f d = Ok q)
  /\ (forall a, compute_health b = Ok a ->
      (Health.health_percentage a = None <-> Health.degradation_percentage a = None)).
Proof.
  intros design full. split; [|split; [|split]].
  - intros H. apply health_pct_of_absent in H.
    unfold compute_health. fold design full. rewrite H. cbn [bind degradation_pct_of].
    eexists. split; [reflexivity|]. split; reflexivity.
  - intros d f Hd Hf Hd0 Hf0.
    assert (Hhp := health_pct_of_div d f Hd0 Hf0).
    unfold compute_health. fold design full. rewrite Hd, Hf, Hhp.
    destruct (true_div_cases f d Hd0) as [[q Hq]|Hq]; rewrite Hq; cbn [bind].
    + rewrite degradation_pct_of_some. cbn [bind].
      eexists. split; [reflexivity|]. split; reflexivity.
    + split; reflexivity.
  - intros d f _ _ Hd0 Hlt. apply true_div_in_range; trivial.
  - intros a Ha.
    destruct (compute_health_cases b) as [(h & d & _ & Hd & Hb)|[_ Hb]];
      rewrite Hb in Ha; [|discriminate].
    inversion Ha; subst a; clear Ha. simpl.
    destruct h as [h|].
    + rewrite degradation_pct_of_some in Hd. inversion Hd; subst.
      split; discriminate.
    + simpl in Hd. inversion Hd; subst. split; reflexivity.
Qed.

(** ** Numeric coercion *)

Lemma exec_one (fl : flags) (k : cclass) (s : str) :
  exec fl [One k] s
  = match s with
    | t :: s' =>
        if in_class fl k t
        then Some {| m_open := []; m_close := []; m_end := s' |}
        else None
    | [] => None
    end.
Proof. destruct s; reflexivity. Qed.

(** Substituting a pattern of one class replaces each character of the
    class. *)
Lemma sub_one (fl : flags) (k : cclass) (repl : str) :
  forall s,
    sub fl [One k] repl s
    = flat_map (fun c => if in_class fl k c then repl else [c]) s.
Proof.
  assert (Hw : 0 < min_width [One k]) by (simpl; lia).
  assert (Hskip : forall pre s',
             (forall p1 p2, pre = p1 ++ p2 -> p2 <> [] ->
                            exec fl [One k] (p2 ++ s') = None) ->
             flat_map (fun c => if in_class fl k c then repl else [c]) pre = pre).
  { induction pre as [|c pre IH]; intros s' H; trivial.
    simpl. assert (Hc := H [] (c :: pre) eq_refl ltac:(discriminate)).
    rewrite exec_one in Hc. simpl in Hc.
    destruct (in_class fl k c); [discriminate|]. simpl. f_equal.
    apply (IH s'). intros p1 p2 -> Hne. apply (H (c :: p1) p2); trivial. }
  intros s. remember (length s) as n eqn:Hn.
  revert s Hn. induction n as [n IH] using lt_wf_ind. intros s Hn.
  rewrite sub_step by exact Hw.
  destruct (search fl [One k] s) as [[pre m]|] eqn:E.
  - assert (Hlen := search_end_length _ _ _ _ _ E).
    apply search_some in E. destruct E as (s' & -> & Hm & Hfirst).
    rewrite exec_one in Hm. destruct s' as [|t s']; [discriminate|].
    destruct (in_class fl k t) eqn:Ht; [|discriminate].
    inversion Hm; subst m; clear Hm. simpl m_end in *.
    rewrite flat_map_app. simpl. rewrite Ht.
    rewrite (Hskip _ _ Hfirst). do 2 f_equal.
    apply (IH (length s')); trivial. simpl in Hlen. lia.
  - symmetry. apply (Hskip s []).
    intros p1 p2 -> Hne. rewrite app_nil_r.
    apply (search_none _ _ _ E p1 p2). reflexivity.
Qed.

Lemma non_digit_class (c : ascii) :
  in_class no_flags (NotRange "0" "9") c = negb (is_digit c).
Proof. unfold in_class. simpl ignorecase. rewrite orb_false_r. reflexivity. Qed.

(** The digits of the specification are the characters [is_digit]
    accepts, and their values are those [int] reads. *)
Lemma decimal_digit_is_digit (c : ascii) : decimal_digit c = is_digit c.
Proof. destruct c as [[|] [|] [|] [|] [|] [|] [|] [|]]; vm_compute; reflexivity. Qed.

Lemma digit_of_value (c : ascii) :
  is_digit c = true -> digit_value c = digit_of c.
Proof.
  destruct c as [[|] [|] [|] [|] [|] [|] [|] [|]]; vm_compute;
    intros H; try reflexivity; discriminate H.
Qed.

Lemma digit_of_range (c : ascii) : (0 <= digit_of c <= 9)%Z.
Proof.
  destruct c as [[|] [|] [|] [|] [|] [|] [|] [|]]; vm_compute;
    split; discriminate.
Qed.

Lemma filter_decimal_digit (s : str) :
  filter decimal_digit s = filter is_digit s.
Proof. apply filter_ext. intros c. apply decimal_digit_is_digit. Qed.

Lemma forallb_decimal_digit (s : str) :
  forallb decimal_digit s = forallb is_digit s.
Proof.
  induction s as [|c s IH]; trivial. cbn [forallb].
  rewrite decimal_digit_is_digit, IH. reflexivity.
Qed.

Lemma sub_non_digits (s : str) :
  sub no_flags [One (NotRange "0" "9")] [] s = filter decimal_digit s.
Proof.
  rewrite filter_decimal_digit, sub_one. induction s as [|c s IH]; trivial.
  cbn [flat_map filter]. rewrite non_digit_class, IH.
  destruct (is_digit c); reflexivity.
Qed.

Lemma forallb_filter_digit (s : str) :
  forallb is_digit (filter decimal_digit s) = true.
Proof.
  rewrite filter_decimal_digit.
  induction s as [|c s IH]; trivial. simpl.
  destruct (is_digit c) eqn:E; trivial. simpl. rewrite E. exact IH.
Qed.

(** Reading the digits from the left gives their positional value. *)
Lemma int_digits_acc (s : str) :
  forallb is_digit s = true ->
  forall acc,
    fold_left (fun a c => (10 * a + digit_value c)%Z) s acc
    = (acc * 10 ^ Z.of_nat (length s) + decimal_value s)%Z.
Proof.
  induction s as [|c s IH]; intros H acc.
  - simpl. lia.
  - cbn [forallb] in H. apply andb_true_iff in H. destruct H as [Hc Hs].
    cbn [fold_left decimal_value length]. rewrite (IH Hs).
    rewrite (digit_of_value c Hc).
    rewrite Nat2Z.inj_succ, Z.pow_succ_r by lia. ring.
Qed.

Lemma int_digits_value (s : str) :
  forallb is_digit s = true -> int_digits s = decimal_value s.
Proof. intros H. unfold int_digits. rewrite (int_digits_acc s H). lia. Qed.

Lemma decimal_value_nonneg (s : str) : (0 <= decimal_value s)%Z.
Proof.
  induction s as [|c s IH]; simpl; [lia|].
  assert (Hc := digit_of_range c).
  assert (0 <= 10 ^ Z.of_nat (length s))%Z by (apply Z.pow_nonneg; lia).
  nia.
Qed.

Lemma int_of_digits (s : str) :
  s <> [] -> forallb is_digit s = true ->
  int s = if (4300 <? Z.of_nat (length s))%Z then Raise ValueError
          else Ok (decimal_value s).
Proof.
  intros Hne Hd. unfold int. rewrite Hd, (int_digits_value s Hd).
  destruct s; [congruence|]. reflexivity.
Qed.

(** Coercion raises on more than 4300 digits and otherwise returns what the
    specification says. *)
Lemma parse_int_cases (value : option str) :
  _parse_int value
  = if too_many_digits value then Raise ValueError else Ok (coerce_spec value).
Proof.
  destruct value as [[|c s]|]; trivial.
  unfold _parse_int, coerce_spec, too_many_digits. cbn [is_empty].
  rewrite sub_non_digits.
  destruct (filter decimal_digit (c :: s)) as [|d ds] eqn:E; trivial.
  cbn [is_empty negb]. rewrite int_of_digits; [|discriminate|].
  - destruct (4300 <? Z.of_nat (length (d :: ds)))%Z; reflexivity.
  - rewrite <- E. apply forallb_filter_digit.
Qed.

Lemma parse_int_coerce (value : option str) :
  too_many_digits value = false -> _parse_int value = Ok (coerce_spec value).
Proof. intros H. rewrite parse_int_cases, H. reflexivity. Qed.

Lemma parse_int_ok (value : option str) (r : option Z) :
  _parse_int value = Ok r ->
  r = coerce_spec value /\ too_many_digits value = false.
Proof.
  rewrite parse_int_cases. destruct (too_many_digits value); [discriminate|].
  intros [= <-]. auto.
Qed.

Lemma parse_int_raise (value : option str) (e : exn) :
  _parse_int value = Raise e ->
  e = ValueError /\ too_many_digits value = true.
Proof.
  rewrite parse_int_cases. destruct (too_many_digits value); [|discriminate].
  intros [= <-]. auto.
Qed.

Lemma coerce_spec_nonneg (value : option str) (n : Z) :
  coerce_spec value = Some n -> (0 <= n)%Z.
Proof.
  destruct value as [[|c s]|]; try discriminate. unfold coerce_spec.
  destruct (filter decimal_digit (c :: s)) as [|d ds]; [discriminate|].
  intros H. injection H as <-. exact (decimal_value_nonneg (d :: ds)).
Qed.

(** C4, as amended: numeric coercion returns absent for an absent or empty
    input; otherwise it deletes the non-digits and, when at most 4300
    digits remain, returns the non-negative integer they denote, or absent
    when none remains; when more than 4300 digits remain it raises
    [ValueError]. *)
Theorem parse_int_total :
  (forall value,
      (too_many_digits value = false -> _parse_int value = Ok (coerce_spec value))
      /\ (too_many_digits value = true -> _parse_int value = Raise ValueError)
      /\ match coerce_spec value with
         | Some n => (0 <= n)%Z
         | None => True
         end)
  /\ _parse_int None = Ok None
  /\ _parse_int (Some []) = Ok None
  /\ _parse_int (Some (lit "n/a")) = Ok None
  /\ _parse_int (Some (lit "0")) = Ok (Some 0%Z)
  /\ _parse_int (Some (lit "007")) = Ok (Some 7%Z)
  /\ _parse_int (Some (lit "1,000 mWh")) = Ok (Some 1000%Z)
  /\ _parse_int (Some (lit "-12.5")) = Ok (Some 125%Z).
Proof.
  split; [|repeat split; reflexivity].
  intros value. split; [apply parse_int_coerce|]. split.
  - intros H. rewrite parse_int_cases, H. reflexivity.
  - destruct (coerce_spec value) as [n|] eqn:E; trivial.
    eapply coerce_spec_nonneg; eauto.
Qed.

(** *** The decimal rendering of an int reads back as the int *)

Lemma uint_chars_digits (d : Decimal.uint) :
  forallb is_digit (list_ascii_of_string (NilEmpty.string_of_uint d)) = true.
Proof. induction d; simpl; trivial. Qed.

Lemma uint_chars_acc (d : Decimal.uint) :
  forall acc : positive,
    fold_left (fun a c => (10 * a + digit_value c)%Z)
              (list_ascii_of_string (NilEmpty.string_of_uint d)) (Zpos acc)
    = Zpos (Pos.of_uint_acc d acc).
Proof.
  induction d; intros acc; cbn [NilEmpty.string_of_uint list_ascii_of_string
                                 fold_left Pos.of_uint_acc]; trivial;
    rewrite <- IHd; f_equal; vm_compute digit_value; lia.
Qed.

Lemma uint_chars_value (d : Decimal.uint) :
  int_digits (list_ascii_of_string (NilEmpty.string_of_uint d))
  = Z.of_N (Pos.of_uint d).
Proof.
  unfold int_digits.
  induction d; cbn [NilEmpty.string_of_uint list_ascii_of_string fold_left
                    Pos.of_uint]; trivial;
    try exact IHd;
    cbn [Z.of_N]; rewrite <- uint_chars_acc; f_equal.
Qed.

Lemma rendering_pos (p : positive) :
  decimal_rendering (Zpos p)
  = list_ascii_of_string (NilEmpty.string_of_uint (Pos.to_uint p))
  /\ decimal_rendering (Zpos p) <> [].
Proof.
  unfold decimal_rendering. cbn [Z.to_int NilZero.string_of_int].
  assert (H : Pos.of_uint (Pos.to_uint p) = Npos p) by apply Unsigned.of_to.
  unfold NilZero.string_of_uint.
  destruct (Pos.to_uint p) eqn:E; try (split; [reflexivity|discriminate]).
  simpl in H. discriminate.
Qed.

Lemma rendering_digits (n : Z) :
  (0 <= n)%Z ->
  decimal_rendering n <> [] /\ forallb is_digit (decimal_rendering n) = true
  /\ decimal_value (decimal_rendering n) = n.
Proof.
  intros Hn. destruct n as [|p|p]; [| |lia].
  - repeat split; trivial. discriminate.
  - destruct (rendering_pos p) as [E Hne]. split; trivial. rewrite E.
    split; [apply uint_chars_digits|].
    rewrite <- int_digits_value by apply uint_chars_digits.
    rewrite uint_chars_value, Unsigned.of_to. reflexivity.
Qed.

(** A string of digits spells a numeral of the library, of as many
    digits. *)
Lemma digit_uint_chars (c : ascii) (d : Decimal.uint) :
  is_digit c = true ->
  list_ascii_of_string (NilEmpty.string_of_uint (digit_uint c d))
  = c :: list_ascii_of_string (NilEmpty.string_of_uint d).
Proof.
  destruct c as [[|] [|] [|] [|] [|] [|] [|] [|]];
    intros H; try reflexivity; vm_compute in H; discriminate H.
Qed.

Lemma uint_of_digits_chars (s : str) :
  forallb is_digit s = true ->
  list_ascii_of_string (NilEmpty.string_of_uint (uint_of_digits s)) = s.
Proof.
  induction s as [|c s IH]; intros H; trivial.
  cbn [forallb] in H. apply andb_true_iff in H. destruct H as [Hc Hs].
  cbn [uint_of_digits fold_right]. rewrite (digit_uint_chars c _ Hc).
  f_equal. apply IH, Hs.
Qed.

Lemma uint_chars_length (d : Decimal.uint) :
  length (list_ascii_of_string (NilEmpty.string_of_uint d)) = Decimal.nb_digits d.
Proof. induction d; simpl; congruence. Qed.

(** The rendering of the value of a string of digits is that string without
    its leading zeros: it is not longer. *)
Lemma rendering_length (s : str) :
  s <> [] -> forallb is_digit s = true ->
  length (decimal_rendering (decimal_value s)) <= length s.
Proof.
  intros Hne Hd. set (d := uint_of_digits s).
  assert (Hs : list_ascii_of_string (NilEmpty.string_of_uint d) = s)
    by apply uint_of_digits_chars, Hd.
  assert (Hnil : d <> Decimal.Nil).
  { intros E. rewrite E in Hs. simpl in Hs. congruence. }
  rewrite <- (int_digits_value s Hd). rewrite <- Hs at 1.
  rewrite uint_chars_value.
  assert (Er : decimal_rendering (Z.of_N (Pos.of_uint d))
               = list_ascii_of_string
                   (NilEmpty.string_of_uint (Decimal.unorm d))).
  { rewrite <- (Unsigned.to_of d).
    destruct (Pos.of_uint d) as [|p] eqn:Ep; [reflexivity|].
    cbn [Z.of_N N.to_uint]. apply rendering_pos. }
  rewrite Er, uint_chars_length, <- Hs, uint_chars_length.
  apply DecimalFacts.nb_digits_unorm. exact Hnil.
Qed.

Lemma filter_all_digits (s : str) :
  forallb is_digit s = true -> filter decimal_digit s = s.
Proof.
  rewrite filter_decimal_digit.
  induction s as [|c s IH]; trivial. simpl. intros H.
  apply andb_true_iff in H. destruct H as [-> H]. f_equal. auto.
Qed.

Lemma coerce_spec_digits (s : str) :
  s <> [] -> forallb is_digit s = true ->
  coerce_spec (Some s) = Some (decimal_value s).
Proof.
  intros Hne Hd. unfold coerce_spec. rewrite (filter_all_digits s Hd).
  destruct s; [congruence|reflexivity].
Qed.

Lemma coerce_spec_some (s : str) (n : Z) :
  coerce_spec (Some s) = Some n ->
  filter decimal_digit s <> [] /\ n = decimal_value (filter decimal_digit s).
Proof.
  destruct s as [|c s]; [discriminate|]. unfold coerce_spec.
  destruct (filter decimal_digit (c :: s)) as [|d ds]; [discriminate|].
  intros [= <-]. split; [discriminate|reflexivity].
Qed.

(** C9, as amended: coercion of a non-empty string of at most 4300 digits
    returns the integer it denotes, and raises [ValueError] on a longer
    one; a value that coercion yields is again the coercion of its own
    decimal rendering; the empty string and the absent input give absent.
    "1000" and "1,000 mWh" both give 1000. *)
Theorem parse_int_idempotent :
  (forall s, s <> [] -> forallb decimal_digit s = true ->
             (Z.of_nat (length s) <= 4300)%Z ->
             _parse_int (Some s) = Ok (Some (decimal_value s)))
  /\ (forall s, forallb decimal_digit s = true ->
                (4300 < Z.of_nat (length s))%Z ->
                _parse_int (Some s) = Raise ValueError)
  /\ (forall value n, _parse_int value = Ok (Some n) ->
                      _parse_int (Some (decimal_rendering n)) = Ok (Some n))
  /\ _parse_int (Some []) = Ok None
  /\ _parse_int None = Ok None
  /\ _parse_int (Some (lit "1000")) = Ok (Some 1000%Z)
  /\ _parse_int (Some (lit "1,000 mWh")) = Ok (Some 1000%Z)
  /\ decimal_rendering 1000 = lit "1000".
Proof.
  split; [|split; [|split; [|repeat split; reflexivity]]].
  - intros s Hne Hd Hlen. rewrite forallb_decimal_digit in Hd.
    rewrite parse_int_coerce, coerce_spec_digits; trivial.
    unfold too_many_digits. rewrite (filter_all_digits s Hd).
    apply Z.ltb_ge. exact Hlen.
  - intros s Hd Hlen. rewrite forallb_decimal_digit in Hd.
    rewrite parse_int_cases. unfold too_many_digits.
    rewrite (filter_all_digits s Hd).
    apply Z.ltb_lt in Hlen. rewrite Hlen. reflexivity.
  - intros value n H. apply parse_int_ok in H. destruct H as [H Hfew].
    symmetry in H. destruct value as [s|]; [|discriminate].
    apply coerce_spec_some in H. destruct H as [Hne ->].
    set (ds := filter decimal_digit s) in *.
    assert (Hds : forallb is_digit ds = true) by apply forallb_filter_digit.
    destruct (rendering_digits (decimal_value ds) (decimal_value_nonneg ds))
      as (Hrne & Hrd & Hrv).
    assert (Hlen := rendering_length ds Hne Hds).
    rewrite parse_int_coerce, coerce_spec_digits; trivial.
    + rewrite Hrv. reflexivity.
    + unfold too_many_digits in *. rewrite (filter_all_digits _ Hrd).
      fold ds in Hfew. apply Z.ltb_ge in Hfew. apply Z.ltb_ge. lia.
Qed.

(** ** Literals, greedy and lazy repetitions *)

Lemma exec_lits (fl : flags) (w : str) (re : pattern) :
  forall s, exec fl (map Lit w ++ re) s
            = match strip_lits fl w s with
              | Some s' => exec fl re s'
              | None => None
              end.
Proof.
  induction w as [|c w IH]; intros s; trivial.
  destruct s as [|t s]; trivial. cbn [map app strip_lits].
  change (exec fl (Lit c :: map Lit w ++ re) (t :: s))
    with (if chr_eq fl c t then exec fl (map Lit w ++ re) s else None).
  destruct (chr_eq fl c t); trivial.
Qed.

(** A greedy repetition followed by a literal outside its class stops at
    the first character outside the class. *)
Lemma exec_star_skip (fl : flags) (k : cclass) (c : ascii) (re : pattern) :
  (forall t, in_class fl k t = true -> chr_eq fl c t = false) ->
  forall s, exec fl (Star true k :: Lit c :: re) s
            = exec fl (Lit c :: re) (drop_while (in_class fl k) s).
Proof.
  intros Hout. induction s as [|t s IH]; rewrite exec_star_greedy; trivial.
  cbn [drop_while]. destruct (in_class fl k t) eqn:Ht; trivial.
  rewrite IH.
  destruct (exec fl (Lit c :: re) (drop_while (in_class fl k) s)); trivial.
  change (exec fl (Lit c :: re) (t :: s))
    with (if chr_eq fl c t then exec fl re s else None).
  rewrite (Hout t Ht). reflexivity.
Qed.

(** A lazy repetition over every character, followed by [re], is a search
    for [re]. *)
Lemma exec_lazy_search (fl : flags) (k : cclass) (re : pattern) :
  (forall t, in_class fl k t = true) ->
  forall s, exec fl (Star false k :: re) s = option_map snd (search fl re s).
Proof.
  intros Hall. induction s as [|t s IH]; rewrite exec_star_lazy; cbn [search].
  - destruct (exec fl re []); reflexivity.
  - destruct (exec fl re (t :: s)); trivial.
    rewrite Hall, IH. destruct (search fl re s) as [[pre r]|]; reflexivity.
Qed.

Lemma drop_while_split (p : ascii -> bool) (s : str) :
  exists w, s = w ++ drop_while p s /\ Forall (fun c => p c = true) w.
Proof.
  induction s as [|c s (w & Hs & Hw)]; [exists []; auto|].
  cbn [drop_while]. destruct (p c) eqn:E.
  - exists (c :: w). split; [simpl; congruence|auto].
  - exists []. auto.
Qed.

Lemma drop_while_app (p : ascii -> bool) (w : str) (c : ascii) (s : str) :
  Forall (fun c => p c = true) w -> p c = false ->
  drop_while p (w ++ c :: s) = c :: s.
Proof.
  intros Hw Hc. induction Hw as [|a w Ha Hw IH]; simpl.
  - rewrite Hc. reflexivity.
  - rewrite Ha. exact IH.
Qed.

(** *** Case-insensitive literals *)

Lemma chr_eq_IS (c t : ascii) :
  chr_eq IS c t = true <-> to_lower t = to_lower c.
Proof.
  unfold chr_eq. cbn [ignorecase IS]. rewrite Ascii.eqb_eq. split; congruence.
Qed.

Lemma strip_lits_IS (w : str) :
  forall s s', strip_lits IS w s = Some s'
               <-> exists w', s = w' ++ s' /\ ci_eq w' w.
Proof.
  unfold ci_eq. induction w as [|c w IH]; intros s s'; cbn [strip_lits].
  - split.
    + intros [= ->]. exists []. auto.
    + intros (w' & -> & H). destruct w'; [reflexivity|discriminate].
  - destruct s as [|t s].
    + split; [discriminate|]. intros (w' & H & Hw).
      destruct w'; discriminate.
    + destruct (chr_eq IS c t) eqn:E.
      * apply chr_eq_IS in E. rewrite IH. split.
        -- intros (w' & -> & Hw). exists (t :: w'). simpl. split; congruence.
        -- intros (w' & H & Hw). destruct w' as [|a w']; [discriminate|].
           simpl in H, Hw. injection H as -> ->. injection Hw as _ Hw. eauto.
      * split; [discriminate|]. intros (w' & H & Hw).
        destruct w' as [|a w']; [discriminate|].
        simpl in H, Hw. injection H as -> ->. injection Hw as Hc _.
        apply chr_eq_IS in Hc. congruence.
Qed.

Lemma strip_lits_app (w w' s : str) :
  ci_eq w' w -> strip_lits IS w (w' ++ s) = Some s.
Proof. intros H. apply strip_lits_IS. eauto. Qed.

Lemma to_lower_lt (a : ascii) : to_lower a = "<"%char -> a = "<"%char.
Proof.
  destruct a as [[|] [|] [|] [|] [|] [|] [|] [|]]; vm_compute;
    intros H; try reflexivity; discriminate H.
Qed.

Lemma to_lower_gt (a : ascii) : to_lower a = ">"%char -> a = ">"%char.
Proof.
  destruct a as [[|] [|] [|] [|] [|] [|] [|] [|]]; vm_compute;
    intros H; try reflexivity; discriminate H.
Qed.

Lemma space_not_lt (t : ascii) : is_space t = true -> chr_eq IS "<" t = false.
Proof.
  intros H. destruct (chr_eq IS "<" t) eqn:E; trivial.
  apply chr_eq_IS in E. apply to_lower_lt in E. subst. discriminate H.
Qed.

Lemma not_gt_class (t : ascii) :
  in_class IS (NoneOf [">"%char]) t = true <-> t <> ">"%char.
Proof.
  cbn [in_class existsb]. rewrite orb_false_r, negb_true_iff. split.
  - intros H ->. discriminate H.
  - intros H. destruct (chr_eq IS ">" t) eqn:E; trivial.
    apply chr_eq_IS in E. apply to_lower_gt in E. contradiction.
Qed.

Lemma not_gt_not_lit (t : ascii) :
  in_class IS (NoneOf [">"%char]) t = true -> chr_eq IS ">" t = false.
Proof. cbn [in_class existsb]. rewrite orb_false_r, negb_true_iff. trivial. Qed.

(** The head of a string that equals, up to case, one that starts with
    [<]. *)
Lemma ci_eq_lt_head (w rest : str) :
  ci_eq w ("<"%char :: rest) -> exists w', w = "<"%char :: w'.
Proof.
  unfold ci_eq. destruct w as [|a w]; [discriminate|].
  simpl. intros [= Ha _]. apply to_lower_lt in Ha. subst. eauto.
Qed.

Lemma ci_eq_gt (w : str) : ci_eq w (lit ">") <-> w = [">"%char].
Proof.
  unfold ci_eq. split; [|intros ->; reflexivity].
  destruct w as [|a [|b w]]; try discriminate.
  simpl. intros [= Ha]. apply to_lower_gt in Ha. subst. reflexivity.
Qed.

(** ** The pattern of the field extractor *)

Lemma exec_skip_lits (fl : flags) (k : cclass) (c : ascii) (w : str)
      (re : pattern) :
  (forall t, in_class fl k t = true -> chr_eq fl c t = false) ->
  forall s, exec fl (Star true k :: map Lit (c :: w) ++ re) s
            = match strip_lits fl (c :: w) (drop_while (in_class fl k) s) with
              | Some s' => exec fl re s'
              | None => None
              end.
Proof.
  intros Hout s. cbn [map app]. rewrite (exec_star_skip fl k c _ Hout).
  apply (exec_lits fl (c :: w) re).
Qed.

Lemma exec_close_lits (w s : str) (m : marks) :
  exec IS (Close :: map Lit w) s = Some m
  <-> exists post, strip_lits IS w s = Some post
                   /\ m = {| m_open := []; m_close := s; m_end := post |}.
Proof.
  change (exec IS (Close :: map Lit w) s)
    with (option_map (set_close s) (exec IS (map Lit w) s)).
  rewrite <- (app_nil_r (map Lit w)), exec_lits.
  destruct (strip_lits IS w s) as [post|]; simpl.
  - split.
    + intros [= <-]. eauto.
    + intros (post' & [= <-] & ->). reflexivity.
  - split; [discriminate|]. intros (post' & H & _). discriminate.
Qed.

Lemma exec_label_pattern (label s : str) :
  exec IS (label_pattern label) s
  = match value_cell_start label s with
    | None => None
    | Some s7 =>
        match search IS (Close :: lits "</td>") s7 with
        | None => None
        | Some (_, m) => Some (set_open s7 m)
        end
    end.
Proof.
  unfold label_pattern, value_cell_start, escape.
  rewrite exec_lits. destruct (strip_lits IS label s) as [s1|]; trivial.
  cbn [app].
  change (lits "</td>") with (map Lit ("<"%char :: lit "/td>")) at 1.
  rewrite (exec_skip_lits IS Space "<" _ _ space_not_lt).
  change (drop_while (in_class IS Space) s1) with (drop_while is_space s1).
  change ("<"%char :: lit "/td>") with (lit "</td>").
  destruct (strip_lits IS (lit "</td>") (drop_while is_space s1)) as [s3|]; trivial.
  change (lits "<td") with (map Lit ("<"%char :: lit "td")).
  rewrite (exec_skip_lits IS Space "<" _ _ space_not_lt).
  change (drop_while (in_class IS Space) s3) with (drop_while is_space s3).
  change ("<"%char :: lit "td") with (lit "<td").
  destruct (strip_lits IS (lit "<td") (drop_while is_space s3)) as [s5|]; trivial.
  change (lits ">") with (map Lit (">"%char :: [])).
  rewrite (exec_skip_lits IS (NoneOf [">"%char]) ">" _ _ not_gt_not_lit).
  change (strip_lits IS [">"%char]) with (strip_lits IS (lit ">")).
  destruct (strip_lits IS (lit ">")
              (drop_while (in_class IS (NoneOf [">"%char])) s5)) as [s7|]; trivial.
  change (exec IS (Open :: Star false Dot :: Close :: lits "</td>") s7)
    with (option_map (set_open s7)
            (exec IS (Star false Dot :: Close :: lits "</td>") s7)).
  rewrite (exec_lazy_search IS Dot _ (fun _ => eq_refl)).
  destruct (search IS (Close :: lits "</td>") s7) as [[pre m]|]; reflexivity.
Qed.

Lemma value_cell_start_iff (label s s7 : str) :
  value_cell_start label s = Some s7
  <-> exists lab ws1 c1 ws2 o attrs,
      s = lab ++ ws1 ++ c1 ++ ws2 ++ o ++ attrs ++ ">"%char :: s7
      /\ ci_eq lab label
      /\ all_space ws1 /\ ci_eq c1 (lit "</td>")
      /\ all_space ws2 /\ ci_eq o (lit "<td")
      /\ Forall (fun c => c <> ">"%char) attrs.
Proof.
  unfold value_cell_start. split.
  - destruct (strip_lits IS label s) as [s1|] eqn:E1; [|discriminate].
    destruct (strip_lits IS (lit "</td>") (drop_while is_space s1)) as [s3|] eqn:E3;
      [|discriminate].
    destruct (strip_lits IS (lit "<td") (drop_while is_space s3)) as [s5|] eqn:E5;
      [|discriminate].
    intros E7.
    apply strip_lits_IS in E1, E3, E5, E7.
    destruct E1 as (lab & -> & Hlab), E3 as (c1 & H3 & Hc1),
             E5 as (o & H5 & Ho), E7 as (gt & H7 & Hgt).
    apply (proj1 (ci_eq_gt gt)) in Hgt. subst gt.
    destruct (drop_while_split is_space s1) as (ws1 & Hs1 & Hws1).
    destruct (drop_while_split is_space s3) as (ws2 & Hs3 & Hws2).
    destruct (drop_while_split (in_class IS (NoneOf [">"%char])) s5)
      as (attrs & Hs5 & Hattrs).
    exists lab, ws1, c1, ws2, o, attrs.
    repeat split; trivial.
    + rewrite Hs1 at 1. rewrite H3. rewrite Hs3 at 1. rewrite H5.
      rewrite Hs5 at 1. rewrite H7. reflexivity.
    + eapply Forall_impl; [|exact Hattrs]. intros a. apply not_gt_class.
  - intros (lab & ws1 & c1 & ws2 & o & attrs & -> & Hlab & Hws1 & Hc1 & Hws2
            & Ho & Hattrs).
    rewrite (strip_lits_app label lab _ Hlab).
    destruct (ci_eq_lt_head c1 _ Hc1) as (c1' & Ec1).
    destruct (ci_eq_lt_head o _ Ho) as (o' & Eo).
    rewrite Ec1 at 1. cbn [app].
    rewrite (drop_while_app is_space ws1 "<" _ Hws1 eq_refl).
    change ("<"%char :: c1' ++ ws2 ++ o ++ attrs ++ ">"%char :: s7)
      with (("<"%char :: c1') ++ ws2 ++ o ++ attrs ++ ">"%char :: s7).
    rewrite <- Ec1. rewrite (strip_lits_app _ c1 _ Hc1).
    rewrite Eo at 1. cbn [app].
    rewrite (drop_while_app is_space ws2 "<" _ Hws2 eq_refl).
    change ("<"%char :: o' ++ attrs ++ ">"%char :: s7)
      with (("<"%char :: o') ++ attrs ++ ">"%char :: s7).
    rewrite <- Eo. rewrite (strip_lits_app _ o _ Ho).
    rewrite (drop_while_app (in_class IS (NoneOf [">"%char])) attrs ">" s7).
    + reflexivity.
    + eapply Forall_impl; [|exact Hattrs]. intros a. apply not_gt_class.
    + reflexivity.
Qed.

(** The occurrences of a label with its value cell, through the start of
    the cell. *)
Lemma label_cell_iff (label s content post : str) :
  label_cell label s content post
  <-> exists s7 c2, value_cell_start label s = Some s7
                    /\ s7 = content ++ c2 ++ post /\ ci_eq c2 (lit "</td>").
Proof.
  unfold label_cell. split.
  - intros (lab & ws1 & c1 & ws2 & o & attrs & c2 & Hs & Hlab & Hws1 & Hc1
            & Hws2 & Ho & Hattrs & Hc2).
    exists (content ++ c2 ++ post), c2. repeat split; trivial.
    apply value_cell_start_iff. exists lab, ws1, c1, ws2, o, attrs. auto 10.
  - intros (s7 & c2 & H & -> & Hc2).
    apply value_cell_start_iff in H.
    destruct H as (lab & ws1 & c1 & ws2 & o & attrs & Hs & Hlab & Hws1 & Hc1
                   & Hws2 & Ho & Hattrs).
    exists lab, ws1, c1, ws2, o, attrs, c2. repeat split; assumption.
Qed.

Lemma group1_cell (content rest post : str) :
  group1 (set_open (content ++ rest)
            {| m_open := []; m_close := rest; m_end := post |}) = content.
Proof.
  unfold group1, set_open. cbn [m_open m_close].
  rewrite length_app, Nat.add_sub, firstn_app, Nat.sub_diag, firstn_all.
  simpl. apply app_nil_r.
Qed.

Lemma app_shorter (a b c d : str) :
  a ++ b = c ++ d -> length c < length a ->
  exists e, a = c ++ e /\ e <> [] /\ d = e ++ b.
Proof.
  revert c. induction a as [|x a IH]; intros c H Hlen; [simpl in Hlen; lia|].
  destruct c as [|y c].
  - exists (x :: a). repeat split; [discriminate|]. simpl in H. auto.
  - simpl in H. injection H as -> H. simpl in Hlen.
    destruct (IH c H ltac:(lia)) as (e & -> & Hne & ->).
    exists e. auto.
Qed.

(** A match of the pattern at the head of [s] is an occurrence of the
    label with the shortest content. *)
Lemma exec_label_cell (label s : str) (m : marks) :
  exec IS (label_pattern label) s = Some m ->
  exists post,
    label_cell label s (group1 m) post
    /\ (forall c' p', label_cell label s c' p' ->
                      length (group1 m) <= length c').
Proof.
  rewrite exec_label_pattern.
  destruct (value_cell_start label s) as [s7|] eqn:E7; [|discriminate].
  destruct (search IS (Close :: lits "</td>") s7) as [[content m']|] eqn:Es;
    [|discriminate].
  intros [= <-].
  apply search_some in Es. destruct Es as (s' & -> & Hm & Hfirst).
  apply exec_close_lits in Hm. destruct Hm as (post & Hpost & ->).
  rewrite group1_cell.
  apply strip_lits_IS in Hpost. destruct Hpost as (c2 & -> & Hc2).
  exists post. split.
  - apply label_cell_iff. exists (content ++ c2 ++ post), c2. auto.
  - intros c' p' H'. apply label_cell_iff in H'.
    destruct H' as (s7' & c2' & E7' & Hs7' & Hc2').
    rewrite E7 in E7'. injection E7' as <-.
    destruct (Nat.le_gt_cases (length content) (length c')) as [|Hlt]; trivial.
    destruct (app_shorter _ _ _ _ Hs7' Hlt) as (e & -> & Hne & He).
    specialize (Hfirst c' e eq_refl Hne).
    rewrite <- He in Hfirst.
    assert (Hex : exec IS (Close :: lits "</td>") (c2' ++ p')
                  = Some {| m_open := []; m_close := c2' ++ p'; m_end := p' |}).
    { apply exec_close_lits. exists p'. split; trivial.
      apply strip_lits_app. exact Hc2'. }
    congruence.
Qed.

(** Every occurrence of the label with a value cell is matched. *)
Lemma label_cell_exec (label s content post : str) :
  label_cell label s content post ->
  exists m, exec IS (label_pattern label) s = Some m.
Proof.
  intros H. apply label_cell_iff in H.
  destruct H as (s7 & c2 & E7 & -> & Hc2).
  rewrite exec_label_pattern, E7.
  destruct (search_found IS (Close :: lits "</td>") content (c2 ++ post)
              {| m_open := []; m_close := c2 ++ post; m_end := post |})
    as (pre' & m' & ->); [|eauto].
  apply exec_close_lits. exists post. split; trivial.
  apply strip_lits_app. exact Hc2.
Qed.

(** ** The text normalizer *)

Lemma exec_star_end (fl : flags) (k : cclass) (s : str) :
  exec fl [Star true k] s
  = Some {| m_open := []; m_close := []; m_end := drop_while (in_class fl k) s |}.
Proof.
  induction s as [|t s IH]; rewrite exec_star_greedy; trivial.
  cbn [drop_while]. destruct (in_class fl k t); trivial. rewrite IH. reflexivity.
Qed.

Lemma exec_space_run (s : str) :
  exec no_flags [One Space; Star true Space] s
  = match s with
    | t :: rest =>
        if is_space t
        then Some {| m_open := []; m_close := []; m_end := drop_while is_space rest |}
        else None
    | [] => None
    end.
Proof.
  destruct s as [|t rest]; trivial.
  change (exec no_flags [One Space; Star true Space] (t :: rest))
    with (if is_space t then exec no_flags [Star true Space] rest else None).
  rewrite exec_star_end. reflexivity.
Qed.

Lemma collapse_run (s : str) :
  collapse true s = collapse false (drop_while is_space s).
Proof.
  induction s as [|c s IH]; trivial. cbn [collapse drop_while].
  destruct (is_space c) eqn:E; trivial. cbn [collapse]. rewrite E. reflexivity.
Qed.

Lemma collapse_no_space (s : str) :
  Forall (fun c => is_space c = false) s ->
  forall rest, collapse false (s ++ rest) = s ++ collapse false rest.
Proof.
  intros H rest. induction H as [|c s Hc Hs IH]; trivial.
  cbn [app collapse]. rewrite Hc, IH. reflexivity.
Qed.

(** Substituting one space for every run of white space. *)
Lemma sub_spaces (s : str) :
  sub no_flags [One Space; Star true Space] (lit " ") s = collapse false s.
Proof.
  assert (Hw : 0 < min_width [One Space; Star true Space]) by (simpl; lia).
  assert (Hskip : forall pre s',
             (forall p1 p2, pre = p1 ++ p2 -> p2 <> [] ->
                 exec no_flags [One Space; Star true Space] (p2 ++ s') = None) ->
             Forall (fun c => is_space c = false) pre).
  { induction pre as [|c pre IH]; intros s' H; constructor.
    - assert (Hc := H [] (c :: pre) eq_refl ltac:(discriminate)).
      rewrite exec_space_run in Hc. cbn [app] in Hc.
      destruct (is_space c); [discriminate|reflexivity].
    - apply (IH s'). intros p1 p2 -> Hne. apply (H (c :: p1) p2); trivial. }
  remember (length s) as n eqn:Hn. revert s Hn.
  induction n as [n IH] using lt_wf_ind. intros s Hn.
  rewrite sub_step by exact Hw.
  destruct (search no_flags [One Space; Star true Space] s) as [[pre m]|] eqn:E.
  - assert (Hlen := search_end_length _ _ _ _ _ E).
    apply search_some in E. destruct E as (s' & -> & Hm & Hfirst).
    rewrite exec_space_run in Hm. destruct s' as [|t rest]; [discriminate|].
    destruct (is_space t) eqn:Ht; [|discriminate].
    injection Hm as <-. cbn [m_end] in *.
    rewrite (collapse_no_space pre (Hskip _ _ Hfirst)).
    cbn [collapse]. rewrite Ht, collapse_run. cbn [lit list_ascii_of_string app].
    do 2 f_equal. apply (IH (length (drop_while is_space rest))); trivial.
    cbn [min_width] in Hlen. lia.
  - assert (H : Forall (fun c => is_space c = false) s).
    { apply (Hskip s []). intros p1 p2 -> Hne. rewrite app_nil_r.
      apply (search_none _ _ _ E p1 p2). reflexivity. }
    rewrite <- (app_nil_r s) at 2. rewrite (collapse_no_space s H). cbn [collapse].
    rewrite app_nil_r. reflexivity.
Qed.

Lemma collapse_spaced (s : str) : forall b, spaced b (collapse b s) = true.
Proof.
  induction s as [|c s IH]; intros b; trivial. cbn [collapse].
  destruct (is_space c) eqn:E.
  - destruct b; [apply IH|]. cbn [spaced]. rewrite (IH true). reflexivity.
  - cbn [spaced]. rewrite E. apply IH.
Qed.

Lemma spaced_lstrip (s : str) :
  forall b, spaced b s = true -> spaced true (lstrip s) = true.
Proof.
  induction s as [|c s IH]; intros b H; trivial. cbn [lstrip spaced] in *.
  destruct (is_space c) eqn:E.
  - apply andb_true_iff in H. destruct H as [_ H]. apply (IH true H).
  - cbn [spaced]. rewrite E. exact H.
Qed.

Lemma spaced_prefix (a c : str) :
  forall b, spaced b (a ++ c) = true -> spaced b a = true.
Proof.
  induction a as [|x a IH]; intros b H; trivial. cbn [app spaced] in *.
  destruct (is_space x).
  - apply andb_true_iff in H. destruct H as [H1 H2]. rewrite H1. apply (IH true H2).
  - apply (IH false H).
Qed.

Lemma lstrip_head (s : str) :
  match lstrip s with [] => True | c :: _ => is_space c = false end.
Proof.
  induction s as [|c s IH]; cbn [lstrip]; trivial.
  destruct (is_space c) eqn:E; trivial.
Qed.

Lemma lstrip_suffix (s : str) :
  exists w, s = w ++ lstrip s /\ Forall (fun c => is_space c = true) w.
Proof.
  induction s as [|c s (w & Hs & Hw)]; [exists []; auto|].
  cbn [lstrip]. destruct (is_space c) eqn:E.
  - exists (c :: w). split; [simpl; congruence|auto].
  - exists []. auto.
Qed.

Lemma rstrip_prefix (s : str) : exists w, s = rstrip s ++ w.
Proof.
  unfold rstrip. destruct (lstrip_suffix (rev s)) as (w & Hs & _).
  exists (rev w). rewrite <- rev_app_distr, <- Hs, rev_involutive. reflexivity.
Qed.

Lemma lstrip_fixed (s : str) :
  match s with [] => True | c :: _ => is_space c = false end -> lstrip s = s.
Proof. destruct s as [|c s]; trivial. cbn [lstrip]. intros ->. reflexivity. Qed.

(** The shape of a stripped text with single spaces. *)
Lemma strip_shape (s : str) (b : bool) :
  spaced b s = true ->
  spaced true (strip s) = true
  /\ match rev (strip s) with [] => True | c :: _ => is_space c = false end.
Proof.
  intros H. unfold strip. apply spaced_lstrip in H.
  destruct (rstrip_prefix (lstrip s)) as (w & Hw). split.
  - apply (spaced_prefix _ w). rewrite <- Hw. exact H.
  - unfold rstrip. rewrite rev_involutive. apply lstrip_head.
Qed.

Lemma spaced_inv (a : str) (c : ascii) (b : str) :
  forall p,
    spaced p (a ++ c :: b) = true -> is_space c = true ->
    c = " "%char
    /\ match rev a with [] => p = false | x :: _ => is_space x = false end
    /\ match b with [] => True | y :: _ => is_space y = false end.
Proof.
  induction a as [|x a IH]; intros p H Hc.
  - cbn [app spaced rev] in *. rewrite Hc in H.
    apply andb_true_iff in H. destruct H as [H Hb].
    apply andb_true_iff in H. destruct H as [H1 H2].
    apply Ascii.eqb_eq in H1. apply negb_true_iff in H2.
    repeat split; trivial. destruct b as [|y b]; trivial.
    cbn [spaced] in Hb. destruct (is_space y); trivial.
    rewrite andb_false_r in Hb. discriminate.
  - cbn [app spaced] in H. cbn [rev].
    destruct (is_space x) eqn:Ex.
    + apply andb_true_iff in H. destruct H as [_ H].
      destruct (IH true H Hc) as (H1 & H2 & H3). repeat split; trivial.
      destruct (rev a) as [|z r]; [discriminate|exact H2].
    + destruct (IH false H Hc) as (H1 & H2 & H3). repeat split; trivial.
      destruct (rev a) as [|z r]; [exact Ex|exact H2].
Qed.

Lemma shape_normalized (v : str) :
  spaced true v = true ->
  match rev v with [] => True | c :: _ => is_space c = false end ->
  normalized v.
Proof.
  intros Hs Hlast a c b -> Hc.
  destruct (spaced_inv a c b true Hs Hc) as (H1 & H2 & H3).
  split; trivial. split.
  - destruct (rev a) as [|x r] eqn:E; [discriminate|].
    exists (rev r), x. split; trivial.
    rewrite <- (rev_involutive a), E. reflexivity.
  - destruct b as [|y b']; [|eauto].
    rewrite rev_app_distr in Hlast. cbn in Hlast. congruence.
Qed.

Lemma spaced_collapse_fixed (v : str) :
  forall p, spaced p v = true -> collapse p v = v.
Proof.
  induction v as [|c v IH]; intros p H; trivial. cbn [spaced collapse] in *.
  destruct (is_space c).
  - apply andb_true_iff in H. destruct H as [H Hv].
    apply andb_true_iff in H. destruct H as [H1 H2].
    apply Ascii.eqb_eq in H1. apply negb_true_iff in H2. subst.
    rewrite (IH true Hv). reflexivity.
  - rewrite (IH false H). reflexivity.
Qed.

Lemma spaced_weaken (v : str) : spaced true v = true -> spaced false v = true.
Proof.
  destruct v as [|c v]; trivial. cbn [spaced]. destruct (is_space c); trivial.
  rewrite andb_false_r. discriminate.
Qed.

Lemma spaced_true_head (v : str) :
  spaced true v = true ->
  match v with [] => True | c :: _ => is_space c = false end.
Proof.
  destruct v as [|c v]; trivial. cbn [spaced]. destruct (is_space c); trivial.
  rewrite andb_false_r. discriminate.
Qed.


(** *** Words *)

Lemma split_ws_collapse (s : str) :
  forall w b, (b = true -> w = []) ->
              split_ws w (collapse b s) = split_ws w s.
Proof.
  induction s as [|c s IH]; intros w b Hb; trivial.
  cbn [collapse split_ws]. destruct (is_space c) eqn:E.
  - destruct b.
    + rewrite (Hb eq_refl). cbn [is_empty]. apply IH. trivial.
    + cbn [split_ws]. change (is_space " ") with true. cbv iota.
      rewrite (IH [] true (fun _ => eq_refl)). reflexivity.
  - cbn [split_ws]. rewrite E. apply IH. discriminate.
Qed.

Lemma split_ws_lstrip (s : str) : split_ws [] (lstrip s) = split_ws [] s.
Proof.
  induction s as [|c s IH]; trivial. cbn [lstrip split_ws].
  destruct (is_space c) eqn:E; [exact IH|]. cbn [split_ws]. rewrite E. reflexivity.
Qed.

Lemma split_ws_spaces (ws : str) :
  Forall (fun c => is_space c = true) ws ->
  forall w, split_ws w ws = split_ws w [].
Proof.
  induction 1 as [|c ws Hc _ IH]; intros w; trivial.
  cbn [split_ws]. rewrite Hc, (IH []). reflexivity.
Qed.

Lemma split_ws_trailing (s ws : str) :
  Forall (fun c => is_space c = true) ws ->
  forall w, split_ws w (s ++ ws) = split_ws w s.
Proof.
  intros Hws. induction s as [|c s IH]; intros w.
  - apply split_ws_spaces, Hws.
  - cbn [app split_ws]. rewrite !IH. reflexivity.
Qed.

Lemma rstrip_spaces (s : str) :
  exists w, s = rstrip s ++ w /\ Forall (fun c => is_space c = true) w.
Proof.
  unfold rstrip. destruct (lstrip_suffix (rev s)) as (w & Hs & Hw).
  exists (rev w). split.
  - rewrite <- rev_app_distr, <- Hs, rev_involutive. reflexivity.
  - apply Forall_rev, Hw.
Qed.

Lemma words_strip (s : str) : words (strip s) = words s.
Proof.
  unfold words, strip.
  destruct (rstrip_spaces (lstrip s)) as (w & Hs & Hw).
  rewrite <- (split_ws_lstrip s). rewrite Hs at 2.
  rewrite (split_ws_trailing _ w Hw). reflexivity.
Qed.

(** A text of the shape the normalizer returns is its own words joined by
    single spaces. *)
Lemma join_split (v : str) :
  forall w,
    spaced (is_empty w) v = true ->
    match rev v with [] => True | c :: _ => is_space c = false end ->
    join_space (split_ws w v) = w ++ v.
Proof.
  induction v as [|c v IH]; intros w Hs Hlast.
  - cbn [split_ws]. rewrite app_nil_r. destruct w; reflexivity.
  - cbn [split_ws spaced] in *. destruct (is_space c) eqn:E.
    + apply andb_true_iff in Hs. destruct Hs as [Hs Hv].
      apply andb_true_iff in Hs. destruct Hs as [Hc Hw].
      apply Ascii.eqb_eq in Hc. apply negb_true_iff in Hw. subst c. rewrite Hw.
      assert (Hv' : match rev v with [] => True | x :: _ => is_space x = false end).
      { cbn [rev] in Hlast. destruct (rev v) as [|x r]; [trivial|exact Hlast]. }
      assert (Hne : v <> []).
      { intros ->. cbn in Hlast. congruence. }
      specialize (IH [] Hv Hv'). cbn [app] in IH.
      destruct (split_ws [] v) as [|w1 ws] eqn:Ew.
      * cbn in IH. congruence.
      * change (join_space (w :: w1 :: ws))
          with (w ++ " "%char :: join_space (w1 :: ws)).
        rewrite IH. reflexivity.
    + assert (Hv' : match rev v with [] => True | x :: _ => is_space x = false end).
      { cbn [rev] in Hlast. destruct (rev v) as [|x r]; [trivial|exact Hlast]. }
      assert (He : is_empty (w ++ [c]) = false) by (destruct w; reflexivity).
      rewrite (IH (w ++ [c])); [|rewrite He; exact Hs|exact Hv'].
      rewrite <- app_assoc. reflexivity.
Qed.

(** Collapsing the runs of white space and stripping gives the normal
    form. *)
Lemma strip_collapse_normal (d : str) :
  strip (collapse false d) = normal_form d.
Proof.
  destruct (strip_shape (collapse false d) false (collapse_spaced d false))
    as [Hs Hlast].
  rewrite <- (join_split _ [] Hs Hlast) at 1. cbn [app].
  unfold normal_form. f_equal.
  change (split_ws [] (strip (collapse false d)))
    with (words (strip (collapse false d))).
  rewrite words_strip. unfold words. apply split_ws_collapse. discriminate.
Qed.

Lemma normal_form_shape (d : str) :
  spaced true (normal_form d) = true
  /\ match rev (normal_form d) with [] => True | c :: _ => is_space c = false end.
Proof.
  rewrite <- strip_collapse_normal.
  apply (strip_shape _ false), collapse_spaced.
Qed.

(** *** Character references *)

Lemma digit_run_split (s : str) :
  exists b, s = digit_run s ++ b
            /\ Forall (fun c => decimal_digit c = true) (digit_run s).
Proof.
  induction s as [|c s (b & Hs & Hd)]; [exists []; auto|].
  cbn [digit_run]. destruct (is_digit c) eqn:E.
  - exists b. split; [simpl; congruence|].
    constructor; trivial. rewrite decimal_digit_is_digit. exact E.
  - exists (c :: s). auto.
Qed.

Lemma digit_run_app (ds b : str) :
  Forall (fun c => decimal_digit c = true) ds ->
  digit_run (ds ++ b) = ds ++ digit_run b.
Proof.
  induction 1 as [|c ds Hc _ IH]; trivial.
  cbn [app digit_run]. rewrite <- decimal_digit_is_digit, Hc, IH. reflexivity.
Qed.

Lemma long_charref_iff (s : str) :
  long_charref s = true <-> long_reference s.
Proof.
  split.
  - induction s as [|c s IH]; [discriminate|].
    cbn [long_charref]. intros H. apply orb_true_iff in H.
    destruct H as [H|H].
    + apply andb_true_iff in H. destruct H as [Hc H].
      apply Ascii.eqb_eq in Hc. subst c.
      destruct s as [|d s]; [discriminate|].
      apply andb_true_iff in H. destruct H as [Hd H].
      apply Ascii.eqb_eq in Hd. subst d. apply Z.ltb_lt in H.
      destruct (digit_run_split s) as (b & Hs & Hds).
      exists [], (digit_run s), b. cbn [app]. rewrite <- Hs.
      repeat split; trivial.
    + destruct (IH H) as (a & ds & b & -> & Hds & Hlen).
      exists (c :: a), ds, b. auto.
  - intros (a & ds & b & -> & Hds & Hlen).
    induction a as [|x a IH].
    + cbn [app long_charref]. rewrite !Ascii.eqb_refl.
      rewrite (digit_run_app ds b Hds), length_app.
      assert (E : (max_str_digits
                   <? Z.of_nat (length ds + length (digit_run b)))%Z = true)
        by (apply Z.ltb_lt; unfold max_str_digits; lia).
      rewrite E. reflexivity.
    + cbn [app long_charref]. rewrite IH. apply orb_true_r.
Qed.

Lemma no_ampersand_short (s : str) :
  existsb (Ascii.eqb "&") s = false -> long_charref s = false.
Proof.
  induction s as [|c s IH]; trivial. cbn [existsb long_charref].
  intros H. apply orb_false_iff in H. destruct H as [Hc Hs].
  rewrite (IH Hs), orb_false_r. rewrite Ascii.eqb_sym, Hc. reflexivity.
Qed.

(** [html.unescape] returns what the content decodes to, and raises
    [ValueError] on an over-long reference. *)
Lemma unescape_ok (s d : str) : unescape s = Ok d <-> decoded s d.
Proof.
  unfold unescape, decoded. rewrite <- long_charref_iff.
  destruct (existsb (Ascii.eqb "&") s) eqn:E; cbn [negb].
  - destruct (long_charref s); split.
    + discriminate.
    + intros [H _]. exfalso. apply H. reflexivity.
    + intros [= <-]. split; [discriminate|reflexivity].
    + intros [_ ->]. reflexivity.
  - rewrite (no_ampersand_short s E). split.
    + intros [= <-]. split; [discriminate|reflexivity].
    + intros [_ ->]. reflexivity.
Qed.

Lemma unescape_raise (s : str) (e : exn) :
  unescape s = Raise e <-> e = ValueError /\ long_reference s.
Proof.
  unfold unescape. rewrite <- long_charref_iff.
  destruct (existsb (Ascii.eqb "&") s) eqn:E; cbn [negb].
  - destruct (long_charref s); split; try discriminate.
    + intros [= <-]. auto.
    + intros [-> _]. reflexivity.
    + intros [_ H]. discriminate H.
  - rewrite (no_ampersand_short s E). split; [discriminate|].
    intros [_ H]. discriminate H.
Qed.

(** *** The normalizer *)

Lemma clean_html_unfold (text : str) :
  _clean_html text
  = match unescape text with
    | Ok d => Ok (normal_form d)
    | Raise e => Raise e
    end.
Proof.
  unfold _clean_html. destruct (unescape text) as [d|e]; cbn [bind]; trivial.
  rewrite sub_spaces, strip_collapse_normal. reflexivity.
Qed.

Lemma clean_html_ok (text v : str) :
  _clean_html text = Ok v <-> normal_text text v.
Proof.
  rewrite clean_html_unfold. unfold normal_text. split.
  - destruct (unescape text) as [d|e] eqn:E; [|discriminate].
    intros [= <-]. exists d. split; trivial. apply unescape_ok, E.
  - intros (d & Hd & ->). apply unescape_ok in Hd. rewrite Hd. reflexivity.
Qed.

Lemma clean_html_raise (text : str) (e : exn) :
  _clean_html text = Raise e <-> e = ValueError /\ long_reference text.
Proof.
  rewrite clean_html_unfold, <- unescape_raise.
  destruct (unescape text) as [d|e']; split; try discriminate; trivial.
Qed.

Lemma long_reference_dec (text : str) :
  long_reference text \/ exists v, normal_text text v.
Proof.
  destruct (_clean_html text) as [v|e] eqn:E.
  - right. exists v. apply clean_html_ok, E.
  - left. apply clean_html_raise in E. apply E.
Qed.

Lemma normal_text_unique (text v1 v2 : str) :
  normal_text text v1 -> normal_text text v2 -> v1 = v2.
Proof.
  intros H1 H2. apply clean_html_ok in H1, H2. congruence.
Qed.

Lemma normal_text_short (text v : str) :
  normal_text text v -> ~ long_reference text.
Proof. intros (d & [H _] & _). exact H. Qed.

Lemma clean_html_shape (text v : str) :
  _clean_html text = Ok v ->
  spaced true v = true
  /\ match rev v with [] => True | c :: _ => is_space c = false end.
Proof.
  rewrite clean_html_unfold. destruct (unescape text) as [d|e]; [|discriminate].
  intros [= <-]. apply normal_form_shape.
Qed.

Lemma clean_html_normal (text v : str) :
  _clean_html text = Ok v -> normalized v.
Proof.
  intros H. destruct (clean_html_shape text v H). apply shape_normalized; trivial.
Qed.

Lemma no_ampersand_spaces (s : str) :
  forallb is_space s = true -> existsb (Ascii.eqb "&") s = false.
Proof.
  induction s as [|c s IH]; trivial. intros H.
  cbn [forallb] in H. apply andb_true_iff in H. destruct H as [Hc Hs].
  cbn [existsb]. rewrite (IH Hs), orb_false_r.
  destruct (Ascii.eqb_spec "&"%char c) as [<-|]; [discriminate Hc|trivial].
Qed.

Lemma words_spaces (s : str) : forallb is_space s = true -> words s = [].
Proof.
  intros H. unfold words. rewrite (split_ws_spaces s); trivial.
  apply Forall_forall. intros c Hc.
  apply (proj1 (forallb_forall _ _) H c Hc).
Qed.

Lemma clean_html_spaces (content : str) :
  forallb is_space content = true -> _clean_html content = Ok [].
Proof.
  intros H. rewrite clean_html_unfold. unfold unescape.
  rewrite (no_ampersand_spaces _ H). cbn [negb].
  unfold normal_form. rewrite (words_spaces _ H). reflexivity.
Qed.

(** ** The field extractor *)

Lemma app_same_length (a b c d : str) :
  a ++ b = c ++ d -> length a = length c -> a = c /\ b = d.
Proof.
  revert c. induction a as [|x a IH]; intros [|y c] H Hlen; try discriminate.
  - auto.
  - simpl in H. injection H as -> H. simpl in Hlen.
    destruct (IH c H ltac:(lia)) as [-> ->]. auto.
Qed.

Lemma search_label_extracted (html label pre : str) (m : marks) :
  search IS (label_pattern label) html = Some (pre, m) ->
  extracted_cell html label (group1 m).
Proof.
  intros H. apply search_some in H. destruct H as (s & -> & Hm & Hfirst).
  destruct (exec_label_cell label s m Hm) as (post & Hcell & Hshort).
  exists pre, s, post. repeat split; trivial.
  intros pre' s' c' p' Hs Hcell'.
  destruct (Nat.le_gt_cases (length pre) (length pre')) as [|Hlt]; trivial.
  destruct (app_shorter _ _ _ _ Hs Hlt) as (e & -> & Hne & ->).
  destruct (label_cell_exec _ _ _ _ Hcell') as (m' & Hm').
  rewrite (Hfirst pre' e eq_refl Hne) in Hm'. discriminate.
Qed.

Lemma search_label_none (html label : str) :
  search IS (label_pattern label) html = None ->
  forall pre s content post,
    html = pre ++ s -> ~ label_cell label s content post.
Proof.
  intros H pre s content post Hs Hcell.
  destruct (label_cell_exec _ _ _ _ Hcell) as (m & Hm).
  rewrite (search_none _ _ _ H pre s Hs) in Hm. discriminate.
Qed.

Lemma extracted_cell_unique (html label c1 c2 : str) :
  extracted_cell html label c1 -> extracted_cell html label c2 -> c1 = c2.
Proof.
  intros (pre1 & s1 & post1 & Hs1 & Hcell1 & Hfirst1 & Hshort1)
         (pre2 & s2 & post2 & Hs2 & Hcell2 & Hfirst2 & Hshort2).
  assert (Hpre : length pre1 = length pre2).
  { apply Nat.le_antisymm; [eapply Hfirst1|eapply Hfirst2]; eauto. }
  rewrite Hs1 in Hs2. destruct (app_same_length _ _ _ _ Hs2 Hpre) as [-> ->].
  assert (Hlen : length c1 = length c2).
  { apply Nat.le_antisymm; [eapply Hshort1|eapply Hshort2]; eauto. }
  apply label_cell_iff in Hcell1, Hcell2.
  destruct Hcell1 as (s7 & e1 & E7 & H1 & _), Hcell2 as (s7' & e2 & E7' & H2 & _).
  rewrite E7 in E7'. injection E7' as <-. rewrite H1 in H2.
  apply (app_same_length _ _ _ _ H2 Hlen).
Qed.

Lemma find_label_value_extracted (html label content : str) :
  extracted_cell html label content ->
  _find_label_value html label
  = (value <- _clean_html content ;; Ok (Some value)).
Proof.
  intros H. unfold _find_label_value.
  destruct (search IS (label_pattern label) html) as [[pre m]|] eqn:E.
  - apply search_label_extracted in E.
    rewrite (extracted_cell_unique _ _ _ _ H E). reflexivity.
  - destruct H as (pre & s & post & Hs & Hcell & _).
    destruct (search_label_none _ _ E _ _ _ _ Hs Hcell).
Qed.

Lemma find_label_value_missing (html label : str) :
  no_label_cell html label -> _find_label_value html label = Ok None.
Proof.
  intros H. unfold _find_label_value.
  destruct (search IS (label_pattern label) html) as [[pre m]|] eqn:E; trivial.
  apply search_label_extracted in E.
  destruct E as (pre' & s & post & Hs & Hcell & _).
  destruct (H _ _ _ _ Hs Hcell).
Qed.

(** The three outcomes of a lookup. *)
Lemma find_label_value_cases (html label : str) :
  (no_label_cell html label /\ _find_label_value html label = Ok None)
  \/ exists content,
      extracted_cell html label content
      /\ ((exists v, normal_text content v
                     /\ _find_label_value html label = Ok (Some v))
          \/ (long_reference content
              /\ _find_label_value html label = Raise ValueError)).
Proof.
  unfold _find_label_value.
  destruct (search IS (label_pattern label) html) as [[pre m]|] eqn:E.
  - right. exists (group1 m). split; [eapply search_label_extracted; eauto|].
    destruct (_clean_html (group1 m)) as [v|e] eqn:Ec; cbn [bind].
    + left. exists v. split; trivial. apply clean_html_ok, Ec.
    + right. apply clean_html_raise in Ec. destruct Ec as [-> H]. auto.
  - left. split; trivial. intros pre s content post.
    apply search_label_none; trivial.
Qed.

(** C7, as amended: the extractor looks for the characters of the label in
    any case, wherever they stand, followed by the end of their cell and a
    value cell whose opening tag may carry attributes; of the first such
    place in the document it takes the content up to the first closing
    tag and returns its normalized text: the content decoded, its runs of
    white space collapsed to one space, no white space at either end.  It
    returns absent when there is no such place, and raises [ValueError]
    when the content holds a decimal character reference of more than 4300
    digits. *)
Theorem find_label_value_correct :
  (forall html label,
      match _find_label_value html label with
      | Ok (Some v) =>
          exists content,
            extracted_cell html label content /\ normal_text content v
      | Ok None => no_label_cell html label
      | Raise e =>
          e = ValueError
          /\ exists content,
              extracted_cell html label content /\ long_reference content
      end)
  /\ (forall content, ~ long_reference content ->
                      exists v, normal_text content v)
  /\ normal_form spaced_name = lit "BAT 0"
  /\ _find_label_value spaced_name_report (lit "name") = Ok (Some (lit "BAT 0")).
Proof.
  split; [|split; [|split; reflexivity]].
  - intros html label.
    destruct (find_label_value_cases html label)
      as [[Hno ->]|(content & Hcell & [(v & Hv & ->)|(Hlong & ->)])]; eauto.
  - intros content Hshort.
    destruct (long_reference_dec content) as [H|H]; [contradiction|exact H].
Qed.

(** C10: when the value cell the extractor reads is empty, or holds only
    white space or text that normalizes away, the extractor returns the
    empty string, which is present and not absent, and numeric coercion
    maps it to absent, as it maps a missing field. *)
Theorem empty_cell_present :
  (forall html label content,
      extracted_cell html label content ->
      _clean_html content = Ok [] ->
      _find_label_value html label = Ok (Some [])
      /\ _find_label_value html label <> Ok None
      /\ (value <- _find_label_value html label ;; _parse_int value) = Ok None
      /\ _parse_int None = Ok None)
  /\ (forall content,
         forallb is_space content = true -> _clean_html content = Ok []).
Proof.
  split; [|apply clean_html_spaces].
  intros html label content Hcell Hclean.
  rewrite (find_label_value_extracted _ _ _ Hcell), Hclean.
  repeat split; discriminate.
Qed.

(** ** The section extractor *)

Lemma exec_star_skip_open (fl : flags) (k : cclass) (c : ascii) (re : pattern) :
  (forall t, in_class fl k t = true -> chr_eq fl c t = false) ->
  forall s, exec fl (Star true k :: Open :: Lit c :: re) s
            = exec fl (Open :: Lit c :: re) (drop_while (in_class fl k) s).
Proof.
  intros Hout. induction s as [|t s IH]; rewrite exec_star_greedy; trivial.
  cbn [drop_while]. destruct (in_class fl k t) eqn:Ht; trivial.
  rewrite IH.
  destruct (exec fl (Open :: Lit c :: re) (drop_while (in_class fl k) s)); trivial.
  change (exec fl (Open :: Lit c :: re) (t :: s))
    with (option_map (set_open (t :: s))
            (if chr_eq fl c t then exec fl re s else None)).
  rewrite (Hout t Ht). reflexivity.
Qed.

Lemma exec_lits_close (w s : str) (m : marks) :
  exec IS (map Lit w ++ [Close]) s = Some m
  <-> exists post, strip_lits IS w s = Some post
                   /\ m = {| m_open := []; m_close := post; m_end := post |}.
Proof.
  rewrite exec_lits. destruct (strip_lits IS w s) as [post|].
  - change (exec IS [Close] post)
      with (Some {| m_open := []; m_close := post; m_end := post |}).
    split.
    + intros [= <-]. eauto.
    + intros (post' & [= <-] & ->). reflexivity.
  - split; [discriminate|]. intros (post' & H & _). discriminate.
Qed.

Lemma exec_section_pattern (title s : str) :
  exec IS (section_pattern title) s
  = match table_start title s with
    | None => None
    | Some s4 =>
        match strip_lits IS (lit "<table") s4 with
        | None => None
        | Some s5 =>
            match search IS (lits "</table>" ++ [Close]) s5 with
            | None => None
            | Some (_, m) => Some (set_open s4 m)
            end
        end
    end.
Proof.
  unfold section_pattern, table_start, escape.
  rewrite exec_lits. destruct (strip_lits IS title s) as [s1|]; trivial.
  cbn [app].
  change (lits "</h2>") with (map Lit ("<"%char :: lit "/h2>")) at 1.
  rewrite (exec_skip_lits IS Space "<" _ _ space_not_lt).
  change (drop_while (in_class IS Space) s1) with (drop_while is_space s1).
  change ("<"%char :: lit "/h2>") with (lit "</h2>").
  destruct (strip_lits IS (lit "</h2>") (drop_while is_space s1)) as [s3|]; trivial.
  change (lits "<table") with (map Lit ("<"%char :: lit "table")).
  cbn [map app].
  rewrite (exec_star_skip_open IS Space "<" _ space_not_lt).
  change (drop_while (in_class IS Space) s3) with (drop_while is_space s3).
  set (s4 := drop_while is_space s3).
  change (exec IS (Open :: Lit "<" :: map Lit (lit "table")
                     ++ Star false Dot :: lits "</table>" ++ [Close]) s4)
    with (option_map (set_open s4)
            (exec IS (map Lit (lit "<table")
                        ++ Star false Dot :: lits "</table>" ++ [Close]) s4)).
  rewrite exec_lits. destruct (strip_lits IS (lit "<table") s4) as [s5|]; trivial.
  rewrite (exec_lazy_search IS Dot _ (fun _ => eq_refl)).
  destruct (search IS (lits "</table>" ++ [Close]) s5) as [[pre m]|]; reflexivity.
Qed.

Lemma table_start_iff (title s s4 : str) :
  table_start title s = Some s4
  <-> exists t ws1 c1 ws2,
      s = t ++ ws1 ++ c1 ++ ws2 ++ s4
      /\ ci_eq t title /\ all_space ws1 /\ ci_eq c1 (lit "</h2>")
      /\ all_space ws2
      /\ match s4 with [] => True | c :: _ => is_space c = false end.
Proof.
  unfold table_start. split.
  - destruct (strip_lits IS title s) as [s1|] eqn:E1; [|discriminate].
    destruct (strip_lits IS (lit "</h2>") (drop_while is_space s1)) as [s3|] eqn:E3;
      [|discriminate].
    intros [= <-]. apply strip_lits_IS in E1, E3.
    destruct E1 as (t & -> & Ht), E3 as (c1 & H3 & Hc1).
    destruct (drop_while_split is_space s1) as (ws1 & Hs1 & Hws1).
    destruct (drop_while_split is_space s3) as (ws2 & Hs3 & Hws2).
    exists t, ws1, c1, ws2. repeat split; trivial.
    + rewrite Hs1 at 1. rewrite H3. rewrite Hs3 at 1. reflexivity.
    + clear. induction s3 as [|c s3 IH]; cbn [drop_while]; trivial.
      destruct (is_space c) eqn:E; trivial.
  - intros (t & ws1 & c1 & ws2 & -> & Ht & Hws1 & Hc1 & Hws2 & Hhead).
    rewrite (strip_lits_app title t _ Ht).
    destruct (ci_eq_lt_head c1 _ Hc1) as (c1' & Ec1).
    rewrite Ec1 at 1. cbn [app].
    rewrite (drop_while_app is_space ws1 "<" _ Hws1 eq_refl).
    change ("<"%char :: c1' ++ ws2 ++ s4) with (("<"%char :: c1') ++ ws2 ++ s4).
    rewrite <- Ec1. rewrite (strip_lits_app _ c1 _ Hc1). f_equal.
    destruct s4 as [|c s4].
    + rewrite app_nil_r. clear - Hws2.
      induction Hws2 as [|a w Ha Hw IH]; trivial. cbn [drop_while]. rewrite Ha. exact IH.
    + apply drop_while_app; trivial.
Qed.

Lemma ci_eq_length (a b : str) : ci_eq a b -> length a = length b.
Proof.
  unfold ci_eq, lower. intros H.
  rewrite <- (length_map to_lower a), H, length_map. reflexivity.
Qed.

Lemma section_at_iff (title s table post : str) :
  section_at title s table post
  <-> exists s5 o body c2,
      table_start title s = Some (table ++ post)
      /\ table = o ++ body ++ c2
      /\ ci_eq o (lit "<table") /\ ci_eq c2 (lit "</table>")
      /\ s5 = body ++ c2 ++ post.
Proof.
  unfold section_at. split.
  - intros (t & ws1 & c1 & ws2 & o & body & c2 & Hs & Htab & Ht & Hws1 & Hc1
            & Hws2 & Ho & Hc2).
    exists (body ++ c2 ++ post), o, body, c2. repeat split; trivial.
    apply table_start_iff. exists t, ws1, c1, ws2. repeat split; trivial.
    destruct (ci_eq_lt_head o _ Ho) as (o' & ->). subst table. reflexivity.
  - intros (s5 & o & body & c2 & H4 & Htab & Ho & Hc2 & _).
    apply table_start_iff in H4.
    destruct H4 as (t & ws1 & c1 & ws2 & Hs & Ht & Hws1 & Hc1 & Hws2 & _).
    exists t, ws1, c1, ws2, o, body, c2. repeat split; assumption.
Qed.

Lemma group1_table (table post : str) :
  group1 (set_open (table ++ post)
            {| m_open := []; m_close := post; m_end := post |}) = table.
Proof.
  unfold group1, set_open. cbn [m_open m_close].
  rewrite length_app, Nat.add_sub, firstn_app, Nat.sub_diag, firstn_all.
  simpl. apply app_nil_r.
Qed.

(** A match of the section pattern at the head of [s] is an occurrence of
    the title with the shortest table. *)
Lemma exec_section_at (title s : str) (m : marks) :
  exec IS (section_pattern title) s = Some m ->
  exists post,
    section_at title s (group1 m) post
    /\ (forall t' p', section_at title s t' p' ->
                      length (group1 m) <= length t').
Proof.
  rewrite exec_section_pattern.
  destruct (table_start title s) as [s4|] eqn:E4; [|discriminate].
  destruct (strip_lits IS (lit "<table") s4) as [s5|] eqn:E5; [|discriminate].
  destruct (search IS (lits "</table>" ++ [Close]) s5) as [[body m']|] eqn:Es;
    [|discriminate].
  intros [= <-].
  apply search_some in Es. destruct Es as (s' & -> & Hm & Hfirst).
  apply exec_lits_close in Hm. destruct Hm as (post & Hpost & ->).
  apply strip_lits_IS in E5, Hpost.
  destruct E5 as (o & -> & Ho), Hpost as (c2 & -> & Hc2).
  replace (o ++ body ++ c2 ++ post) with ((o ++ body ++ c2) ++ post) in *
    by (rewrite <- !app_assoc; reflexivity).
  rewrite group1_table. exists post. split.
  - apply section_at_iff. exists (body ++ c2 ++ post), o, body, c2. auto.
  - intros t' p' H'. apply section_at_iff in H'.
    destruct H' as (s5' & o' & body' & c2' & E4' & -> & Ho' & Hc2' & _).
    rewrite E4 in E4'. injection E4' as E4'.
    rewrite <- !app_assoc in E4'.
    assert (Hlen : length o = length o')
      by (rewrite (ci_eq_length _ _ Ho), (ci_eq_length _ _ Ho'); reflexivity).
    destruct (app_same_length _ _ _ _ E4' Hlen) as [<- E5].
    rewrite !length_app.
    destruct (Nat.le_gt_cases (length body) (length body')) as [Hle|Hlt].
    + assert (length c2 = length c2')
        by (rewrite (ci_eq_length _ _ Hc2), (ci_eq_length _ _ Hc2'); reflexivity).
      lia.
    + destruct (app_shorter _ _ _ _ E5 Hlt) as (e & -> & Hne & He).
      specialize (Hfirst body' e eq_refl Hne). rewrite <- He in Hfirst.
      assert (Hex : exec IS (lits "</table>" ++ [Close]) (c2' ++ p')
                    = Some {| m_open := []; m_close := p'; m_end := p' |}).
      { apply exec_lits_close. exists p'. split; trivial.
        apply strip_lits_app. exact Hc2'. }
      congruence.
Qed.

Lemma section_at_exec (title s table post : str) :
  section_at title s table post ->
  exists m, exec IS (section_pattern title) s = Some m.
Proof.
  intros H. apply section_at_iff in H.
  destruct H as (s5 & o & body & c2 & E4 & -> & Ho & Hc2 & _).
  rewrite exec_section_pattern, E4. rewrite <- !app_assoc.
  rewrite (strip_lits_app _ o _ Ho).
  destruct (search_found IS (lits "</table>" ++ [Close]) body (c2 ++ post)
              {| m_open := []; m_close := post; m_end := post |})
    as (pre' & m' & ->); [|eauto].
  apply exec_lits_close. exists post. split; trivial.
  apply strip_lits_app. exact Hc2.
Qed.

(** X11: the section extractor returns the table of the first place of the
    document where the title stands, in any case, before the end of its
    heading and a table: the text from [<table] to the first [</table>]
    after it, so never an empty text; it returns absent when there is no
    such place. *)
Theorem extract_section_correct (html title : str) :
  match _extract_section html title with
  | Some table =>
      table <> []
      /\ exists pre s post,
          html = pre ++ s /\ section_at title s table post
          /\ (forall pre' s' t' p',
                 html = pre' ++ s' -> section_at title s' t' p' ->
                 length pre <= length pre')
          /\ (forall t' p', section_at title s t' p' ->
                            length table <= length t')
  | None =>
      forall pre s table post,
        html = pre ++ s -> ~ section_at title s table post
  end.
Proof.
  unfold _extract_section.
  destruct (search IS (section_pattern title) html) as [[pre m]|] eqn:E.
  - apply search_some in E. destruct E as (s & -> & Hm & Hfirst).
    destruct (exec_section_at title s m Hm) as (post & Hat & Hshort).
    split.
    + destruct Hat as (t & ws1 & c1 & ws2 & o & body & c2 & _ & -> & _ & _ & _
                       & _ & Ho & _).
      destruct (ci_eq_lt_head o _ Ho) as (o' & ->). discriminate.
    + exists pre, s, post. repeat split; trivial.
      intros pre' s' t' p' Hs Hat'.
      destruct (Nat.le_gt_cases (length pre) (length pre')) as [|Hlt]; trivial.
      destruct (app_shorter _ _ _ _ Hs Hlt) as (e & -> & Hne & ->).
      destruct (section_at_exec _ _ _ _ Hat') as (m' & Hm').
      rewrite (Hfirst pre' e eq_refl Hne) in Hm'. discriminate.
  - intros pre s table post Hs Hat.
    destruct (section_at_exec _ _ _ _ Hat) as (m & Hm).
    rewrite (search_none _ _ _ E pre s Hs) in Hm. discriminate.
Qed.

Lemma search_section_extracted (html title pre : str) (m : marks) :
  search IS (section_pattern title) html = Some (pre, m) ->
  extracted_section html title (group1 m) /\ group1 m <> [].
Proof.
  intros E. apply search_some in E. destruct E as (s & -> & Hm & Hfirst).
  destruct (exec_section_at title s m Hm) as (post & Hat & Hshort).
  split.
  - exists pre, s, post. repeat split; trivial.
    intros pre' s' t' p' Hs Hat'.
    destruct (Nat.le_gt_cases (length pre) (length pre')) as [|Hlt]; trivial.
    destruct (app_shorter _ _ _ _ Hs Hlt) as (e & -> & Hne & ->).
    destruct (section_at_exec _ _ _ _ Hat') as (m' & Hm').
    rewrite (Hfirst pre' e eq_refl Hne) in Hm'. discriminate.
  - destruct Hat as (t & ws1 & c1 & ws2 & o & body & c2 & _ & -> & _ & _ & _
                     & _ & Ho & _).
    destruct (ci_eq_lt_head o _ Ho) as (o' & ->). discriminate.
Qed.

Lemma search_section_none (html title : str) :
  search IS (section_pattern title) html = None -> no_section html title.
Proof.
  intros E pre s table post Hs Hat.
  destruct (section_at_exec _ _ _ _ Hat) as (m & Hm).
  rewrite (search_none _ _ _ E pre s Hs) in Hm. discriminate.
Qed.

Lemma extracted_section_unique (html title t1 t2 : str) :
  extracted_section html title t1 -> extracted_section html title t2 -> t1 = t2.
Proof.
  intros (pre1 & s1 & post1 & Hs1 & Hat1 & Hfirst1 & Hshort1)
         (pre2 & s2 & post2 & Hs2 & Hat2 & Hfirst2 & Hshort2).
  assert (Hpre : length pre1 = length pre2).
  { apply Nat.le_antisymm; [eapply Hfirst1|eapply Hfirst2]; eauto. }
  rewrite Hs1 in Hs2. destruct (app_same_length _ _ _ _ Hs2 Hpre) as [-> ->].
  assert (Hlen : length t1 = length t2).
  { apply Nat.le_antisymm; [eapply Hshort1|eapply Hshort2]; eauto. }
  apply section_at_iff in Hat1, Hat2.
  destruct Hat1 as (_ & _ & _ & _ & E1 & _), Hat2 as (_ & _ & _ & _ & E2 & _).
  rewrite E1 in E2. injection E2 as E2.
  apply (app_same_length _ _ _ _ E2 Hlen).
Qed.

(** The two outcomes of the section extractor. *)
Lemma extract_section_cases (html title : str) :
  (no_section html title /\ _extract_section html title = None)
  \/ exists table,
      extracted_section html title table /\ table <> []
      /\ _extract_section html title = Some table.
Proof.
  unfold _extract_section.
  destruct (search IS (section_pattern title) html) as [[pre m]|] eqn:E.
  - right. exists (group1 m).
    destruct (search_section_extracted _ _ _ _ E). auto.
  - left. split; trivial. apply search_section_none, E.
Qed.

Lemma extract_section_extracted (html title table : str) :
  extracted_section html title table ->
  _extract_section html title = Some table /\ table <> [].
Proof.
  intros H. destruct (extract_section_cases html title)
    as [[Hno _]|(t & Ht & Hne & E)].
  - destruct H as (pre & s & post & Hs & Hat & _).
    destruct (Hno _ _ _ _ Hs Hat).
  - rewrite (extracted_section_unique _ _ _ _ H Ht). auto.
Qed.

Lemma extract_section_missing (html title : str) :
  no_section html title -> _extract_section html title = None.
Proof.
  intros H. destruct (extract_section_cases html title)
    as [[_ E]|(t & (pre & s & post & Hs & Hat & _) & _)]; trivial.
  destruct (H _ _ _ _ Hs Hat).
Qed.

(** ** The history table parser *)

Lemma str_eqb_eq (a b : str) : str_eqb a b = true <-> a = b.
Proof.
  revert b. induction a as [|x a IH]; intros [|y b]; simpl;
    try (split; [discriminate|discriminate]); [tauto|].
  rewrite andb_true_iff, Ascii.eqb_eq, IH. split.
  - intros [-> ->]. reflexivity.
  - intros [= -> ->]. auto.
Qed.

Lemma discardedb_spec (cells : list str) :
  discardedb cells = true <-> discarded cells.
Proof.
  unfold discardedb, discarded, ci_eq.
  rewrite orb_true_iff, Nat.ltb_lt, str_eqb_eq. reflexivity.
Qed.

(** *** The pattern of a row *)

Lemma exec_row_pattern (s : str) :
  exec IS row_pattern s
  = match strip_lits IS (lit "<tr>") s with
    | None => None
    | Some s1 =>
        match search IS (Close :: lits "</tr>") s1 with
        | None => None
        | Some (_, m) => Some (set_open s1 m)
        end
    end.
Proof.
  unfold row_pattern. change (lits "<tr>") with (map Lit (lit "<tr>")).
  rewrite exec_lits. destruct (strip_lits IS (lit "<tr>") s) as [s1|]; trivial.
  change (exec IS ([Open; Star false Dot; Close] ++ lits "</tr>") s1)
    with (option_map (set_open s1)
            (exec IS (Star false Dot :: Close :: lits "</tr>") s1)).
  rewrite (exec_lazy_search IS Dot _ (fun _ => eq_refl)).
  destruct (search IS (Close :: lits "</tr>") s1) as [[pre m]|]; reflexivity.
Qed.

(** A match of the pattern at the head of [s] is a row with the shortest
    body, and the match ends where the row ends. *)
Lemma exec_row_at (s : str) (m : marks) :
  exec IS row_pattern s = Some m ->
  row_at s (group1 m) (m_end m)
  /\ (forall b r, row_at s b r -> length (group1 m) <= length b).
Proof.
  rewrite exec_row_pattern.
  destruct (strip_lits IS (lit "<tr>") s) as [s1|] eqn:E1; [|discriminate].
  destruct (search IS (Close :: lits "</tr>") s1) as [[body m']|] eqn:Es;
    [|discriminate].
  intros [= <-].
  apply search_some in Es. destruct Es as (s' & -> & Hm & Hfirst).
  apply exec_close_lits in Hm. destruct Hm as (post & Hpost & ->).
  rewrite group1_cell. cbn [m_end set_open].
  apply strip_lits_IS in E1, Hpost.
  destruct E1 as (o & -> & Ho), Hpost as (c & -> & Hc).
  split.
  - exists o, c. auto.
  - intros b r (o' & c' & Hs & Ho' & Hc').
    assert (Hlen : length o = length o')
      by (rewrite (ci_eq_length _ _ Ho), (ci_eq_length _ _ Ho'); reflexivity).
    destruct (app_same_length _ _ _ _ Hs Hlen) as [<- E].
    destruct (Nat.le_gt_cases (length body) (length b)) as [|Hlt]; trivial.
    destruct (app_shorter _ _ _ _ E Hlt) as (e & -> & Hne & He).
    specialize (Hfirst b e eq_refl Hne). rewrite <- He in Hfirst.
    assert (Hex : exec IS (Close :: lits "</tr>") (c' ++ r)
                  = Some {| m_open := []; m_close := c' ++ r; m_end := r |}).
    { apply exec_close_lits. exists r. split; trivial.
      apply strip_lits_app. exact Hc'. }
    congruence.
Qed.

Lemma row_at_exec (s body rest : str) :
  row_at s body rest -> exists m, exec IS row_pattern s = Some m.
Proof.
  intros (o & c & -> & Ho & Hc).
  rewrite exec_row_pattern, (strip_lits_app _ o _ Ho).
  destruct (search_found IS (Close :: lits "</tr>") body (c ++ rest)
              {| m_open := []; m_close := c ++ rest; m_end := rest |})
    as (pre' & m' & ->); [|eauto].
  apply exec_close_lits. exists rest. split; trivial.
  apply strip_lits_app. exact Hc.
Qed.

Lemma row_at_det (s b1 r1 b2 r2 : str) :
  row_at s b1 r1 -> row_at s b2 r2 -> length b1 = length b2 ->
  b1 = b2 /\ r1 = r2.
Proof.
  intros (o1 & c1 & -> & Ho1 & Hc1) (o2 & c2 & Hs & Ho2 & Hc2) Hlen.
  assert (Ho : length o1 = length o2)
    by (rewrite (ci_eq_length _ _ Ho1), (ci_eq_length _ _ Ho2); reflexivity).
  destruct (app_same_length _ _ _ _ Hs Ho) as [_ E].
  destruct (app_same_length _ _ _ _ E Hlen) as [-> E'].
  assert (Hc : length c1 = length c2)
    by (rewrite (ci_eq_length _ _ Hc1), (ci_eq_length _ _ Hc2); reflexivity).
  destruct (app_same_length _ _ _ _ E' Hc) as [_ ->]. auto.
Qed.

(** *** The pattern of a cell *)

Lemma in_dh (t : ascii) :
  in_class IS (OneOf ["d"; "h"]%char) t = true
  <-> to_lower t = "d"%char \/ to_lower t = "h"%char.
Proof.
  cbn [in_class existsb]. rewrite orb_false_r, orb_true_iff, !chr_eq_IS.
  reflexivity.
Qed.

Lemma ci_eq_snoc (w : str) (x : ascii) :
  forall o,
    ci_eq o (w ++ [x])
    <-> exists o' t, o = o' ++ [t] /\ ci_eq o' w /\ to_lower t = to_lower x.
Proof.
  unfold ci_eq, lower. induction w as [|a w IH]; intros o; split.
  - destruct o as [|t [|u o]]; try discriminate. cbn. intros [= H].
    exists [], t. auto.
  - intros (o' & t & -> & H1 & H2). destruct o'; [|discriminate].
    cbn. rewrite H2. reflexivity.
  - destruct o as [|y o]; [discriminate|]. cbn [app map]. intros [= Hy H].
    apply IH in H. destruct H as (o' & t & -> & H1 & H2).
    exists (y :: o'), t. cbn [app map]. rewrite Hy, H1. auto.
  - intros (o' & t & -> & H1 & H2). destruct o' as [|y o']; [discriminate|].
    cbn [app map] in *. injection H1 as Hy H1. rewrite Hy. f_equal.
    apply IH. exists o', t. auto.
Qed.

(** The opening tags of a cell. *)
Lemma cell_open_iff (o : str) :
  ci_eq o (lit "<td") \/ ci_eq o (lit "<th")
  <-> exists w t, o = w ++ [t] /\ ci_eq w (lit "<t")
                  /\ (to_lower t = "d"%char \/ to_lower t = "h"%char).
Proof.
  change (lit "<td") with (lit "<t" ++ ["d"%char]).
  change (lit "<th") with (lit "<t" ++ ["h"%char]).
  rewrite !ci_eq_snoc. split.
  - intros [(w & t & -> & Hw & Ht)|(w & t & -> & Hw & Ht)]; exists w, t; auto.
  - intros (w & t & -> & Hw & [Ht|Ht]); [left|right]; exists w, t; auto.
Qed.

(** The closing tags of a cell. *)
Lemma cell_close_iff (c : str) :
  ci_eq c (lit "</td>") \/ ci_eq c (lit "</th>")
  <-> exists w t, c = w ++ [t; ">"%char] /\ ci_eq w (lit "</t")
                  /\ (to_lower t = "d"%char \/ to_lower t = "h"%char).
Proof.
  change (lit "</td>") with ((lit "</t" ++ ["d"%char]) ++ [">"%char]).
  change (lit "</th>") with ((lit "</t" ++ ["h"%char]) ++ [">"%char]).
  rewrite !ci_eq_snoc. split.
  - intros [(c' & g & -> & Hc & Hg)|(c' & g & -> & Hc & Hg)];
      apply ci_eq_snoc in Hc; destruct Hc as (w & t & -> & Hw & Ht);
      apply to_lower_gt in Hg; subst g; exists w, t;
      rewrite <- app_assoc; auto.
  - intros (w & t & -> & Hw & [Ht|Ht]); [left|right];
      exists (w ++ [t]), ">"%char; rewrite <- app_assoc;
      (split; [reflexivity|]); (split; [|reflexivity]);
      apply ci_eq_snoc; exists w, t; auto.
Qed.

Lemma cell_start_iff (s s4 : str) :
  cell_start s = Some s4
  <-> exists o attrs,
      s = o ++ attrs ++ ">"%char :: s4
      /\ (ci_eq o (lit "<td") \/ ci_eq o (lit "<th"))
      /\ Forall (fun a => a <> ">"%char) attrs.
Proof.
  unfold cell_start. split.
  - destruct (strip_lits IS (lit "<t") s) as [[|t s2]|] eqn:E1; try discriminate.
    destruct (in_class IS (OneOf ["d"; "h"]%char) t) eqn:Et; [|discriminate].
    intros E7. apply strip_lits_IS in E1, E7.
    destruct E1 as (w & -> & Hw), E7 as (gt & H7 & Hgt).
    apply (proj1 (ci_eq_gt gt)) in Hgt. subst gt.
    destruct (drop_while_split (in_class IS (NoneOf [">"%char])) s2)
      as (attrs & Hs2 & Hattrs).
    exists (w ++ [t]), attrs. split; [|split].
    + rewrite <- app_assoc. cbn [app]. rewrite Hs2 at 1. rewrite H7. reflexivity.
    + apply cell_open_iff. exists w, t. repeat split; trivial.
      apply in_dh, Et.
    + eapply Forall_impl; [|exact Hattrs]. intros a. apply not_gt_class.
  - intros (o & attrs & -> & Ho & Hattrs).
    apply cell_open_iff in Ho. destruct Ho as (w & t & -> & Hw & Ht).
    rewrite <- app_assoc. cbn [app].
    rewrite (strip_lits_app (lit "<t") w _ Hw).
    rewrite (proj2 (in_dh t) Ht).
    rewrite (drop_while_app (in_class IS (NoneOf [">"%char])) attrs ">" s4).
    + reflexivity.
    + eapply Forall_impl; [|exact Hattrs]. intros a. apply not_gt_class.
    + reflexivity.
Qed.

Lemma cell_end_iff (s post : str) :
  cell_end s = Some post
  <-> exists c, s = c ++ post
                /\ (ci_eq c (lit "</td>") \/ ci_eq c (lit "</th>")).
Proof.
  unfold cell_end. split.
  - destruct (strip_lits IS (lit "</t") s) as [[|t s2]|] eqn:E1; try discriminate.
    destruct (in_class IS (OneOf ["d"; "h"]%char) t) eqn:Et; [|discriminate].
    intros E7. apply strip_lits_IS in E1, E7.
    destruct E1 as (w & -> & Hw), E7 as (gt & -> & Hgt).
    apply (proj1 (ci_eq_gt gt)) in Hgt. subst gt.
    exists (w ++ [t; ">"%char]). split.
    + rewrite <- app_assoc. reflexivity.
    + apply cell_close_iff. exists w, t. repeat split; trivial.
      apply in_dh, Et.
  - intros (c & -> & Hc).
    apply cell_close_iff in Hc. destruct Hc as (w & t & -> & Hw & Ht).
    rewrite <- app_assoc. cbn [app].
    rewrite (strip_lits_app (lit "</t") w _ Hw).
    rewrite (proj2 (in_dh t) Ht). reflexivity.
Qed.

Lemma exec_cell_closer (s : str) :
  exec IS cell_closer s
  = option_map (fun post => {| m_open := []; m_close := s; m_end := post |})
               (cell_end s).
Proof.
  unfold cell_closer, cell_end.
  change (exec IS (Close :: lits "</t" ++ [One (OneOf ["d"; "h"]%char)] ++ lits ">") s)
    with (option_map (set_close s)
            (exec IS (map Lit (lit "</t")
                        ++ [One (OneOf ["d"; "h"]%char)] ++ lits ">") s)).
  rewrite exec_lits.
  destruct (strip_lits IS (lit "</t") s) as [[|t s2]|]; try reflexivity.
  change (exec IS ([One (OneOf ["d"; "h"]%char)] ++ lits ">") (t :: s2))
    with (if in_class IS (OneOf ["d"; "h"]%char) t
          then exec IS (map Lit (lit ">") ++ []) s2 else None).
  destruct (in_class IS (OneOf ["d"; "h"]%char) t); [|reflexivity].
  rewrite exec_lits.
  destruct (strip_lits IS (lit ">") s2); reflexivity.
Qed.

Lemma exec_one_step (fl : flags) (k : cclass) (re : pattern) (t : ascii)
      (s : str) :
  exec fl (One k :: re) (t :: s)
  = if in_class fl k t then exec fl re s else None.
Proof. reflexivity. Qed.

Lemma exec_open_step (fl : flags) (re : pattern) (s : str) :
  exec fl (Open :: re) s = option_map (set_open s) (exec fl re s).
Proof. reflexivity. Qed.

Lemma exec_cell_pattern (s : str) :
  exec IS cell_pattern s
  = match cell_start s with
    | None => None
    | Some s4 =>
        match search IS cell_closer s4 with
        | None => None
        | Some (_, m) => Some (set_open s4 m)
        end
    end.
Proof.
  unfold cell_pattern, cell_start, cell_closer.
  change (lits "<t") with (map Lit (lit "<t")).
  rewrite exec_lits.
  destruct (strip_lits IS (lit "<t") s) as [[|t s2]|]; try reflexivity.
  cbn [app]. rewrite exec_one_step.
  destruct (in_class IS (OneOf ["d"; "h"]%char) t); [|reflexivity].
  change (lits ">") with (map Lit (">"%char :: [])) at 1.
  rewrite (exec_skip_lits IS (NoneOf [">"%char]) ">" _ _ not_gt_not_lit).
  change (strip_lits IS [">"%char]) with (strip_lits IS (lit ">")).
  destruct (strip_lits IS (lit ">")
              (drop_while (in_class IS (NoneOf [">"%char])) s2)) as [s4|]; trivial.
  rewrite exec_open_step, (exec_lazy_search IS Dot _ (fun _ => eq_refl)).
  destruct (search IS (Close :: lits "</t"
                         ++ One (OneOf ["d"; "h"]%char) :: lits ">") s4)
    as [[pre m]|]; reflexivity.
Qed.

Lemma cell_at_iff (s content rest : str) :
  cell_at s content rest
  <-> exists c, cell_start s = Some (content ++ c ++ rest)
                /\ (ci_eq c (lit "</td>") \/ ci_eq c (lit "</th>")).
Proof.
  unfold cell_at. split.
  - intros (o & attrs & c & -> & Ho & Hattrs & Hc). exists c. split; trivial.
    apply cell_start_iff. exists o, attrs. auto.
  - intros (c & H & Hc). apply cell_start_iff in H.
    destruct H as (o & attrs & -> & Ho & Hattrs). exists o, attrs, c. auto.
Qed.

Lemma cell_close_length (c1 c2 : str) :
  ci_eq c1 (lit "</td>") \/ ci_eq c1 (lit "</th>") ->
  ci_eq c2 (lit "</td>") \/ ci_eq c2 (lit "</th>") ->
  length c1 = length c2.
Proof.
  intros [H1|H1] [H2|H2];
    rewrite (ci_eq_length _ _ H1), (ci_eq_length _ _ H2); reflexivity.
Qed.

Lemma exec_cell_at (s : str) (m : marks) :
  exec IS cell_pattern s = Some m ->
  cell_at s (group1 m) (m_end m)
  /\ (forall b r, cell_at s b r -> length (group1 m) <= length b).
Proof.
  rewrite exec_cell_pattern.
  destruct (cell_start s) as [s4|] eqn:E4; [|discriminate].
  destruct (search IS cell_closer s4) as [[content m']|] eqn:Es; [|discriminate].
  intros [= <-].
  apply search_some in Es. destruct Es as (s' & -> & Hm & Hfirst).
  rewrite exec_cell_closer in Hm.
  destruct (cell_end s') as [post|] eqn:Ee; [|discriminate].
  injection Hm as <-.
  apply cell_end_iff in Ee. destruct Ee as (c & -> & Hc).
  rewrite group1_cell. cbn [m_end set_open].
  split.
  - apply cell_at_iff. exists c. auto.
  - intros b r H. apply cell_at_iff in H. destruct H as (c' & E4' & Hc').
    rewrite E4 in E4'. injection E4' as E.
    destruct (Nat.le_gt_cases (length content) (length b)) as [|Hlt]; trivial.
    destruct (app_shorter _ _ _ _ E Hlt) as (e & -> & Hne & He).
    specialize (Hfirst b e eq_refl Hne). rewrite <- He in Hfirst.
    rewrite exec_cell_closer in Hfirst.
    assert (Hex : cell_end (c' ++ r) = Some r)
      by (apply cell_end_iff; exists c'; auto).
    rewrite Hex in Hfirst. discriminate.
Qed.

Lemma cell_at_exec (s content rest : str) :
  cell_at s content rest -> exists m, exec IS cell_pattern s = Some m.
Proof.
  intros H. apply cell_at_iff in H. destruct H as (c & E4 & Hc).
  rewrite exec_cell_pattern, E4.
  destruct (search_found IS cell_closer content (c ++ rest)
              {| m_open := []; m_close := c ++ rest; m_end := rest |})
    as (pre' & m' & ->); [|eauto].
  rewrite exec_cell_closer.
  assert (Hex : cell_end (c ++ rest) = Some rest)
    by (apply cell_end_iff; exists c; auto).
  rewrite Hex. reflexivity.
Qed.

Lemma cell_at_det (s b1 r1 b2 r2 : str) :
  cell_at s b1 r1 -> cell_at s b2 r2 -> length b1 = length b2 ->
  b1 = b2 /\ r1 = r2.
Proof.
  intros H1 H2 Hlen. apply cell_at_iff in H1, H2.
  destruct H1 as (c1 & E1 & Hc1), H2 as (c2 & E2 & Hc2).
  rewrite E1 in E2. injection E2 as E.
  destruct (app_same_length _ _ _ _ E Hlen) as [-> E'].
  destruct (app_same_length _ _ _ _ E' (cell_close_length _ _ Hc1 Hc2)) as [_ ->].
  auto.
Qed.

(** *** The items [findall] returns *)

Lemma findall_split_items (re : pattern)
      (item_at : str -> str -> str -> Prop) :
  0 < min_width re ->
  (forall s m, exec IS re s = Some m ->
               item_at s (group1 m) (m_end m)
               /\ (forall b r, item_at s b r -> length (group1 m) <= length b)) ->
  (forall s b r, item_at s b r -> exists m, exec IS re s = Some m) ->
  forall t, split_items item_at t (findall IS re t).
Proof.
  intros Hw Hexec Hat t. remember (length t) as n eqn:Hn. revert t Hn.
  induction n as [n IH] using lt_wf_ind. intros t Hn.
  rewrite findall_step by exact Hw.
  destruct (search IS re t) as [[pre m]|] eqn:E.
  - assert (Hlen := search_end_length _ _ _ _ _ E).
    apply search_some in E. destruct E as (s' & -> & Hm & Hfirst).
    destruct (Hexec s' m Hm) as [Hitem Hshort].
    apply (split_next item_at (pre ++ s') pre s' (group1 m) (m_end m)); trivial.
    + intros pre2 s2 b2 r2 Hs H2.
      destruct (Nat.le_gt_cases (length pre) (length pre2)) as [|Hlt]; trivial.
      destruct (app_shorter _ _ _ _ Hs Hlt) as (e & -> & Hne & ->).
      destruct (Hat _ _ _ H2) as (m' & Hm').
      rewrite (Hfirst pre2 e eq_refl Hne) in Hm'. discriminate.
    + apply (IH (length (m_end m))); trivial. lia.
  - apply split_done. intros pre s' b r Hs H.
    destruct (Hat _ _ _ H) as (m & Hm).
    rewrite (search_none _ _ _ E pre s' Hs) in Hm. discriminate.
Qed.

Lemma split_items_unique (item_at : str -> str -> str -> Prop) :
  (forall s b1 r1 b2 r2,
      item_at s b1 r1 -> item_at s b2 r2 -> length b1 = length b2 ->
      b1 = b2 /\ r1 = r2) ->
  forall t l1, split_items item_at t l1 ->
               forall l2, split_items item_at t l2 -> l1 = l2.
Proof.
  intros Hdet t l1 H1.
  induction H1 as [s Hno|s pre s' body rest items Hs Hat Hleft Hshort Hrest IH];
    intros l2 H2.
  - destruct H2 as [s Hno2|s pre2 s2 b2 r2 items2 Hs2 Hat2 _ _ _]; trivial.
    destruct (Hno _ _ _ _ Hs2 Hat2).
  - destruct H2 as [s Hno2|s pre2 s2 b2 r2 items2 Hs2 Hat2 Hleft2 Hshort2 Hrest2].
    + destruct (Hno2 _ _ _ _ Hs Hat).
    + assert (Hpre : length pre = length pre2).
      { apply Nat.le_antisymm; [eapply Hleft|eapply Hleft2]; eauto. }
      rewrite Hs in Hs2.
      destruct (app_same_length _ _ _ _ Hs2 Hpre) as [<- <-].
      assert (Hlen : length body = length b2).
      { apply Nat.le_antisymm; [eapply Hshort|eapply Hshort2]; eauto. }
      destruct (Hdet _ _ _ _ _ Hat Hat2 Hlen) as [<- <-].
      f_equal. apply IH, Hrest2.
Qed.

(** The rows of a table are what [row_pattern.findall] returns, and the
    cells of a row what [cell_pattern.findall] returns. *)
Lemma findall_rows_of (table : str) :
  rows_of table (findall IS row_pattern table).
Proof.
  apply findall_split_items.
  - vm_compute. lia.
  - apply exec_row_at.
  - apply row_at_exec.
Qed.

Lemma rows_of_findall (table : str) (rows : list str) :
  rows_of table rows -> rows = findall IS row_pattern table.
Proof.
  intros H. apply (split_items_unique row_at row_at_det table); trivial.
  apply findall_rows_of.
Qed.

Lemma findall_cells_of (row : str) :
  cells_of row (findall IS cell_pattern row).
Proof.
  apply findall_split_items.
  - vm_compute. lia.
  - apply exec_cell_at.
  - apply cell_at_exec.
Qed.

Lemma cells_of_findall (row : str) (contents : list str) :
  cells_of row contents -> contents = findall IS cell_pattern row.
Proof.
  intros H. apply (split_items_unique cell_at cell_at_det row); trivial.
  apply findall_cells_of.
Qed.

Lemma contents_of_rows (rows : list str) :
  Forall2 cells_of rows (map (findall IS cell_pattern) rows).
Proof.
  induction rows as [|row rows IH]; constructor; trivial.
  apply findall_cells_of.
Qed.

Lemma contents_unique (rows : list str) (contents : list (list str)) :
  Forall2 cells_of rows contents ->
  contents = map (findall IS cell_pattern) rows.
Proof.
  induction 1 as [|row cs rows contents Hc _ IH]; trivial.
  cbn [map]. rewrite (cells_of_findall _ _ Hc), IH. reflexivity.
Qed.

(** *** The loop over the rows *)

Lemma comprehension_ok (contents cells : list str) :
  comprehension _clean_html contents = Ok cells
  <-> Forall2 normal_text contents cells.
Proof.
  revert cells. induction contents as [|c contents IH]; intros cells.
  - cbn [comprehension]. split.
    + intros [= <-]. constructor.
    + intros H. inversion H. reflexivity.
  - cbn [comprehension]. split.
    + destruct (_clean_html c) as [v|e] eqn:Ec; [|discriminate]. cbn [bind].
      destruct (comprehension _clean_html contents) as [vs|e] eqn:Er;
        [|discriminate].
      cbn [bind]. intros [= <-]. constructor.
      * apply clean_html_ok, Ec.
      * apply IH. reflexivity.
    + intros H. inversion H as [|? v ? vs Hv Hvs]; subst.
      apply clean_html_ok in Hv. apply IH in Hvs. rewrite Hv, Hvs. reflexivity.
Qed.

Lemma comprehension_raise (contents : list str) (e : exn) :
  comprehension _clean_html contents = Raise e ->
  e = ValueError /\ Exists long_reference contents.
Proof.
  induction contents as [|c contents IH]; [discriminate|].
  cbn [comprehension]. destruct (_clean_html c) as [v|e'] eqn:Ec; cbn [bind].
  - destruct (comprehension _clean_html contents) as [vs|e'];
      cbn [bind]; [discriminate|].
    intros [= <-]. destruct (IH eq_refl) as [-> H]. auto.
  - intros [= <-]. apply clean_html_raise in Ec. destruct Ec as [-> Hc]. auto.
Qed.

Lemma comprehension_long (contents : list str) :
  Exists long_reference contents ->
  comprehension _clean_html contents = Raise ValueError.
Proof.
  induction contents as [|c contents IH]; intros H; [inversion H|].
  cbn [comprehension]. destruct (_clean_html c) as [v|e] eqn:Ec; cbn [bind].
  - inversion H as [? ? Hc|? ? Hr]; subst.
    + apply clean_html_ok, normal_text_short in Ec. contradiction.
    + rewrite (IH Hr). reflexivity.
  - apply clean_html_raise in Ec. destruct Ec as [-> _]. reflexivity.
Qed.

(** One turn of the loop: it raises on a row that fails, and otherwise
    keeps or drops the row of the normalized cells. *)
Lemma history_row_cases (entries : list CapacityHistoryEntry.t) (row : str) :
  (row_fails (findall IS cell_pattern row)
   /\ history_row entries row = Raise ValueError)
  \/ exists cells,
      Forall2 normal_text (findall IS cell_pattern row) cells
      /\ (discarded cells \/ ~ long_capacity cells)
      /\ history_row entries row
         = Ok (if discardedb cells then entries
               else entries ++ [entry_of cells]).
Proof.
  unfold history_row.
  destruct (comprehension _clean_html (findall IS cell_pattern row))
    as [cells|e] eqn:Ec; cbn [bind].
  - apply comprehension_ok in Ec.
    destruct (discardedb cells) eqn:Ed.
    + right. exists cells. rewrite Ed. split; trivial.
      split; [left; apply discardedb_spec, Ed|].
      destruct cells as [|c0 [|c1 [|c2 cells]]]; try reflexivity.
      unfold discardedb in Ed.
      change (length (c0 :: c1 :: c2 :: cells) <? 3) with false in *.
      cbn [getitem nth_error bind orb hd] in *. rewrite Ed. reflexivity.
    + assert (Hkeep : ~ discarded cells).
      { intros Hd. apply discardedb_spec in Hd. congruence. }
      destruct cells as [|c0 [|c1 [|c2 cells']]]; try discriminate Ed.
      assert (Ep : str_eqb (lower c0) (lit "period") = false) by exact Ed.
      change (length (c0 :: c1 :: c2 :: cells') <? 3) with false.
      cbn [getitem nth_error bind]. rewrite Ep. cbn [bind].
      rewrite (parse_int_cases (Some c1)).
      destruct (too_many_digits (Some c1)) eqn:E1; cbn [bind].
      { left. split; trivial. right. exists (c0 :: c1 :: c2 :: cells').
        repeat split; trivial. left. exact E1. }
      rewrite (parse_int_cases (Some c2)).
      destruct (too_many_digits (Some c2)) eqn:E2; cbn [bind].
      { left. split; trivial. right. exists (c0 :: c1 :: c2 :: cells').
        repeat split; trivial. right. exact E2. }
      right. exists (c0 :: c1 :: c2 :: cells'). rewrite Ed.
      split; trivial. split; [|reflexivity].
      right. intros [H|H]; cbn [nth] in H; congruence.
  - left. apply comprehension_raise in Ec. destruct Ec as [-> H].
    split; trivial. left. exact H.
Qed.

Lemma for_rows_cases (rows : list str) :
  forall entries,
    (Exists row_fails (map (findall IS cell_pattern) rows)
     /\ for_rows rows entries = Raise ValueError)
    \/ exists cellss,
        Forall2 (Forall2 normal_text) (map (findall IS cell_pattern) rows) cellss
        /\ Forall (fun cells => discarded cells \/ ~ long_capacity cells) cellss
        /\ for_rows rows entries
           = Ok (entries
                 ++ map entry_of
                      (filter (fun cells => negb (discardedb cells)) cellss)).
Proof.
  induction rows as [|row rows IH]; intros entries.
  - right. exists []. cbn. rewrite app_nil_r. auto.
  - cbn [for_rows map].
    destruct (history_row_cases entries row)
      as [[Hfail ->]|(cells & Hcells & Hok & ->)]; cbn [bind].
    + left. auto.
    + destruct (IH (if discardedb cells then entries
                    else entries ++ [entry_of cells]))
        as [[Hfail ->]|(cellss & Hcellss & Hoks & ->)].
      * left. auto.
      * right. exists (cells :: cellss). repeat split; auto.
        cbn [filter]. destruct (discardedb cells); cbn [negb map]; trivial.
        rewrite <- app_assoc. reflexivity.
Qed.

Lemma parse_capacity_history_missing (html : str) :
  no_section html history_title -> _parse_capacity_history html = Ok [].
Proof.
  intros H. unfold _parse_capacity_history.
  fold history_title. rewrite (extract_section_missing _ _ H). reflexivity.
Qed.

Lemma parse_capacity_history_section (html table : str) :
  extracted_section html history_title table ->
  _parse_capacity_history html = for_rows (findall IS row_pattern table) [].
Proof.
  intros H. unfold _parse_capacity_history. fold history_title.
  destruct (extract_section_extracted _ _ _ H) as [-> Hne].
  destruct table; [congruence|reflexivity].
Qed.

Lemma parse_capacity_history_found (html table : str) :
  _extract_section html history_title = Some table ->
  _parse_capacity_history html = for_rows (findall IS row_pattern table) [].
Proof.
  intros H. destruct (extract_section_cases html history_title)
    as [[_ E]|(t & Ht & _ & E)]; [congruence|].
  rewrite H in E. injection E as <-.
  apply parse_capacity_history_section, Ht.
Qed.

(** The parser raises nothing but [ValueError]. *)
Lemma parse_capacity_history_raise (html : str) (e : exn) :
  _parse_capacity_history html = Raise e -> e = ValueError.
Proof.
  destruct (extract_section_cases html history_title)
    as [[Hno _]|(table & Ht & _ & _)].
  - rewrite (parse_capacity_history_missing _ Hno). discriminate.
  - rewrite (parse_capacity_history_section _ _ Ht).
    destruct (for_rows_cases (findall IS row_pattern table) [])
      as [[_ ->]|(cellss & _ & _ & ->)]; [|discriminate].
    intros [= <-]. reflexivity.
Qed.

(** The entries of a returned history are entries of kept rows of
    normalized cells. *)
Lemma history_entry_cells (html : str) (h : list CapacityHistoryEntry.t)
      (e : CapacityHistoryEntry.t) :
  _parse_capacity_history html = Ok h -> In e h ->
  exists contents cells,
    Forall2 normal_text contents cells
    /\ discardedb cells = false /\ e = entry_of cells.
Proof.
  destruct (extract_section_cases html history_title)
    as [[Hno _]|(table & Ht & _ & _)].
  - rewrite (parse_capacity_history_missing _ Hno). intros [= <-] [].
  - rewrite (parse_capacity_history_section _ _ Ht).
    destruct (for_rows_cases (findall IS row_pattern table) [])
      as [[_ ->]|(cellss & Hcellss & _ & ->)]; [discriminate|].
    cbn [app]. intros [= <-] He.
    apply in_map_iff in He. destruct He as (cells & <- & He).
    apply filter_In in He. destruct He as [He Hkeep].
    apply negb_true_iff in Hkeep.
    revert He. clear -Hcellss Hkeep.
    induction Hcellss as [|cs cl css cls Hc _ IH]; intros [].
    + subst cl. exists cs, cells. auto.
    + auto.
Qed.

(** C5, as amended: without a capacity-history section the parser returns
    the empty sequence.  Otherwise it reads the table of the section, takes
    as rows the texts between a bare [<tr>] and the next [</tr>] and as
    cells of a row the texts between [<td ...>] or [<th ...>] and the next
    [</td>] or [</th>], and normalizes every cell; it drops exactly the
    rows with fewer than 3 cells or with "period", in any case, as first
    cell, and turns each other row, in the order of the rows, into the
    entry of its first three cells.  It raises [ValueError] when a cell
    holds a decimal character reference of more than 4300 digits or a
    capacity cell of a kept row holds more than 4300 digits. *)
Theorem parse_capacity_history_correct :
  (forall html,
      no_section html history_title -> _parse_capacity_history html = Ok [])
  /\ (forall html table rows contents,
         extracted_section html history_title table ->
         rows_of table rows ->
         Forall2 cells_of rows contents ->
         match _parse_capacity_history html with
         | Ok h =>
             exists cellss,
               Forall2 (Forall2 normal_text) contents cellss
               /\ Forall (fun cells => discarded cells \/ ~ long_capacity cells)
                         cellss
               /\ h = map entry_of
                        (filter (fun cells => negb (discardedb cells)) cellss)
         | Raise e => e = ValueError /\ Exists row_fails contents
         end)
  /\ (forall html,
         no_section html history_title
         \/ exists table rows contents,
             extracted_section html history_title table
             /\ rows_of table rows /\ Forall2 cells_of rows contents)
  /\ (forall cells, discardedb cells = true <-> discarded cells)
  /\ _parse_capacity_history one_entry_history = Ok [entry_2024].
Proof.
  split; [exact parse_capacity_history_missing|].
  split; [|split; [|split; [exact discardedb_spec|reflexivity]]].
  - intros html table rows contents Hsec Hrows Hcells.
    rewrite (parse_capacity_history_section _ _ Hsec).
    rewrite <- (rows_of_findall _ _ Hrows), (contents_unique _ _ Hcells).
    destruct (for_rows_cases rows [])
      as [[Hfail ->]|(cellss & Hcellss & Hoks & ->)]; eauto.
  - intros html. destruct (extract_section_cases html history_title)
      as [[Hno _]|(table & Ht & _ & _)]; [left; exact Hno|].
    right. exists table, (findall IS row_pattern table),
      (map (findall IS cell_pattern) (findall IS row_pattern table)).
    split; trivial. split; [apply findall_rows_of|apply contents_of_rows].
Qed.

(** ** The report parser *)

Lemma lookup_cases (html : str) (f : field) :
  (exists o, _find_label_value html (label_of f) = Ok o
             /\ lookup_reads html f o)
  \/ (_find_label_value html (label_of f) = Raise ValueError
      /\ field_fails html f).
Proof.
  destruct (find_label_value_cases html (label_of f))
    as [[Hno E]|(content & Hcell & [(v & Hv & E)|(Hlong & E)])].
  - left. exists None. split; trivial. left. auto.
  - left. exists (Some v). split; trivial. right. exists content, v. auto.
  - right. split; trivial. exists content. auto.
Qed.

Lemma text_reads (html : str) (f : field) (o : option str) :
  is_numeric f = false -> lookup_reads html f o ->
  field_reads html f (Text o).
Proof.
  intros Hf [[Hno ->]|(content & text & Hcell & Htext & ->)].
  - left. split; trivial. unfold absent. rewrite Hf. reflexivity.
  - right. exists content, text. repeat split; trivial.
    + rewrite Hf. discriminate.
    + unfold looked_up. rewrite Hf. reflexivity.
Qed.

Lemma numeric_reads (html : str) (f : field) (o : option str) (n : option Z) :
  is_numeric f = true -> lookup_reads html f o -> _parse_int o = Ok n ->
  field_reads html f (Number n).
Proof.
  intros Hf [[Hno ->]|(content & text & Hcell & Htext & ->)] Hn.
  - injection Hn as <-. left. split; trivial.
    unfold absent. rewrite Hf. reflexivity.
  - apply parse_int_ok in Hn. destruct Hn as [-> Hfew].
    right. exists content, text. repeat split; trivial.
    unfold looked_up. rewrite Hf. reflexivity.
Qed.

Lemma numeric_fails (html : str) (f : field) (o : option str) (e : exn) :
  is_numeric f = true -> lookup_reads html f o -> _parse_int o = Raise e ->
  e = ValueError /\ field_fails html f.
Proof.
  intros Hf [[Hno ->]|(content & text & Hcell & Htext & ->)] Hn;
    [discriminate Hn|].
  apply parse_int_raise in Hn. destruct Hn as [-> Hmany].
  split; trivial. exists content. split; trivial. right. split; trivial.
  exists text. auto.
Qed.


Ltac lookup_text html f o H :=
  let E := fresh "E" in
  let Hf := fresh "Hf" in
  destruct (lookup_cases html f) as [(o & E & H)|[E Hf]];
  cbn [label_of] in E; rewrite E; cbn [bind];
  [|right; split; [reflexivity|left; exists f; exact Hf]].

Ltac lookup_number html f o n H :=
  let E := fresh "E" in
  let Hf := fresh "Hf" in
  let Ho := fresh "Ho" in
  let En := fresh "En" in
  destruct (lookup_cases html f) as [(o & E & Ho)|[E Hf]];
  cbn [label_of] in E; rewrite E; cbn [bind];
  [|right; split; [reflexivity|left; exists f; exact Hf]];
  destruct (_parse_int o) as [n|?e] eqn:En; cbn [bind];
  [assert (H := numeric_reads html f o n eq_refl Ho En)
  |destruct (numeric_fails html f o _ eq_refl Ho En) as [-> Hf];
   right; split; [reflexivity|left; exists f; exact Hf]].

(** The outcomes of the report parser. *)
Lemma parse_html_cases (html : str) :
  (exists r,
      parse_html html = Ok r
      /\ (forall f, field_reads html f (field_value r f))
      /\ _parse_capacity_history html = Ok (history_of r))
  \/ (parse_html html = Raise ValueError
      /\ ((exists f, field_fails html f)
          \/ _parse_capacity_history html = Raise ValueError)).
Proof.
  unfold parse_html, _parse_system_info.
  lookup_text html FName name Hname.
  lookup_text html FManufacturer manufacturer Hmanufacturer.
  lookup_text html FChemistry chemistry Hchemistry.
  lookup_number html FDesignCapacity design_text design Hdesign.
  lookup_number html FFullChargeCapacity full_text full Hfull.
  lookup_number html FCycleCount cycle_text cycles Hcycles.
  lookup_text html FProduct product Hproduct.
  lookup_text html FBios bios Hbios.
  lookup_text html FOsBuild os_build Hos_build.
  lookup_text html FReportTime report_time Hreport_time.
  destruct (_parse_capacity_history html) as [h|e] eqn:Eh; cbn [bind].
  - left. eexists. split; [reflexivity|]. split; [|reflexivity].
    intros []; cbn [field_value SystemInfo.product SystemInfo.bios
                    SystemInfo.os_build SystemInfo.report_time
                    BatteryInfo.name BatteryInfo.manufacturer
                    BatteryInfo.chemistry BatteryInfo.design_capacity_mwh
                    BatteryInfo.full_charge_capacity_mwh
                    BatteryInfo.cycle_count];
      trivial; apply text_reads; trivial.
  - rewrite (parse_capacity_history_raise html e Eh). auto.
Qed.


(** ** The pipeline and the clock *)

(** C8, as amended: the result of the report parser depends only on the
    text of the document, and so does every part of the payload other
    than [generated_at], which is the reading of the clock followed by
    "Z"; two runs on the same text agree on whether and how they fail. *)
Theorem pipeline_deterministic
        (utcnow1 utcnow2 : string) (fs1 fs2 : filesystem) (path1 path2 : string) :
  fs1 path1 = fs2 path2 ->
  parse_battery_report fs1 path1 = parse_battery_report fs2 path2
  /\ match main_payload utcnow1 fs1 path1, main_payload utcnow2 fs2 path2 with
     | Ok p1, Ok p2 =>
         payload_content p1 = payload_content p2
         /\ Payload.generated_at p1 = (utcnow1 ++ "Z")%string
         /\ Payload.generated_at p2 = (utcnow2 ++ "Z")%string
     | Raise e1, Raise e2 => e1 = e2
     | _, _ => False
     end.
Proof.
  intros Hdoc.
  assert (Hparse : parse_battery_report fs1 path1 = parse_battery_report fs2 path2).
  { unfold parse_battery_report. rewrite Hdoc. reflexivity. }
  split; trivial.
  unfold main_payload. rewrite <- Hparse.
  destruct (parse_battery_report fs1 path1) as [[[sys bat] hist]|e]; cbn [bind];
    trivial.
  unfold build_payload. destruct (compute_health bat) as [h|e]; cbn [bind]; auto.
Qed.

(** ** Further properties of the scorer and of numeric coercion *)

(** X1: the cycle penalty never decreases as the cycle count grows; it is 0
    exactly below 550 cycles and at its cap of 15 exactly from 1250 cycles. *)
Theorem cycle_penalty_monotone :
  (forall c1 c2 : Z,
      (c1 <= c2)%Z ->
      (cycle_penalty_of (Some c1) <= cycle_penalty_of (Some c2))%Z)
  /\ (forall c : Z, cycle_penalty_of (Some c) = 0%Z <-> (c < 550)%Z)
  /\ (forall c : Z, cycle_penalty_of (Some c) = 15%Z <-> (1250 <= c)%Z).
Proof.
  assert (H : forall c, cycle_penalty_of (Some c)
                        = if (c <=? 500)%Z then 0%Z
                          else Z.min 15 ((c - 500) / 50))
    by (intros c; rewrite cycle_penalty_of_spec; reflexivity).
  split; [|split].
  - intros c1 c2 Hle. rewrite !H.
    destruct (Z.leb_spec c1 500), (Z.leb_spec c2 500); try lia.
    + assert (0 <= (c2 - 500) / 50)%Z by (apply Z.div_pos; lia). lia.
    + assert ((c1 - 500) / 50 <= (c2 - 500) / 50)%Z
        by (apply Z.div_le_mono; lia). lia.
  - intros c. rewrite H. destruct (Z.leb_spec c 500); [lia|].
    Z.div_mod_to_equations. lia.
  - intros c. rewrite H. destruct (Z.leb_spec c 500); [lia|].
    Z.div_mod_to_equations. lia.
Qed.

Lemma filter_no_digit (s : str) :
  forallb (fun c => negb (decimal_digit c)) s = true ->
  filter decimal_digit s = [].
Proof.
  induction s as [|c s IH]; trivial. cbn [forallb filter]. intros H.
  apply andb_true_iff in H. destruct H as [Hc Hs].
  apply negb_true_iff in Hc. rewrite Hc. auto.
Qed.

Lemma decimal_value_app (a b : str) :
  decimal_value (a ++ b)
  = (decimal_value a * 10 ^ Z.of_nat (length b) + decimal_value b)%Z.
Proof.
  induction a as [|c a IH]; [simpl; lia|].
  cbn [app decimal_value]. rewrite IH, length_app, Nat2Z.inj_add.
  rewrite Z.pow_add_r by lia. ring.
Qed.

Lemma coerce_spec_filter (s : str) :
  coerce_spec (Some s)
  = match filter decimal_digit s with
    | [] => None
    | ds => Some (decimal_value ds)
    end.
Proof. destruct s; reflexivity. Qed.

(** X2: numeric coercion reads only the digits: characters that are not
    digits can be inserted anywhere without changing the outcome (so a
    sign, a decimal point, a thousands separator or a unit is dropped
    silently), and the digits of two pieces are read as one number, the
    first piece shifted by the number of digits of the second, unless the
    two pieces have more than 4300 digits together, where coercion raises
    [ValueError]. *)
Theorem parse_int_reads_digits_only :
  (forall a sep b : str,
      forallb (fun c => negb (decimal_digit c)) sep = true ->
      _parse_int (Some (a ++ sep ++ b)) = _parse_int (Some (a ++ b)))
  /\ (forall (a b : str) (x y : Z),
         _parse_int (Some a) = Ok (Some x) ->
         _parse_int (Some b) = Ok (Some y) ->
         _parse_int (Some (a ++ b))
         = if too_many_digits (Some (a ++ b)) then Raise ValueError
           else Ok (Some (x * 10 ^ Z.of_nat (length (filter decimal_digit b))
                          + y)%Z)).
Proof.
  split.
  - intros a sep b Hsep. rewrite !parse_int_cases, !coerce_spec_filter.
    unfold too_many_digits.
    rewrite !filter_app, (filter_no_digit sep Hsep). reflexivity.
  - intros a b x y Ha Hb. apply parse_int_ok in Ha, Hb.
    destruct Ha as [Ha _], Hb as [Hb _]. symmetry in Ha, Hb.
    apply coerce_spec_some in Ha, Hb.
    destruct Ha as [Hane ->], Hb as [Hbne ->].
    rewrite parse_int_cases.
    destruct (too_many_digits (Some (a ++ b))); trivial.
    rewrite coerce_spec_filter, filter_app, <- decimal_value_app.
    destruct (filter decimal_digit a ++ filter decimal_digit b) eqn:E; trivial.
    apply app_eq_nil in E. destruct E; contradiction.
Qed.

(** ** Further properties of the float arithmetic of the scorer *)

(** Rounding a non-negative mantissa gives a zero, a finite float or an
    infinity. *)
Lemma binary_round_aux_not_nan (s : bool) (q e : Z) (l : location) :
  (0 <= q)%Z -> binary_round_aux F64.prec F64.emax s q e l <> S754_nan.
Proof.
  intros Hq. unfold binary_round_aux.
  destruct (shr_fexp_spec q e l Hq) as (mrs1 & -> & Hm1).
  set (k0 := Z.max 0 (fexp F64.prec F64.emax (Zdigits2 q + e) - e)) in *.
  set (m2 := round_nearest_even (shr_m mrs1) (loc_of_shr_record mrs1)).
  assert (Hm1pos : (0 <= shr_m mrs1)%Z).
  { rewrite Hm1. apply Z.div_pos; trivial. apply Z.pow_pos_nonneg; lia. }
  assert (Hm2 : (shr_m mrs1 <= m2 <= shr_m mrs1 + 1)%Z)
    by apply round_nearest_even_range.
  destruct (shr_fexp_spec m2 (e + k0) loc_Exact ltac:(lia)) as (mrs2 & -> & Hm3).
  assert (Hm3pos : (0 <= shr_m mrs2)%Z).
  { rewrite Hm3. apply Z.div_pos; [lia|]. apply Z.pow_pos_nonneg; lia. }
  destruct (shr_m mrs2) as [|p|p]; try discriminate; [|lia].
  destruct (_ <=? _)%Z; discriminate.
Qed.

Lemma div_core_nonneg (n d : Z) :
  (0 <= n)%Z -> (0 < d)%Z ->
  let '(q, _, _) := SFdiv_core_binary F64.prec F64.emax n 0 d 0 in (0 <= q)%Z.
Proof.
  intros Hn Hd. unfold SFdiv_core_binary.
  set (e := Z.min _ _).
  set (m' := match (0 - 0 - e)%Z with
             | Zpos _ => Z.shiftl n (0 - 0 - e)
             | Z0 => n
             | Zneg _ => 0%Z
             end).
  assert (Hm' : (0 <= m')%Z).
  { subst m'. destruct (0 - 0 - e)%Z; try lia. apply Z.shiftl_nonneg. exact Hn. }
  destruct (Z.div_eucl m' d) as [q r] eqn:Ediv.
  assert (Hq : q = (m' / d)%Z) by (unfold Z.div; rewrite Ediv; reflexivity).
  rewrite Hq. apply Z.div_pos; lia.
Qed.

Lemma round_quotient_not_nan (s : bool) (n d : Z) :
  (0 <= n)%Z -> (0 < d)%Z -> F64.round_quotient s n d <> S754_nan.
Proof.
  intros Hn Hd. unfold F64.round_quotient.
  assert (H := div_core_nonneg n d Hn Hd).
  destruct (SFdiv_core_binary F64.prec F64.emax n 0 d 0) as [[q e] l].
  apply binary_round_aux_not_nan. exact H.
Qed.

Lemma div_half_even_nonneg (n d : Z) :
  (0 <= n)%Z -> (0 < d)%Z -> (0 <= F64.div_half_even n d)%Z.
Proof.
  intros Hn Hd. unfold F64.div_half_even.
  assert (0 <= n / d)%Z by (apply Z.div_pos; lia).
  destruct (2 * (n mod d) ?= d)%Z; [destruct (Z.even (n / d))|..]; lia.
Qed.

Lemma round_not_nan (x : F64.float) (ndigits : N) :
  x <> S754_nan -> F64.round x ndigits <> S754_nan.
Proof.
  intros Hx. destruct x as [s|s| |s m e]; trivial. unfold F64.round.
  destruct (323 <? ndigits)%N; [discriminate|].
  set (p := (10 ^ Z.of_N ndigits)%Z).
  assert (Hp : (0 < p)%Z) by (apply Z.pow_pos_nonneg; lia).
  set (k := if (0 <=? e)%Z then (Zpos m * 2 ^ e * p)%Z
            else F64.div_half_even (Zpos m * p) (2 ^ (- e))).
  assert (Hk : (0 <= k)%Z).
  { subst k. destruct (Z.leb_spec 0 e).
    - assert (0 < 2 ^ e)%Z by (apply Z.pow_pos_nonneg; lia). nia.
    - apply div_half_even_nonneg; [nia|]. apply Z.pow_pos_nonneg; lia. }
  destruct k as [|pk|pk] eqn:Ek; [discriminate| |lia].
  apply round_quotient_not_nan; lia.
Qed.

(** True division returns a zero or a finite float. *)
Lemma true_div_shape (a b : Z) (q : F64.float) :
  F64.true_div a b = Ok q ->
  (exists s, q = S754_zero s) \/ (exists s m e, q = S754_finite s m e).
Proof.
  unfold F64.true_div.
  destruct a as [|pa|pa], b as [|pb|pb]; try discriminate;
    try (intros [= <-]; left; eauto; fail);
    match goal with
    | |- context [F64.round_quotient ?s ?n ?d] =>
        assert (Hn := round_quotient_not_nan s n d ltac:(simpl; lia)
                        ltac:(simpl; lia));
        destruct (F64.round_quotient s n d) as [s0|s0| |s0 m0 e0]; intros H;
        [ injection H as <-; left; eauto
        | discriminate H
        | exfalso; apply Hn; reflexivity
        | injection H as <-; right; eauto ]
    end.
Qed.

Lemma mul_hundred_not_nan (q : F64.float) :
  (exists s, q = S754_zero s) \/ (exists s m e, q = S754_finite s m e) ->
  SFmul F64.prec F64.emax q F64.hundred <> S754_nan.
Proof.
  intros [[s ->]|(s & m & e & ->)]; [discriminate|].
  unfold F64.hundred. cbn [SFmul]. apply binary_round_aux_not_nan. lia.
Qed.

Lemma binary_normalize_not_nan (m e : Z) (szero : bool) :
  binary_normalize F64.prec F64.emax m e szero <> S754_nan.
Proof.
  unfold binary_normalize, binary_round.
  destruct m as [|p|p]; [discriminate| |];
    destruct (shl_align _ _ _) as [mz ez];
    apply binary_round_aux_not_nan; lia.
Qed.

Lemma sub_hundred_not_nan (h : F64.float) :
  h <> S754_nan -> SFsub F64.prec F64.emax F64.hundred h <> S754_nan.
Proof.
  intros Hh. destruct h as [s|s| |s m e]; try discriminate; [contradiction|].
  unfold F64.hundred. cbn [SFsub]. apply binary_normalize_not_nan.
Qed.

Lemma health_pct_of_some (d f : option Z) (h : F64.float) :
  health_pct_of d f = Ok (Some h) ->
  exists dv fv q,
    d = Some dv /\ f = Some fv /\ dv <> 0%Z /\ fv <> 0%Z
    /\ F64.true_div fv dv = Ok q
    /\ h = F64.round (SFmul F64.prec F64.emax q F64.hundred) 2.
Proof.
  destruct d as [dv|]; [|discriminate]. destruct f as [fv|]; [|discriminate].
  destruct (Z.eq_dec dv 0) as [->|Hd]; [discriminate|].
  destruct (Z.eq_dec fv 0) as [->|Hf].
  { unfold health_pct_of. rewrite orb_true_r. discriminate. }
  rewrite (health_pct_of_div dv fv Hd Hf).
  destruct (F64.true_div fv dv) as [q|e] eqn:E; [|discriminate].
  cbn [bind]. intros [= <-]. exists dv, fv, q. auto 10.
Qed.

(** X3: no assessment holds a NaN: the health and the degradation
    percentage are zeros, finite floats or infinities. *)
Theorem health_never_nan (b : BatteryInfo.t) (a : Health.t) :
  compute_health b = Ok a ->
  Health.health_percentage a <> Some S754_nan
  /\ Health.degradation_percentage a <> Some S754_nan.
Proof.
  intros Ha.
  destruct (compute_health_cases b) as [(h & d & Hh & Hd & Hb)|[_ Hb]];
    rewrite Hb in Ha; [|discriminate].
  injection Ha as <-. cbn [Health.health_percentage Health.degradation_percentage].
  destruct h as [h|].
  - apply health_pct_of_some in Hh.
    destruct Hh as (dv & fv & q & _ & _ & _ & _ & Hq & ->).
    assert (Hnan : F64.round (SFmul F64.prec F64.emax q F64.hundred) 2 <> S754_nan).
    { apply round_not_nan, mul_hundred_not_nan. eapply true_div_shape; eauto. }
    rewrite degradation_pct_of_some in Hd. injection Hd as <-.
    split; intros [= H]; [contradiction|].
    revert H. apply round_not_nan, sub_hundred_not_nan. exact Hnan.
  - simpl in Hd. injection Hd as <-. split; discriminate.
Qed.

(** A non-zero int divided by itself is [1.0]. *)
Lemma true_div_same (n : Z) :
  n <> 0%Z -> F64.true_div n n = Ok (S754_finite false 4503599627370496 (-52)).
Proof.
  intros Hn.
  assert (H : forall p : positive,
             F64.round_quotient false (Zpos p) (Zpos p)
             = S754_finite false 4503599627370496 (-52)).
  { intros p. unfold F64.round_quotient, SFdiv_core_binary.
    replace (Zdigits2 (Zpos p) + 0 - (Zdigits2 (Zpos p) + 0))%Z with 0%Z by lia.
    change (Z.min (fexp F64.prec F64.emax 0) (0 - 0)) with (-53)%Z.
    change (0 - 0 - -53)%Z with 53%Z. cbv iota.
    rewrite Z.shiftl_mul_pow2 by lia.
    assert (E : Z.div_eucl (Zpos p * 2 ^ 53) (Zpos p) = (2 ^ 53, 0)%Z).
    { rewrite (surjective_pairing (Z.div_eucl (Zpos p * 2 ^ 53) (Zpos p))).
      change (fst (Z.div_eucl (Zpos p * 2 ^ 53) (Zpos p)))
        with (Zpos p * 2 ^ 53 / Zpos p)%Z.
      change (snd (Z.div_eucl (Zpos p * 2 ^ 53) (Zpos p)))
        with ((Zpos p * 2 ^ 53) mod Zpos p)%Z.
      rewrite Z.mul_comm, Z.div_mul, Z.mod_mul by lia. reflexivity. }
    rewrite E.
    assert (L : new_location (Zpos p) 0 = loc_Exact).
    { unfold new_location, new_location_even, new_location_odd.
      destruct (Z.even (Zpos p)); reflexivity. }
    rewrite L. vm_compute. reflexivity. }
  unfold F64.true_div. destruct n as [|p|p]; [congruence| |]; cbn [Z.abs Z.ltb Z.compare xorb];
    rewrite H; reflexivity.
Qed.

(** X4: a battery whose full-charge capacity equals its design capacity,
    whatever that non-zero capacity is, has health 100.0, degradation 0.0
    and the band "18-24 months". *)
Theorem equal_capacities_full_health (n : Z) (cycles : option Z) :
  n <> 0%Z ->
  compute_health (battery_of (Some n) (Some n) cycles)
  = Ok {| Health.health_percentage := Some F64.hundred;
          Health.degradation_percentage := Some (S754_zero false);
          Health.cycle_penalty := cycle_penalty_of cycles;
          Health.estimated_remaining_life := "18-24 months" |}.
Proof.
  intros Hn. unfold compute_health, battery_of.
  cbn [BatteryInfo.design_capacity_mwh BatteryInfo.full_charge_capacity_mwh
       BatteryInfo.cycle_count].
  rewrite (health_pct_of_div n n Hn Hn), (true_div_same n Hn). cbn [bind].
  change (F64.round (SFmul F64.prec F64.emax
                       (S754_finite false 4503599627370496 (-52)) F64.hundred) 2)
    with F64.hundred.
  rewrite degradation_pct_of_some.
  change (F64.round (SFsub F64.prec F64.emax F64.hundred F64.hundred) 2)
    with (S754_zero false).
  reflexivity.
Qed.

(** ** Further properties of the report parser and of the pipeline *)

Lemma entry_of_nonneg (cells : list str) (n : Z) :
  CapacityHistoryEntry.full_charge_capacity_mwh (entry_of cells) = Some n
  \/ CapacityHistoryEntry.design_capacity_mwh (entry_of cells) = Some n ->
  (0 <= n)%Z.
Proof.
  unfold entry_of.
  intros [H|H];
    cbn [CapacityHistoryEntry.full_charge_capacity_mwh
         CapacityHistoryEntry.design_capacity_mwh] in H;
    exact (coerce_spec_nonneg _ _ H).
Qed.

Lemma field_number_nonneg (html : str) (f : field) (n : Z) :
  field_reads html f (Number (Some n)) -> (0 <= n)%Z.
Proof.
  intros [[_ H]|(content & text & _ & _ & _ & H)];
    unfold absent, looked_up in H;
    destruct (is_numeric f); try discriminate H.
  assert (E : coerce_spec (Some text) = Some n) by congruence.
  exact (coerce_spec_nonneg _ _ E).
Qed.

(** X5: the parser never yields a negative number: every numeric field of
    the battery and of every history entry is absent or at least 0, since
    coercion drops a sign. *)
Theorem parsed_numbers_nonneg (html : str) (r : parsed) :
  parse_html html = Ok r ->
  (forall f n, field_value r f = Number (Some n) -> (0 <= n)%Z)
  /\ (forall e n,
         In e (history_of r) ->
         CapacityHistoryEntry.full_charge_capacity_mwh e = Some n
         \/ CapacityHistoryEntry.design_capacity_mwh e = Some n ->
         (0 <= n)%Z).
Proof.
  intros Hr. destruct (parse_html_cases html)
    as [(r' & Hr' & Hf & Hh)|[E _]]; [|congruence].
  rewrite Hr in Hr'. injection Hr' as <-. split.
  - intros f n H. apply (field_number_nonneg html f). rewrite <- H. apply Hf.
  - intros e n He Hn.
    destruct (history_entry_cells _ _ _ Hh He) as (contents & cells & _ & _ & ->).
    eapply entry_of_nonneg; eauto.
Qed.




(** ** Further properties of the field extractor *)

Lemma search_ext (fl : flags) (re1 re2 : pattern) :
  (forall s, exec fl re1 s = exec fl re2 s) ->
  forall s, search fl re1 s = search fl re2 s.
Proof.
  intros H. induction s as [|c s IH]; cbn [search]; rewrite H; [reflexivity|].
  rewrite IH. reflexivity.
Qed.

Lemma strip_lits_ci (l1 : str) :
  forall l2 s, ci_eq l1 l2 -> strip_lits IS l1 s = strip_lits IS l2 s.
Proof.
  unfold ci_eq.
  induction l1 as [|c l1 IH]; intros [|d l2] s H; try discriminate; trivial.
  cbn [lower map] in H. injection H as Hc H.
  cbn [strip_lits]. destruct s as [|t s]; trivial.
  unfold chr_eq. cbn [ignorecase IS]. rewrite Hc.
  destruct (Ascii.eqb (to_lower d) (to_lower t)); trivial. apply IH. exact H.
Qed.

(** X7: the extractor does not tell the case of its label: two labels that
    differ only in the case of their letters give the same result on every
    document. *)
Theorem find_label_value_label_case (html l1 l2 : str) :
  ci_eq l1 l2 -> _find_label_value html l1 = _find_label_value html l2.
Proof.
  intros H. unfold _find_label_value.
  rewrite (search_ext IS (label_pattern l1) (label_pattern l2)); trivial.
  intros s. rewrite !exec_label_pattern. unfold value_cell_start.
  rewrite (strip_lits_ci l1 l2 s H). reflexivity.
Qed.

Lemma ci_eq_app_split (p l lab : str) :
  ci_eq lab (p ++ l) ->
  exists lab1 lab2, lab = lab1 ++ lab2 /\ ci_eq lab2 l.
Proof.
  unfold ci_eq. revert lab. induction p as [|c p IH]; intros lab H.
  - exists [], lab. auto.
  - destruct lab as [|a lab]; [discriminate|].
    cbn [app lower map] in H. injection H as _ H.
    destruct (IH lab H) as (lab1 & lab2 & -> & H2).
    exists (a :: lab1), lab2. auto.
Qed.

(** An occurrence of a label with its value cell holds one of every tail of
    the label, with the same cell. *)
Lemma label_cell_tail (p l s content post : str) :
  label_cell (p ++ l) s content post ->
  exists s1 s2, s = s1 ++ s2 /\ label_cell l s2 content post.
Proof.
  intros (lab & ws1 & c1 & ws2 & o & attrs & c2 & -> & Hlab & H).
  destruct (ci_eq_app_split p l lab Hlab) as (lab1 & lab2 & -> & Hlab2).
  exists lab1, (lab2 ++ ws1 ++ c1 ++ ws2 ++ o ++ attrs ++ ">"%char :: content ++ c2 ++ post).
  split; [rewrite <- app_assoc; reflexivity|].
  exists lab2, ws1, c1, ws2, o, attrs, c2. auto.
Qed.


(** X8: a label is looked for as a piece of text, not as a whole cell: a
    document that holds a cell for a longer label holds one for every tail
    of that label, so the lookup of the tail is not absent either (a row
    for "System Product Name" serves the lookup of "Name"). *)
Theorem find_label_value_tail_label (html p l : str) :
  _find_label_value html (p ++ l) <> Ok None ->
  _find_label_value html l <> Ok None
  /\ exists content,
      extracted_cell html l content
      /\ _find_label_value html l
         = (value <- _clean_html content ;; Ok (Some value)).
Proof.
  intros Hfound.
  destruct (find_label_value_cases html (p ++ l))
    as [[_ E]|(content & Hcell & _)]; [contradiction|].
  destruct Hcell as (pre & s & post & -> & Hcell & _).
  destruct (label_cell_tail _ _ _ _ _ Hcell) as (s1 & s2 & -> & Hcell2).
  destruct (find_label_value_cases (pre ++ s1 ++ s2) l)
    as [[Hno _]|(content2 & Hcell3 & H)].
  - exfalso. apply (Hno (pre ++ s1) s2 content post); trivial.
    rewrite <- app_assoc. reflexivity.
  - rewrite (find_label_value_extracted _ _ _ Hcell3). split; [|eauto].
    destruct (_clean_html content2); discriminate.
Qed.

(** ** Further properties of the text normalizer *)

(** X9: the normalizer raises [ValueError] on a text with a decimal
    character reference of more than 4300 digits and nothing else; on every
    other text it returns the normal form of what the text decodes to: the
    words of the decoded text joined by single spaces.  The result is
    normalized whatever the references decode to: its only white space is
    single spaces between other characters.  A text without an ampersand
    decodes to itself, and every value the field extractor returns is
    normalized. *)
Theorem clean_html_normalized :
  (forall text,
      match _clean_html text with
      | Ok v => normalized v /\ exists d, decoded text d /\ v = normal_form d
      | Raise e => e = ValueError /\ long_reference text
      end)
  /\ (forall d, normalized (normal_form d)
                /\ words (normal_form d) = words d)
  /\ (forall text,
         existsb (Ascii.eqb "&") text = false ->
         _clean_html text = Ok (normal_form text))
  /\ (forall html label v,
         _find_label_value html label = Ok (Some v) -> normalized v).
Proof.
  split; [|split; [|split]].
  - intros text. destruct (_clean_html text) as [v|e] eqn:E.
    + split; [eapply clean_html_normal; eauto|]. apply clean_html_ok, E.
    + apply clean_html_raise, E.
  - intros d. split.
    + destruct (normal_form_shape d). apply shape_normalized; trivial.
    + rewrite <- strip_collapse_normal, words_strip. unfold words.
      apply split_ws_collapse. discriminate.
  - intros text H. rewrite clean_html_unfold. unfold unescape. rewrite H.
    reflexivity.
  - intros html label v. unfold _find_label_value.
    destruct (search IS (label_pattern label) html) as [[pre m]|];
      [|discriminate].
    destruct (_clean_html (group1 m)) as [v'|e] eqn:E; cbn [bind];
      [|discriminate].
    intros [= <-]. eapply clean_html_normal; eauto.
Qed.

(** X10: normalizing is idempotent on every text whose normalized form
    holds no ampersand: normalizing it again changes nothing. *)
Theorem clean_html_idempotent (text v : str) :
  _clean_html text = Ok v ->
  existsb (Ascii.eqb "&") v = false ->
  _clean_html v = Ok v.
Proof.
  intros Hv Hamp. destruct (clean_html_shape text v Hv) as [Hs Hlast].
  rewrite clean_html_unfold. unfold unescape. rewrite Hamp. cbn [negb].
  unfold normal_form, words. rewrite (join_split v [] Hs Hlast). reflexivity.
Qed.

(** ** Further properties of the history table parser *)

(** X12: no entry of the history is a header row or carries a raw cell: the
    date label of every entry is a normalized text that is not "period" in
    any case. *)
Theorem history_entries_are_data (html : str) (h : list CapacityHistoryEntry.t)
        (e : CapacityHistoryEntry.t) :
  _parse_capacity_history html = Ok h -> In e h ->
  ~ ci_eq (CapacityHistoryEntry.date e) (lit "period")
  /\ normalized (CapacityHistoryEntry.date e).
Proof.
  intros Hh He.
  destruct (history_entry_cells _ _ _ Hh He)
    as (contents & cells & Hcells & Hkeep & ->).
  unfold discardedb in Hkeep. apply orb_false_iff in Hkeep.
  destruct Hkeep as [Hlen Hperiod]. apply Nat.ltb_ge in Hlen.
  unfold entry_of. cbn [CapacityHistoryEntry.date].
  destruct Hcells as [|content cell contents cells Hcell _];
    [simpl in Hlen; lia|].
  cbn [nth hd] in *. split.
  - intros Hci. unfold ci_eq in Hci. rewrite Hci in Hperiod.
    change (lower (lit "period")) with (lit "period") in Hperiod.
    assert (H : str_eqb (lit "period") (lit "period") = true) by reflexivity.
    congruence.
  - apply clean_html_ok in Hcell. eapply clean_html_normal; eauto.
Qed.

Lemma findall_no_start (w : str) (re : pattern) (t : str) :
  0 < min_width (map Lit w ++ re) ->
  ~ occurs_ci w t -> findall IS (map Lit w ++ re) t = [].
Proof.
  intros Hw Hno. rewrite findall_step by exact Hw.
  destruct (search IS (map Lit w ++ re) t) as [[pre m]|] eqn:E; trivial.
  exfalso. apply search_some in E. destruct E as (s' & -> & Hm & _).
  rewrite exec_lits in Hm.
  destruct (strip_lits IS w s') as [rest|] eqn:Es; [|discriminate].
  apply strip_lits_IS in Es. destruct Es as (w' & -> & Hci).
  apply Hno. exists pre, w', rest. auto.
Qed.

(** X13: a row is read only where the table holds the bare tag [<tr>], in
    any case: when the table of the section holds no such tag (its rows
    open with attributes, say), the history is empty. *)
Theorem history_needs_bare_rows (html table : str) :
  _extract_section html (lit "Battery capacity history") = Some table ->
  ~ occurs_ci (lit "<tr>") table ->
  _parse_capacity_history html = Ok [].
Proof.
  intros Hsec Hno. rewrite (parse_capacity_history_found _ _ Hsec).
  change row_pattern
    with (map Lit (lit "<tr>") ++ [Open; Star false Dot; Close] ++ lits "</tr>").
  rewrite (findall_no_start _ _ table); trivial. simpl. lia.
Qed.

Lemma not_occurs_ci (w t : str) :
  search IS (map Lit w) t = None -> ~ occurs_ci w t.
Proof.
  intros H (pre & w' & post & -> & Hci).
  assert (E := search_none _ _ _ H pre (w' ++ post) eq_refl).
  rewrite <- (app_nil_r (map Lit w)), exec_lits in E.
  rewrite (strip_lits_app w w' post Hci) in E. discriminate.
Qed.

(** ** A rendered history table is read back *)

Lemma clash_strip (w : str) :
  forall p s, clash w p = true -> strip_lits IS w (p ++ s) = None.
Proof.
  induction w as [|c w IH]; intros [|t p] s H; try discriminate H.
  cbn [clash] in H. cbn [strip_lits app].
  destruct (chr_eq IS c t); [apply IH; exact H | reflexivity].
Qed.

Lemma clash_app (w : str) :
  forall p b, clash w p = true -> clash w (p ++ b) = true.
Proof.
  induction w as [|c w IH]; intros [|t p] b H; try discriminate H.
  cbn [clash app] in *.
  destruct (chr_eq IS c t); [apply IH; exact H | reflexivity].
Qed.

Lemma all_clash_app (w a b : str) :
  all_clash w a = true -> all_clash w b = true -> all_clash w (a ++ b) = true.
Proof.
  intros Ha Hb. induction a as [|t a IH]; [exact Hb|].
  cbn [all_clash] in Ha. apply andb_true_iff in Ha. destruct Ha as [H1 H2].
  change ((t :: a) ++ b) with (t :: (a ++ b)). cbn [all_clash].
  change (t :: (a ++ b)) with ((t :: a) ++ b).
  rewrite (clash_app w (t :: a) b H1), (IH H2). reflexivity.
Qed.

Lemma all_clash_plain (w c : str) :
  existsb (Ascii.eqb "<") c = false -> all_clash ("<"%char :: w) c = true.
Proof.
  induction c as [|t c IH]; intros H; [reflexivity|].
  cbn [existsb] in H. apply orb_false_iff in H. destruct H as [Ht Hc].
  cbn [all_clash clash]. rewrite (IH Hc), andb_true_r.
  destruct (chr_eq IS "<" t) eqn:E; [|reflexivity].
  apply chr_eq_IS in E. change (to_lower "<") with "<"%char in E.
  apply to_lower_lt in E. subst t. discriminate Ht.
Qed.

Lemma search_skip_clash (w : str) (re : pattern) (pre s : str) :
  (forall t, strip_lits IS w t = None -> exec IS re t = None) ->
  all_clash w pre = true ->
  search IS re (pre ++ s)
  = match search IS re s with
    | Some (q, m) => Some (pre ++ q, m)
    | None => None
    end.
Proof.
  intros Hw. induction pre as [|t pre IH]; intros H.
  - cbn [app]. destruct (search IS re s) as [[q m]|]; reflexivity.
  - cbn [all_clash] in H. apply andb_true_iff in H. destruct H as [H1 H2].
    change ((t :: pre) ++ s) with (t :: (pre ++ s)). cbn [search].
    change (t :: (pre ++ s)) with ((t :: pre) ++ s).
    rewrite (Hw _ (clash_strip w (t :: pre) s H1)), (IH H2).
    destruct (search IS re s) as [[q m]|]; reflexivity.
Qed.

Lemma lits_start (w : str) (re : pattern) (t : str) :
  strip_lits IS w t = None -> exec IS (map Lit w ++ re) t = None.
Proof. intros H. rewrite exec_lits, H. reflexivity. Qed.

Lemma close_lits_start (w : str) (re : pattern) (t : str) :
  strip_lits IS w t = None -> exec IS (Close :: map Lit w ++ re) t = None.
Proof.
  intros H. change (exec IS (Close :: map Lit w ++ re) t)
    with (option_map (set_close t) (exec IS (map Lit w ++ re) t)).
  rewrite (lits_start w re t H). reflexivity.
Qed.

Lemma search_here (fl : flags) (re : pattern) (s : str) (m : marks) :
  exec fl re s = Some m -> search fl re s = Some ([], m).
Proof. intros H. destruct s; cbn [search]; rewrite H; reflexivity. Qed.

(** A rendered cell is matched where it stands, up to its own closing tag. *)
Lemma exec_cell (c rest : str) :
  existsb (Ascii.eqb "<") c = false ->
  exec IS cell_pattern (render_cell c ++ rest)
  = Some {| m_open := c ++ lit "</td>" ++ rest;
            m_close := lit "</td>" ++ rest;
            m_end := rest |}.
Proof.
  intros Hc. unfold render_cell. rewrite <- !app_assoc.
  set (X := c ++ lit "</td>" ++ rest).
  set (closer := Close :: map Lit (lit "</t")
                   ++ [One (OneOf ["d"; "h"]%char)] ++ lits ">").
  change (exec IS cell_pattern (lit "<td>" ++ X))
    with (option_map (set_open X) (exec IS (Star false Dot :: closer) X)).
  rewrite (exec_lazy_search IS Dot _ (fun _ => eq_refl)).
  unfold X at 2.
  rewrite (search_skip_clash (lit "</t") closer c (lit "</td>" ++ rest)
             (close_lits_start (lit "</t") _) (all_clash_plain _ c Hc)).
  rewrite (search_here IS closer (lit "</td>" ++ rest)
             {| m_open := []; m_close := lit "</td>" ++ rest; m_end := rest |}
             eq_refl).
  rewrite app_nil_r. reflexivity.
Qed.

Lemma findall_cells (cells : list str) :
  Forall (fun c => existsb (Ascii.eqb "<") c = false) cells ->
  findall IS cell_pattern (row_body cells) = cells.
Proof.
  assert (Hw : 0 < min_width cell_pattern) by (vm_compute; lia).
  induction 1 as [|c cells Hc _ IH].
  - reflexivity.
  - unfold row_body. cbn [flat_map]. rewrite (findall_step _ _ _ Hw).
    rewrite (search_here _ _ _ _ (exec_cell c _ Hc)).
    cbn [m_end]. f_equal; [|exact IH].
    apply (group1_cell c (lit "</td>" ++ flat_map render_cell cells)).
Qed.

Lemma all_clash_cells (w : str) (cells : list str) :
  all_clash ("<"%char :: w) (lit "<td>") = true ->
  all_clash ("<"%char :: w) (lit "</td>") = true ->
  Forall (fun c => existsb (Ascii.eqb "<") c = false) cells ->
  all_clash ("<"%char :: w) (row_body cells) = true.
Proof.
  intros Ho Hc. induction 1 as [|c cells Hp _ IH]; [reflexivity|].
  unfold row_body. cbn [flat_map]. unfold render_cell.
  repeat apply all_clash_app; trivial. apply all_clash_plain, Hp.
Qed.

(** A rendered row is matched where it stands, up to its own closing tag. *)
Lemma exec_row (cells : list str) (rest : str) :
  Forall (fun c => existsb (Ascii.eqb "<") c = false) cells ->
  exec IS row_pattern (render_row cells ++ rest)
  = Some {| m_open := row_body cells ++ lit "</tr>" ++ rest;
            m_close := lit "</tr>" ++ rest;
            m_end := rest |}.
Proof.
  intros Hc. unfold render_row. rewrite <- !app_assoc.
  set (X := row_body cells ++ lit "</tr>" ++ rest).
  set (closer := Close :: map Lit (lit "</tr>") ++ []).
  change (exec IS row_pattern (lit "<tr>" ++ X))
    with (option_map (set_open X) (exec IS (Star false Dot :: closer) X)).
  rewrite (exec_lazy_search IS Dot _ (fun _ => eq_refl)).
  unfold X at 2.
  rewrite (search_skip_clash (lit "</tr>") closer (row_body cells)
             (lit "</tr>" ++ rest) (close_lits_start (lit "</tr>") _)
             (all_clash_cells (lit "/tr>") cells eq_refl eq_refl Hc)).
  rewrite (search_here IS closer (lit "</tr>" ++ rest)
             {| m_open := []; m_close := lit "</tr>" ++ rest; m_end := rest |}
             eq_refl).
  rewrite app_nil_r. reflexivity.
Qed.

Lemma findall_rows (rows : list (list str)) :
  Forall (Forall (fun c => existsb (Ascii.eqb "<") c = false)) rows ->
  findall IS row_pattern (render_table rows) = map row_body rows.
Proof.
  assert (Hw : 0 < min_width row_pattern) by (vm_compute; lia).
  intros H. unfold render_table.
  rewrite (findall_step _ _ _ Hw).
  rewrite (search_skip_clash (lit "<tr>") row_pattern (lit "<table>") _
             (lits_start (lit "<tr>") _) eq_refl).
  transitivity (findall IS row_pattern (flat_map render_row rows ++ lit "</table>")).
  { rewrite (findall_step _ _ (flat_map _ _ ++ _) Hw).
    destruct (search IS row_pattern (flat_map render_row rows ++ lit "</table>"))
      as [[q m]|]; reflexivity. }
  induction H as [|cells rows Hc _ IH].
  - reflexivity.
  - cbn [flat_map map]. rewrite <- app_assoc, (findall_step _ _ _ Hw).
    rewrite (search_here _ _ _ _ (exec_row cells _ Hc)).
    cbn [m_end]. f_equal; [|exact IH].
    apply (group1_cell (row_body cells)
             (lit "</tr>" ++ flat_map render_row rows ++ lit "</table>")).
Qed.

Lemma all_clash_rows (rows : list (list str)) :
  Forall (Forall (fun c => existsb (Ascii.eqb "<") c = false)) rows ->
  all_clash (lit "</table>") (flat_map render_row rows) = true.
Proof.
  induction 1 as [|cells rows Hc _ IH]; [reflexivity|].
  cbn [flat_map]. unfold render_row.
  repeat apply all_clash_app; trivial.
  apply (all_clash_cells (lit "/table>") cells eq_refl eq_refl Hc).
Qed.

(** The section extractor finds the rendered table under its heading,
    whatever follows the table. *)
Lemma extract_rendered (rows : list (list str)) (post : str) :
  Forall (Forall (fun c => existsb (Ascii.eqb "<") c = false)) rows ->
  _extract_section
    (lit "<h2>Battery capacity history</h2>" ++ render_table rows ++ post)
    (lit "Battery capacity history")
  = Some (render_table rows).
Proof.
  intros H. unfold _extract_section.
  set (title := lit "Battery capacity history").
  set (T := render_table rows).
  change (lit "<h2>Battery capacity history</h2>" ++ T ++ post)
    with (lit "<h2>" ++ title ++ lit "</h2>" ++ T ++ post).
  rewrite (search_skip_clash title (section_pattern title) (lit "<h2>") _
             (lits_start title _) eq_refl).
  assert (E : exec IS (section_pattern title) (title ++ lit "</h2>" ++ T ++ post)
              = Some (set_open (T ++ post)
                        {| m_open := []; m_close := post; m_end := post |})).
  { rewrite exec_section_pattern. unfold table_start.
    rewrite (strip_lits_app title title _ eq_refl).
    change (drop_while is_space (lit "</h2>" ++ T ++ post))
      with (lit "</h2>" ++ T ++ post).
    rewrite (strip_lits_app (lit "</h2>") (lit "</h2>") _ eq_refl).
    set (F := flat_map render_row rows).
    assert (ET : T ++ post = lit "<table" ++ (">"%char :: F) ++ lit "</table>" ++ post).
    { unfold T, render_table. fold F. rewrite <- !app_assoc. reflexivity. }
    replace (drop_while is_space (T ++ post)) with (T ++ post)
      by (rewrite ET; reflexivity).
    rewrite ET at 1.
    rewrite (strip_lits_app (lit "<table") (lit "<table") _ eq_refl).
    rewrite (search_skip_clash (lit "</table>") (lits "</table>" ++ [Close])
               (">"%char :: F) (lit "</table>" ++ post)
               (lits_start (lit "</table>") _)
               (all_clash_app (lit "</table>") [">"%char] F eq_refl
                  (all_clash_rows rows H))).
    rewrite (search_here IS (lits "</table>" ++ [Close]) (lit "</table>" ++ post)
               {| m_open := []; m_close := post; m_end := post |} eq_refl).
    reflexivity. }
  rewrite (search_here _ _ _ _ E). f_equal. apply group1_table.
Qed.

Lemma plain_cells_short (cells : list str) :
  Forall plain_cell cells -> ~ Exists long_reference cells.
Proof.
  induction 1 as [|c cells (_ & Hc & _) _ IH]; intros Hlong;
    inversion Hlong as [? ? Hl|? ? Hl]; subst; auto.
  apply clean_html_ok in Hc. exact (normal_text_short _ _ Hc Hl).
Qed.

Lemma plain_cells_normal (cells cells' : list str) :
  Forall plain_cell cells -> Forall2 normal_text cells cells' -> cells' = cells.
Proof.
  intros H. revert cells'.
  induction H as [|c cells (_ & Hc & _) _ IH]; intros cells' H';
    inversion H' as [|? v ? vs Hv Hvs]; subst; trivial.
  apply clean_html_ok in Hc.
  rewrite (normal_text_unique _ _ _ Hv Hc), (IH _ Hvs). reflexivity.
Qed.

Lemma plain_row (cells : list str) (entries : list CapacityHistoryEntry.t) :
  Forall plain_cell cells ->
  history_row entries (row_body cells)
  = Ok (if discardedb cells then entries else entries ++ [entry_of cells]).
Proof.
  intros H.
  assert (Hlt : Forall (fun c => existsb (Ascii.eqb "<") c = false) cells).
  { eapply Forall_impl; [|exact H]. intros c [Hc _]. exact Hc. }
  assert (Hfew : forall i, too_many_digits (Some (nth i cells [])) = false).
  { intros i. destruct (nth_in_or_default i cells []) as [Hin | Hd];
      [|rewrite Hd; reflexivity].
    apply (proj1 (Forall_forall _ _) H _ Hin). }
  destruct (history_row_cases entries (row_body cells))
    as [[Hfail _]|(cells' & Hcells' & _ & E)];
    rewrite (findall_cells cells Hlt) in *.
  - exfalso. destruct Hfail as [Hlong|(cells' & Hcells' & _ & Hmany)].
    + exact (plain_cells_short cells H Hlong).
    + rewrite (plain_cells_normal _ _ H Hcells') in Hmany.
      destruct Hmany as [Hm|Hm]; rewrite Hfew in Hm; discriminate.
  - rewrite (plain_cells_normal _ _ H Hcells') in E. exact E.
Qed.

Lemma plain_rows (rows : list (list str)) :
  Forall (Forall plain_cell) rows ->
  forall entries,
    for_rows (map row_body rows) entries
    = Ok (entries
          ++ map entry_of (filter (fun cells => negb (discardedb cells)) rows)).
Proof.
  induction 1 as [|cells rows Hc _ IH]; intros entries.
  - cbn. rewrite app_nil_r. reflexivity.
  - cbn [map for_rows filter]. rewrite (plain_row cells entries Hc). cbn [bind].
    rewrite IH. destruct (discardedb cells); cbn [negb map]; trivial.
    rewrite <- app_assoc. reflexivity.
Qed.

(** X14: a history table written row by row and cell by cell is read back:
    under the heading of the section, whatever follows the table, the
    parser returns one entry for each row of at least three plain cells
    whose first cell is not "period", in the order of the rows, with the
    first cell as date and the second and third coerced to numbers.  A
    plain cell holds no [<] and at most 4300 digits and is left as it is by
    the normalizer. *)
Theorem history_round_trip (rows : list (list str)) (post : str) :
  Forall (Forall plain_cell) rows ->
  _parse_capacity_history
    (lit "<h2>Battery capacity history</h2>" ++ render_table rows ++ post)
  = Ok (map entry_of (filter (fun cells => negb (discardedb cells)) rows)).
Proof.
  intros H.
  assert (Hlt : Forall (Forall (fun c => existsb (Ascii.eqb "<") c = false)) rows).
  { eapply Forall_impl; [|exact H]. intros cells Hc.
    eapply Forall_impl; [|exact Hc]. intros c [Hp _]. exact Hp. }
  rewrite (parse_capacity_history_found _ _ (extract_rendered rows post Hlt)).
  rewrite (findall_rows rows Hlt). apply (plain_rows rows H []).
Qed.

(** ** The sign of the health percentage *)

Lemma binary_round_aux_sign (s : bool) (q e : Z) (l : location) :
  (0 <= q)%Z -> sign_bit (binary_round_aux F64.prec F64.emax s q e l) = Some s.
Proof.
  intros Hq. assert (Hn := binary_round_aux_not_nan s q e l Hq).
  revert Hn. unfold binary_round_aux.
  destruct (shr_fexp F64.prec F64.emax q e l) as [mrs1 e1].
  destruct (shr_fexp F64.prec F64.emax _ e1 loc_Exact) as [mrs2 e2].
  destruct (shr_m mrs2) as [|p|p]; intros Hn.
  - reflexivity.
  - destruct (_ <=? _)%Z; reflexivity.
  - exfalso. apply Hn. reflexivity.
Qed.

Lemma round_quotient_sign (s : bool) (n d : Z) :
  (0 <= n)%Z -> (0 < d)%Z -> sign_bit (F64.round_quotient s n d) = Some s.
Proof.
  intros Hn Hd. unfold F64.round_quotient.
  assert (H := div_core_nonneg n d Hn Hd).
  destruct (SFdiv_core_binary F64.prec F64.emax n 0 d 0) as [[q e] l].
  apply binary_round_aux_sign. exact H.
Qed.

Lemma true_div_sign (a b : Z) (q : F64.float) :
  F64.true_div a b = Ok q ->
  sign_bit q = Some (xorb (a <? 0)%Z (b <? 0)%Z).
Proof.
  unfold F64.true_div.
  destruct a as [|pa|pa], b as [|pb|pb]; try discriminate;
    try (intros [= <-]; reflexivity);
    match goal with
    | |- context [F64.round_quotient ?s ?n ?d] =>
        assert (Hs := round_quotient_sign s n d ltac:(simpl; lia)
                        ltac:(simpl; lia));
        destruct (F64.round_quotient s n d) as [s0|s0| |s0 m0 e0]; intros H;
        try discriminate H; injection H as <-; exact Hs
    end.
Qed.

Lemma mul_hundred_sign (q : F64.float) :
  (exists s, q = S754_zero s) \/ (exists s m e, q = S754_finite s m e) ->
  sign_bit (SFmul F64.prec F64.emax q F64.hundred) = sign_bit q.
Proof.
  intros [[s ->]|(s & m & e & ->)]; unfold F64.hundred; cbn [SFmul sign_bit].
  - rewrite xorb_false_r. reflexivity.
  - rewrite binary_round_aux_sign by lia. rewrite xorb_false_r. reflexivity.
Qed.

Lemma round_sign (x : F64.float) (ndigits : N) :
  sign_bit (F64.round x ndigits) = sign_bit x.
Proof.
  destruct x as [s|s| |s m e]; trivial. unfold F64.round.
  destruct (323 <? ndigits)%N; [reflexivity|].
  set (p := (10 ^ Z.of_N ndigits)%Z).
  assert (Hp : (0 < p)%Z) by (apply Z.pow_pos_nonneg; lia).
  set (k := if (0 <=? e)%Z then (Zpos m * 2 ^ e * p)%Z
            else F64.div_half_even (Zpos m * p) (2 ^ (- e))).
  assert (Hk : (0 <= k)%Z).
  { subst k. destruct (Z.leb_spec 0 e).
    - assert (0 < 2 ^ e)%Z by (apply Z.pow_pos_nonneg; lia). nia.
    - apply div_half_even_nonneg; [nia|]. apply Z.pow_pos_nonneg; lia. }
  destruct k as [|pk|pk] eqn:Ek; [reflexivity| |lia].
  apply round_quotient_sign; lia.
Qed.

(** X15: the health percentage carries the sign of the quotient of the
    capacities: its sign bit is set exactly when the two capacities have
    opposite signs.  For two positive capacities, as the parser yields
    them, it is therefore never negative, not even [-0.0]. *)
Theorem health_sign (b : BatteryInfo.t) (a : Health.t) (d f : Z) :
  compute_health b = Ok a ->
  BatteryInfo.design_capacity_mwh b = Some d ->
  BatteryInfo.full_charge_capacity_mwh b = Some f ->
  d <> 0%Z -> f <> 0%Z ->
  exists h,
    Health.health_percentage a = Some h
    /\ sign_bit h = Some (xorb (f <? 0)%Z (d <? 0)%Z)
    /\ ((0 < d)%Z -> (0 < f)%Z -> sign_bit h = Some false).
Proof.
  intros Ha Hd Hf Hd0 Hf0.
  destruct (compute_health_cases b) as [(h & dg & Hh & _ & Hb)|[_ Hb]];
    rewrite Hb in Ha; [|discriminate].
  injection Ha as <-. cbn [Health.health_percentage].
  rewrite Hd, Hf, (health_pct_of_div d f Hd0 Hf0) in Hh.
  destruct (F64.true_div f d) as [q|e] eqn:E; [|discriminate].
  cbn [bind] in Hh. injection Hh as <-.
  assert (Hs : sign_bit (F64.round (SFmul F64.prec F64.emax q F64.hundred) 2)
               = Some (xorb (f <? 0)%Z (d <? 0)%Z)).
  { rewrite round_sign, (mul_hundred_sign q (true_div_shape f d q E)).
    apply (true_div_sign f d q E). }
  eexists. split; [reflexivity|]. split; [exact Hs|].
  intros Hdp Hfp. rewrite Hs.
  assert (Ed : (d <? 0)%Z = false) by (apply Z.ltb_ge; lia).
  assert (Ef : (f <? 0)%Z = false) by (apply Z.ltb_ge; lia).
  rewrite Ed, Ef. reflexivity.
Qed.

End Agent.

(** ** The theorems at concrete inputs *)

(** Design 2000 with full charge 1700: both capacities present and non-zero,
    the quotient fits a float. *)
Lemma health_percentage_witness :
  exists a,
    compute_health (battery_of (Some 2000%Z) (Some 1700%Z) None) = Ok a
    /\ Health.health_percentage a = Some (F64.centi 8500)
    /\ Health.degradation_percentage a = Some (F64.centi 1500).
Proof.
  exact (proj1 (proj2 (health_percentage_correct
                         (battery_of (Some 2000%Z) (Some 1700%Z) None)))
           2000%Z 1700%Z eq_refl eq_refl
           ltac:(discriminate) ltac:(discriminate)).
Defined.

(** C1 as stated fails where the quotient exceeds the largest float: with
    design 1 and full charge [10 ** 309], both present and non-zero, the
    scorer raises and yields no health percentage. *)
Lemma health_percentage_overflow :
  compute_health (battery_of (Some 1%Z) (Some (10 ^ 309)%Z) None)
  = Raise OverflowError
  /\ ~ (exists a,
           compute_health (battery_of (Some 1%Z) (Some (10 ^ 309)%Z) None) = Ok a).
Proof.
  assert (H : compute_health (battery_of (Some 1%Z) (Some (10 ^ 309)%Z) None)
              = Raise OverflowError) by (vm_compute; reflexivity).
  split; [exact H|]. intros [a Ha]. rewrite H in Ha. discriminate.
Qed.

Lemma cycle_penalty_witness :
  compute_health (battery_of None None (Some 600%Z))
  = Ok {| Health.health_percentage := None;
          Health.degradation_percentage := None;
          Health.cycle_penalty := 2;
          Health.estimated_remaining_life := "unknown" |}.
Proof.
  exact (proj2 (proj2 cycle_penalty_correct) 600%Z 2%Z
           (or_intror (or_intror (or_introl eq_refl)))).
Defined.

(** "41,000 mWh" has five digits: coercion returns the number they
    denote. *)
Lemma parse_int_total_witness :
  _parse_int (Some (lit "41,000 mWh")) = Ok (Some 41000%Z).
Proof.
  exact (proj1 (proj1 parse_int_total (Some (lit "41,000 mWh"))) eq_refl).
Defined.

(** C4 as stated fails on a string of 4301 digits: coercion raises
    [ValueError], since [int] converts at most 4300 digits. *)
Lemma parse_int_long_digits :
  length nines = 4301
  /\ forallb is_digit nines = true
  /\ _parse_int (Some nines) = Raise ValueError
  /\ ~ (exists r, _parse_int (Some nines) = Ok r).
Proof.
  assert (H : _parse_int (Some nines) = Raise ValueError)
    by (vm_compute; reflexivity).
  split; [vm_compute; reflexivity|]. split; [vm_compute; reflexivity|].
  split; [exact H|]. intros [r Hr]. rewrite H in Hr. discriminate.
Qed.

Lemma parse_int_idempotent_witness :
  _parse_int (Some (lit "1000")) = Ok (Some 1000%Z)
  /\ _parse_int (Some (decimal_rendering 1000)) = Ok (Some 1000%Z).
Proof.
  split.
  - exact (proj1 parse_int_idempotent (lit "1000") ltac:(discriminate) eq_refl
             ltac:(simpl; lia)).
  - exact (proj1 (proj2 (proj2 parse_int_idempotent))
             (Some (lit "1,000 mWh")) 1000%Z eq_refl).
Defined.

Lemma decimal_value_zeros (n : nat) (s : str) :
  decimal_value (repeat "0"%char n ++ s) = decimal_value s.
Proof.
  induction n as [|n IH]; [reflexivity|].
  cbn [repeat app decimal_value]. exact IH.
Qed.

(** C9 as stated fails on 4300 zeros followed by a one: the string is not
    empty, holds only digits and denotes the number one, and coercion
    raises [ValueError] on it. *)
Lemma parse_int_long_one :
  zeros_then_one <> []
  /\ forallb decimal_digit zeros_then_one = true
  /\ decimal_value zeros_then_one = 1%Z
  /\ _parse_int (Some zeros_then_one) = Raise ValueError.
Proof.
  split; [discriminate|]. split; [vm_compute; reflexivity|].
  split; [exact (decimal_value_zeros 4300 (lit "1"))|].
  vm_compute. reflexivity.
Qed.

Lemma one_entry_section :
  extracted_section one_entry_history history_title one_entry_table.
Proof.
  destruct (extract_section_cases one_entry_history history_title)
    as [[_ E]|(table & H & _ & E)]; vm_compute in E; [discriminate|].
  injection E as E. subst table. exact H.
Qed.

(** The history of one header row and one data row: the cells are read and
    normalized, the header row is dropped, the data row gives its entry. *)
Lemma parse_capacity_history_witness :
  exists cellss,
    Forall2 (Forall2 (normal_text no_charrefs)) header_and_data cellss
    /\ Forall (fun cells => discarded cells \/ ~ long_capacity cells) cellss
    /\ [entry_2024]
       = map entry_of (filter (fun cells => negb (discardedb cells)) cellss).
Proof.
  exact (proj1 (proj2 (parse_capacity_history_correct no_charrefs))
           one_entry_history one_entry_table
           (findall IS row_pattern one_entry_table) header_and_data
           one_entry_section
           (findall_rows_of one_entry_table)
           (contents_of_rows (findall IS row_pattern one_entry_table))).
Defined.

(** C5 as stated fails in two ways.  A full-charge capacity of 4301 digits
    in a data row makes the parser raise [ValueError].  And a row whose
    opening tag carries an attribute is not read as a row: a section whose
    only row has three cells, the first one not "period", gives the empty
    history. *)
Lemma history_raises_or_skips :
  _parse_capacity_history no_charrefs long_capacity_history = Raise ValueError
  /\ _extract_section attributed_history history_title = Some attributed_table
  /\ findall IS cell_pattern attributed_table
     = [lit "2024-01-01"; lit "41,000 mWh"; lit "50,000 mWh"]
  /\ discardedb [lit "2024-01-01"; lit "41,000 mWh"; lit "50,000 mWh"] = false
  /\ _parse_capacity_history no_charrefs attributed_history = Ok [].
Proof. repeat split; vm_compute; reflexivity. Qed.



(** The label "name" in a report whose first cell ends with it in another
    case: the value cell that follows is read and normalized. *)
Lemma find_label_value_witness :
  exists content,
    extracted_cell spaced_name_report (lit "name") content
    /\ normal_text no_charrefs content (lit "BAT 0").
Proof.
  exact (proj1 (find_label_value_correct no_charrefs)
           spaced_name_report (lit "name")).
Defined.

(** C7 as stated fails in two ways.  On a value cell that holds a decimal
    character reference of 4301 digits the extractor raises [ValueError]:
    it returns neither a text nor absent.  And the label is not matched
    exactly: the lookup of "Name" reads the cell after "System Product
    Name". *)
Lemma find_label_value_raises_or_inexact :
  _find_label_value no_charrefs long_reference_name (lit "Name")
  = Raise ValueError
  /\ _find_label_value no_charrefs product_then_name (lit "Name")
     = Ok (Some (lit "PC"))
  /\ _find_label_value no_charrefs name_only (lit "Name")
     = Ok (Some (lit "BAT0")).
Proof. repeat split; vm_compute; reflexivity. Qed.

Lemma empty_cell_witness :
  _find_label_value no_charrefs blank_chemistry (lit "Chemistry") = Ok (Some [])
  /\ _find_label_value no_charrefs blank_chemistry (lit "Chemistry") <> Ok None
  /\ (value <- _find_label_value no_charrefs blank_chemistry (lit "Chemistry") ;;
      _parse_int value) = Ok None
  /\ _parse_int None = Ok None.
Proof.
  refine (proj1 (empty_cell_present no_charrefs)
            blank_chemistry (lit "Chemistry") (lit "  ") _ eq_refl).
  apply (search_label_extracted blank_chemistry (lit "Chemistry") (lit "<tr><td>")
           {| m_open := lit "  </td></tr>";
              m_close := lit "</td></tr>";
              m_end := lit "</tr>" |}).
  vm_compute. reflexivity.
Defined.

(** Two runs on the same report at two readings of the clock. *)
Lemma pipeline_witness :
  parse_battery_report no_charrefs one_report "battery-report.html"
  = parse_battery_report no_charrefs one_report "battery-report.html"
  /\ match main_payload no_charrefs "2026-01-01T00:00:00" one_report
                        "battery-report.html",
           main_payload no_charrefs "2026-01-01T00:00:01" one_report
                        "battery-report.html" with
     | Ok p1, Ok p2 =>
         payload_content p1 = payload_content p2
         /\ Payload.generated_at p1 = "2026-01-01T00:00:00Z"%string
         /\ Payload.generated_at p2 = "2026-01-01T00:00:01Z"%string
     | Raise e1, Raise e2 => e1 = e2
     | _, _ => False
     end.
Proof.
  exact (pipeline_deterministic no_charrefs
           "2026-01-01T00:00:00" "2026-01-01T00:00:01"
           one_report one_report "battery-report.html" "battery-report.html"
           eq_refl).
Defined.

(** C8 as stated fails on the payload: the same report read at two readings
    of the clock gives two payloads that differ in [generated_at]. *)
Lemma pipeline_reads_clock :
  exists p1 p2,
    main_payload no_charrefs "2026-01-01T00:00:00" one_report "battery-report.html"
    = Ok p1
    /\ main_payload no_charrefs "2026-01-01T00:00:01" one_report "battery-report.html"
       = Ok p2
    /\ p1 <> p2.
Proof.
  eexists. eexists. split; [vm_compute; reflexivity|].
  split; [vm_compute; reflexivity|]. intros H. discriminate H.
Qed.

(** ** The further properties at concrete inputs *)

Lemma cycle_penalty_monotone_witness :
  (cycle_penalty_of (Some 600%Z) <= cycle_penalty_of (Some 900%Z))%Z.
Proof. exact (proj1 cycle_penalty_monotone 600%Z 900%Z ltac:(lia)). Defined.

Lemma parse_int_reads_digits_only_witness :
  _parse_int (Some (lit "41" ++ lit "," ++ lit "000 mWh"))
  = _parse_int (Some (lit "41" ++ lit "000 mWh")).
Proof.
  exact (proj1 parse_int_reads_digits_only (lit "41") (lit ",") (lit "000 mWh")
           eq_refl).
Defined.

Lemma health_never_nan_witness :
  Some (F64.centi 8500) <> Some S754_nan
  /\ Some (F64.centi 1500) <> Some S754_nan.
Proof.
  exact (health_never_nan
           (battery_of (Some 2000%Z) (Some 1700%Z) None)
           {| Health.health_percentage := Some (F64.centi 8500);
              Health.degradation_percentage := Some (F64.centi 1500);
              Health.cycle_penalty := 0;
              Health.estimated_remaining_life := "18-24 months" |}
           eq_refl).
Defined.

Lemma equal_capacities_witness :
  compute_health (battery_of (Some 50000%Z) (Some 50000%Z) (Some 312%Z))
  = Ok {| Health.health_percentage := Some F64.hundred;
          Health.degradation_percentage := Some (S754_zero false);
          Health.cycle_penalty := 0;
          Health.estimated_remaining_life := "18-24 months" |}.
Proof.
  exact (equal_capacities_full_health 50000%Z (Some 312%Z) ltac:(discriminate)).
Defined.

Lemma parsed_numbers_nonneg_witness :
  (forall f n,
      field_value (no_system_info, cycles_312, []) f = Number (Some n) ->
      (0 <= n)%Z)
  /\ (forall e n,
         In e (history_of (no_system_info, cycles_312, [])) ->
         CapacityHistoryEntry.full_charge_capacity_mwh e = Some n
         \/ CapacityHistoryEntry.design_capacity_mwh e = Some n ->
         (0 <= n)%Z).
Proof.
  exact (parsed_numbers_nonneg no_charrefs cycles_only
           (no_system_info, cycles_312, []) eq_refl).
Defined.

Lemma label_case_witness :
  _find_label_value no_charrefs bios_and_cycles (lit "BIOS")
  = _find_label_value no_charrefs bios_and_cycles (lit "bios").
Proof.
  exact (find_label_value_label_case no_charrefs bios_and_cycles
           (lit "BIOS") (lit "bios") eq_refl).
Defined.

Lemma tail_label_witness :
  _find_label_value no_charrefs product_then_name (lit "Name") <> Ok None
  /\ exists content,
      extracted_cell product_then_name (lit "Name") content
      /\ _find_label_value no_charrefs product_then_name (lit "Name")
         = (value <- _clean_html no_charrefs content ;; Ok (Some value)).
Proof.
  exact (find_label_value_tail_label no_charrefs product_then_name
           (lit "System Product ") (lit "Name")
           ltac:(vm_compute; discriminate)).
Defined.

Lemma clean_html_idempotent_witness :
  _clean_html no_charrefs (lit "41,000 mWh") = Ok (lit "41,000 mWh").
Proof.
  exact (clean_html_idempotent no_charrefs (lit "  41,000   mWh ")
           (lit "41,000 mWh") eq_refl eq_refl).
Defined.

Lemma history_entries_witness :
  ~ ci_eq (CapacityHistoryEntry.date entry_2024) (lit "period")
  /\ normalized (CapacityHistoryEntry.date entry_2024).
Proof.
  exact (history_entries_are_data no_charrefs one_entry_history [entry_2024]
           entry_2024 eq_refl (or_introl eq_refl)).
Defined.

Lemma history_needs_bare_rows_witness :
  _parse_capacity_history no_charrefs attributed_history = Ok [].
Proof.
  exact (history_needs_bare_rows no_charrefs attributed_history attributed_table
           eq_refl (not_occurs_ci (lit "<tr>") attributed_table eq_refl)).
Defined.

Lemma history_round_trip_witness :
  _parse_capacity_history no_charrefs
    (lit "<h2>Battery capacity history</h2>" ++ render_table header_and_data ++ [])
  = Ok [entry_2024].
Proof.
  exact (history_round_trip no_charrefs header_and_data []
           ltac:(repeat constructor)).
Defined.

Lemma health_sign_witness :
  exists h,
    Some (F64.centi 8500) = Some h
    /\ sign_bit h = Some (xorb (1700 <? 0)%Z (2000 <? 0)%Z)
    /\ ((0 < 2000)%Z -> (0 < 1700)%Z -> sign_bit h = Some false).
Proof.
  exact (health_sign
           (battery_of (Some 2000%Z) (Some 1700%Z) None)
           {| Health.health_percentage := Some (F64.centi 8500);
              Health.degradation_percentage := Some (F64.centi 1500);
              Health.cycle_penalty := 0;
              Health.estimated_remaining_life := "18-24 months" |}
           2000%Z 1700%Z eq_refl eq_refl eq_refl
           ltac:(discriminate) ltac:(discriminate)).
Defined.
